(** * Job scheduling and lifecycle engine of the batch generator

    A shallow embedding of the scheduler that lives in [src/App.tsx]
    (the [processQueue] tick, the promise callbacks it installs, and the
    [handleAddJobs], [handleSaveApiKey], [handleRetryJob] and
    [handleCancelJob] handlers), of the data model of [src/types.ts] and of
    the constants file.

    The React state cells ([jobs], [apiKeys], [quotaExceededProviders]) and
    the two refs ([jobStartTimestamps], [cancelledJobIds]) become the fields
    of one [State] record that every handler threads explicitly.  The
    promises created by [processJob] are kept in the [inFlight] field: each
    entry is the [jobToStart] snapshot its [then]/[catch] callbacks close
    over, and a [Settle] event delivers the outcome chosen by the provider.
    JavaScript runs each handler to completion, so each handler is one
    atomic transition.

    The transitions on [State] are those of a page whose renders keep up:
    a tick, a click or a save acts on a render that has seen every earlier
    update.  The section on renders further down ([Page]) separates the
    render a closure belongs to from the latest values, with the commit of
    a render and the run of its effects as events of their own; the
    transitions on [State] are its runs in which each event is followed by
    a commit and the effects. *)

From stdpp Require Import base decidable countable list gmap strings.
From Stdlib Require Import ZArith Lia.

Local Open Scope string_scope.
Local Open Scope list_scope.
Local Open Scope Z_scope.

(** ** Data model ([src/types.ts]) *)

Inductive JobStatus := Pending | Processing | Completed | Failed.

Inductive InputType := TextToVideo | ImageToVideo | TextToImage.

Inductive Provider := gemini | sora | kling | minimax | deepai | azure.

#[global] Instance JobStatus_eq_dec : EqDecision JobStatus.
Proof. solve_decision. Defined.

#[global] Instance InputType_eq_dec : EqDecision InputType.
Proof. solve_decision. Defined.

#[global] Instance Provider_eq_dec : EqDecision Provider.
Proof. solve_decision. Defined.

Definition Provider_to_nat (p : Provider) : nat :=
  match p with
  | gemini => 0 | sora => 1 | kling => 2
  | minimax => 3 | deepai => 4 | azure => 5
  end%nat.

Definition Provider_of_nat (n : nat) : option Provider :=
  match n with
  | 0 => Some gemini | 1 => Some sora | 2 => Some kling
  | 3 => Some minimax | 4 => Some deepai | 5 => Some azure
  | _ => None
  end%nat.

#[global] Program Instance Provider_countable : Countable Provider :=
  inj_countable Provider_to_nat Provider_of_nat _.
Next Obligation. by intros []. Qed.

Record Image := {
  base64 : string;
  mimeType : string;
  name : string
}.

Record Job := {
  id : string;
  prompt : string;
  inputType : InputType;
  model : string;
  aspectRatio : string;
  outputs : Z;
  image : option Image;
  status : JobStatus;
  retryCount : Z;
  resultUrl : option string;
  resultUrls : option (list string);
  error : option string
}.

#[global] Instance Image_eq_dec : EqDecision Image.
Proof. solve_decision. Defined.

#[global] Instance Job_eq_dec : EqDecision Job.
Proof. solve_decision. Defined.

(** [Omit<Job, 'id' | 'status' | 'retryCount'>], the argument type of
    [handleAddJobs]. *)
Module JobTemplate.
Record t := {
  prompt : string;
  inputType : InputType;
  model : string;
  aspectRatio : string;
  outputs : Z;
  image : option Image;
  resultUrl : option string;
  resultUrls : option (list string);
  error : option string
}.
End JobTemplate.

(** The object spread [{ ...j, status: st, retryCount: rc, resultUrl: u,
    resultUrls: us, error: e }]: the request fields are those of [j]. *)
Definition spread (j : Job) (st : JobStatus) (rc : Z)
    (u : option string) (us : option (list string)) (e : option string) : Job :=
  {| id := id j; prompt := prompt j; inputType := inputType j;
     model := model j; aspectRatio := aspectRatio j; outputs := outputs j;
     image := image j;
     status := st; retryCount := rc; resultUrl := u; resultUrls := us;
     error := e |}.

(** ** Constants *)

Module ModelInfo.
Record t := { id : string; name : string; provider : Provider }.
End ModelInfo.

Definition VIDEO_MODELS : list ModelInfo.t :=
  [ {| ModelInfo.id := "veo-2.0-generate-001"; ModelInfo.name := "Veo 2 (Gemini)";
       ModelInfo.provider := gemini |};
    {| ModelInfo.id := "sora-openai"; ModelInfo.name := "Sora (OpenAI)";
       ModelInfo.provider := sora |};
    {| ModelInfo.id := "sora-azure"; ModelInfo.name := "Sora (Azure)";
       ModelInfo.provider := azure |};
    {| ModelInfo.id := "kling-1"; ModelInfo.name := "Kling";
       ModelInfo.provider := kling |};
    {| ModelInfo.id := "minimax-v1"; ModelInfo.name := "Minimax";
       ModelInfo.provider := minimax |};
    {| ModelInfo.id := "deepai-video"; ModelInfo.name := "Video Generator (DeepAI)";
       ModelInfo.provider := deepai |} ].

Definition IMAGE_MODELS : list ModelInfo.t :=
  [ {| ModelInfo.id := "imagen-4.0-generate-001"; ModelInfo.name := "Imagen 4 (Gemini)";
       ModelInfo.provider := gemini |};
    {| ModelInfo.id := "dalle-3"; ModelInfo.name := "DALL-E 3 (OpenAI)";
       ModelInfo.provider := sora |} ].

Definition MAX_CONCURRENT_JOBS : Z := 4.
Definition RATE_LIMIT_COUNT : Z := 4.
Definition RATE_LIMIT_WINDOW_MS : Z := 60 * 1000.
Definition MAX_RETRIES : Z := 3.

(** The three message literals of [src/App.tsx]. *)
Definition MSG_AUTO_RETRY : string := "Tự động thử lại...".
Definition MSG_UNKNOWN : string := "Lỗi không xác định".
Definition MSG_CANCELLED : string := "Đã hủy bởi người dùng".

(** ** Scheduler state *)

Record State := {
  jobs : list Job;
  apiKeys : gmap Provider (option string);
  quotaExceededProviders : gset Provider;
  jobStartTimestamps : list Z;
  cancelledJobIds : gset string;
  inFlight : list Job
}.

Definition set_jobs (f : list Job → list Job) (s : State) : State :=
  {| jobs := f (jobs s); apiKeys := apiKeys s;
     quotaExceededProviders := quotaExceededProviders s;
     jobStartTimestamps := jobStartTimestamps s;
     cancelledJobIds := cancelledJobIds s; inFlight := inFlight s |}.

Definition set_apiKeys (f : gmap Provider (option string) → gmap Provider (option string))
    (s : State) : State :=
  {| jobs := jobs s; apiKeys := f (apiKeys s);
     quotaExceededProviders := quotaExceededProviders s;
     jobStartTimestamps := jobStartTimestamps s;
     cancelledJobIds := cancelledJobIds s; inFlight := inFlight s |}.

Definition set_quota (f : gset Provider → gset Provider) (s : State) : State :=
  {| jobs := jobs s; apiKeys := apiKeys s;
     quotaExceededProviders := f (quotaExceededProviders s);
     jobStartTimestamps := jobStartTimestamps s;
     cancelledJobIds := cancelledJobIds s; inFlight := inFlight s |}.

Definition set_timestamps (f : list Z → list Z) (s : State) : State :=
  {| jobs := jobs s; apiKeys := apiKeys s;
     quotaExceededProviders := quotaExceededProviders s;
     jobStartTimestamps := f (jobStartTimestamps s);
     cancelledJobIds := cancelledJobIds s; inFlight := inFlight s |}.

Definition set_cancelled (f : gset string → gset string) (s : State) : State :=
  {| jobs := jobs s; apiKeys := apiKeys s;
     quotaExceededProviders := quotaExceededProviders s;
     jobStartTimestamps := jobStartTimestamps s;
     cancelledJobIds := f (cancelledJobIds s); inFlight := inFlight s |}.

Definition set_inFlight (f : list Job → list Job) (s : State) : State :=
  {| jobs := jobs s; apiKeys := apiKeys s;
     quotaExceededProviders := quotaExceededProviders s;
     jobStartTimestamps := jobStartTimestamps s;
     cancelledJobIds := cancelledJobIds s; inFlight := f (inFlight s) |}.

(** [useState<Job[]>([])], the keys read from local storage, an empty
    quota set and the two empty refs; no promise is pending. *)
Definition initial (storedKeys : gmap Provider (option string)) : State :=
  {| jobs := []; apiKeys := storedKeys; quotaExceededProviders := ∅;
     jobStartTimestamps := []; cancelledJobIds := ∅; inFlight := [] |}.

(** ** The tick: [processQueue] *)

(** [job.inputType === InputType.TextToImage ? IMAGE_MODELS : VIDEO_MODELS] *)
Definition modelListOf (it : InputType) : list ModelInfo.t :=
  if decide (it = TextToImage) then IMAGE_MODELS else VIDEO_MODELS.

(** [modelList.find(m => m.id === job.model)] *)
Definition findModel (job : Job) : option ModelInfo.t :=
  List.find (λ m, bool_decide (ModelInfo.id m = model job))
            (modelListOf (inputType job)).

(** [modelInfo?.provider] *)
Definition providerOf (job : Job) : option Provider :=
  ModelInfo.provider <$> findModel job.

(** Truthiness of [apiKeys[p]]: the property is present, not [null], and
    not the empty string. *)
Definition truthy (k : option (option string)) : bool :=
  match k with
  | Some (Some key) => negb (bool_decide (key = ""))
  | _ => false
  end.

(** [modelInfo && apiKeys[modelInfo.provider as Provider]] *)
Definition hasCredential (keys : gmap Provider (option string)) (job : Job) : bool :=
  match findModel job with
  | Some m => truthy (keys !! ModelInfo.provider m)
  | None => false
  end.

(** The [for (const job of pendingJobs)] loop, with [jobsToStart] as the
    accumulator it pushes to. *)
Fixpoint selectLoop (keys : gmap Provider (option string)) (slotsToProcess : Z)
    (pendingJobs : list Job) (jobsToStart : list Job) : list Job :=
  match pendingJobs with
  | [] => jobsToStart
  | job :: rest =>
      if hasCredential keys job
         && bool_decide (Z.of_nat (length jobsToStart) < slotsToProcess)
      then selectLoop keys slotsToProcess rest (jobsToStart ++ [job])
      else selectLoop keys slotsToProcess rest jobsToStart
  end.

(** [prevJobs.map(j => j.id === jobToStart.id ? { ...j, status: Processing } : j)] *)
Definition markProcessing (jobToStart : Job) (j : Job) : Job :=
  if decide (id j = id jobToStart)
  then spread j Processing (retryCount j) (resultUrl j) (resultUrls j) (error j)
  else j.

(** One iteration of [jobsToStart.forEach]: the job becomes Processing, a
    reading [t] of [Date.now()] is pushed, and [processJob] is called, which
    leaves one more pending promise. *)
Definition startJob (t : Z) (jobToStart : Job) (s : State) : State :=
  set_inFlight (λ l, l ++ [jobToStart])
    (set_timestamps (λ ts, ts ++ [t])
      (set_jobs (map (markProcessing jobToStart)) s)).

(** [jobsToStart.forEach(...)]; [stamp i] is what [Date.now()] returns in
    iteration [i]. *)
Fixpoint forEachStart (stamp : nat → Z) (i : nat) (jobsToStart : list Job)
    (s : State) : State :=
  match jobsToStart with
  | [] => s
  | jobToStart :: rest =>
      forEachStart stamp (S i) rest (startJob (stamp i) jobToStart s)
  end.

(** [jobStartTimestamps.current.filter(timestamp => now - timestamp < RATE_LIMIT_WINDOW_MS)] *)
Definition prune (now : Z) (timestamps : list Z) : list Z :=
  filter (λ timestamp, now - timestamp < RATE_LIMIT_WINDOW_MS) timestamps.

Definition processingJobs (s : State) : Z :=
  Z.of_nat (length (filter (λ j, status j = Processing) (jobs s))).

Definition availableConcurrencySlots (s : State) : Z :=
  MAX_CONCURRENT_JOBS - processingJobs s.

(** Computed after the prune. *)
Definition availableRateLimitSlots (now : Z) (s : State) : Z :=
  RATE_LIMIT_COUNT - Z.of_nat (length (prune now (jobStartTimestamps s))).

Definition slotsToProcess (now : Z) (s : State) : Z :=
  Z.min (availableConcurrencySlots s) (availableRateLimitSlots now s).

Definition pendingJobs (s : State) : list Job :=
  filter (λ j, status j = Pending) (jobs s).

Definition jobsToStart (now : Z) (s : State) : list Job :=
  selectLoop (apiKeys s) (slotsToProcess now s) (pendingJobs s) [].

(** [processQueue] as called from a render that is up to date: the
    [jobs], [apiKeys] and [quotaExceededProviders] its closure holds are
    those of [s].  [now] is the first reading of [Date.now()] and [stamp]
    the later ones.  [processQueueFrom] below is the call from any
    render. *)
Definition processQueue (now : Z) (stamp : nat → Z) (s : State) : State :=
  if decide (0 < size (quotaExceededProviders s))%nat then s
  else
    let s1 := set_timestamps (λ _, prune now (jobStartTimestamps s)) s in
    if decide (slotsToProcess now s ≤ 0) then s1
    else
      if decide (length (jobsToStart now s) = 0%nat) then s1
      else forEachStart stamp 0 (jobsToStart now s) s1.

(** ** Settling of a dispatch: the [then] and [catch] callbacks *)

(** What [processJob] resolves with: [{ resultUrl: url }] for a video,
    [{ resultUrls: urls }] for images. *)
Inductive Result :=
  | VideoResult (url : string)
  | ImagesResult (urls : list string).

(** What [processJob] rejects with: a [QuotaExceededError] or another
    [Error], each with its [message]. *)
Inductive DispatchError :=
  | QuotaExceededError (message : string)
  | OtherError (message : string).

Definition message (e : DispatchError) : string :=
  match e with QuotaExceededError m => m | OtherError m => m end.

Definition isQuotaExceeded (e : DispatchError) : bool :=
  match e with QuotaExceededError _ => true | OtherError _ => false end.

Inductive Outcome :=
  | Fulfilled (result : Result)
  | Rejected (error : DispatchError).

(** [{ ...j, status: JobStatus.Completed, ...result, error: undefined }] *)
Definition completeWith (result : Result) (j : Job) : Job :=
  match result with
  | VideoResult url =>
      spread j Completed (retryCount j) (Some url) (resultUrls j) None
  | ImagesResult urls =>
      spread j Completed (retryCount j) (resultUrl j) (Some urls) None
  end.

(** [{ ...j, status: JobStatus.Failed, error: msg }] *)
Definition failWith (msg : string) (j : Job) : Job :=
  spread j Failed (retryCount j) (resultUrl j) (resultUrls j) (Some msg).

(** [error.message || 'Lỗi không xác định'] *)
Definition messageOrUnknown (msg : string) : string :=
  if decide (msg = "") then MSG_UNKNOWN else msg.

(** The body of the last [setJobs] updater of the [catch] callback. *)
Definition retryOrFail (msg : string) (j : Job) : Job :=
  if decide (retryCount j < MAX_RETRIES)
  then spread j Pending (retryCount j + 1) (resultUrl j) (resultUrls j)
              (Some MSG_AUTO_RETRY)
  else failWith (messageOrUnknown msg) j.

(** [prevJobs.map(j => j.id === jobId ? f j : j)] *)
Definition updateJob (jobId : string) (f : Job → Job) (l : list Job) : list Job :=
  map (λ j, if decide (id j = jobId) then f j else j) l.

Definition onFulfilled (jobToStart : Job) (result : Result) (s : State) : State :=
  if decide (id jobToStart ∈ cancelledJobIds s)
  then set_cancelled (λ c, c ∖ {[ id jobToStart ]}) s
  else set_jobs (updateJob (id jobToStart) (completeWith result)) s.

Definition onRejected (jobToStart : Job) (error : DispatchError) (s : State) : State :=
  if decide (id jobToStart ∈ cancelledJobIds s)
  then set_cancelled (λ c, c ∖ {[ id jobToStart ]}) s
  else
    match isQuotaExceeded error, providerOf jobToStart with
    | true, Some provider =>
        set_jobs (updateJob (id jobToStart) (failWith (message error)))
          (set_quota (λ q, q ∪ {[ provider ]}) s)
    | _, _ =>
        set_jobs (updateJob (id jobToStart) (retryOrFail (message error))) s
    end.

Definition onSettled (jobToStart : Job) (o : Outcome) (s : State) : State :=
  match o with
  | Fulfilled result => onFulfilled jobToStart result s
  | Rejected error => onRejected jobToStart error s
  end.

(** The [i]-th pending promise settles with outcome [o]: it leaves the
    pending list and its callback runs. *)
Definition settle (i : nat) (o : Outcome) (s : State) : State :=
  match inFlight s !! i with
  | Some jobToStart => onSettled jobToStart o (set_inFlight (delete i) s)
  | None => s
  end.

(** ** The handlers *)

(** [handleAddJobs]; each template comes paired with the value that
    [crypto.randomUUID()] returns for it. *)
Definition formatJob (p : string * JobTemplate.t) : Job :=
  let (uuid, job) := p in
  {| id := uuid; prompt := JobTemplate.prompt job;
     inputType := JobTemplate.inputType job; model := JobTemplate.model job;
     aspectRatio := JobTemplate.aspectRatio job;
     outputs := JobTemplate.outputs job; image := JobTemplate.image job;
     status := Pending; retryCount := 0;
     resultUrl := JobTemplate.resultUrl job;
     resultUrls := JobTemplate.resultUrls job;
     error := JobTemplate.error job |}.

Definition handleAddJobs (newJobs : list (string * JobTemplate.t)) (s : State) : State :=
  set_jobs (λ prevJobs, prevJobs ++ map formatJob newJobs) s.

(** [handleSaveApiKey] of a render that is up to date;
    [handleSaveApiKeyFrom] below is the one of any render. *)
Definition handleSaveApiKey (provider : Provider) (newKey : string) (s : State) : State :=
  if decide (newKey = "") then s
  else set_quota (λ prev, prev ∖ {[ provider ]})
         (set_apiKeys (λ keys, <[ provider := Some newKey ]> keys) s).

Definition handleRetryJob (jobId : string) (s : State) : State :=
  set_jobs (updateJob jobId
    (λ j, spread j Pending 0 (resultUrl j) (resultUrls j) None)) s.

Definition handleCancelJob (jobId : string) (s : State) : State :=
  set_jobs (updateJob jobId (failWith MSG_CANCELLED))
    (set_cancelled (λ c, c ∪ {[ jobId ]}) s).

(** ** Events and reachable states *)

Inductive Event :=
  | Tick (now : Z) (stamp : nat → Z)
  | AddJobs (newJobs : list (string * JobTemplate.t))
  | SaveApiKey (provider : Provider) (newKey : string)
  | RetryJob (jobId : string)
  | CancelJob (jobId : string)
  | Settle (i : nat) (o : Outcome).

Definition handle (e : Event) (s : State) : State :=
  match e with
  | Tick now stamp => processQueue now stamp s
  | AddJobs newJobs => handleAddJobs newJobs s
  | SaveApiKey provider newKey => handleSaveApiKey provider newKey s
  | RetryJob jobId => handleRetryJob jobId s
  | CancelJob jobId => handleCancelJob jobId s
  | Settle i o => settle i o s
  end.

Definition ids (l : list Job) : list string := map id l.

(** What the environment guarantees: [crypto.randomUUID()] never repeats
    an identifier, and only a pending promise can settle.  A tick may come
    at any time: the page runs the interval only while some job is Pending
    and the quota set is empty, so every run of the page is a run here. *)
Definition enabled (e : Event) (s : State) : Prop :=
  match e with
  | AddJobs newJobs => NoDup (ids (jobs s) ++ newJobs.*1)
  | Settle i _ => is_Some (inFlight s !! i)
  | _ => True
  end.

Inductive reachable : State → Prop :=
  | reachable_initial storedKeys : reachable (initial storedKeys)
  | reachable_handle e s :
      reachable s → enabled e s → reachable (handle e s).

(** The events the job list of the page can raise when it shows the jobs
    of [s]: [JobRow] renders the cancel button for a Pending or Processing
    job only, and the retry button for a Failed job whose error is not the
    cancellation message; [JobInputForm] submits templates without result
    fields. *)
Definition offered (e : Event) (s : State) : Prop :=
  match e with
  | AddJobs newJobs =>
      Forall (λ p, JobTemplate.resultUrl p.2 = None
                   ∧ JobTemplate.resultUrls p.2 = None) newJobs
  | RetryJob jobId =>
      Exists (λ j, id j = jobId ∧ status j = Failed
                   ∧ error j ≠ Some MSG_CANCELLED) (jobs s)
  | CancelJob jobId =>
      Exists (λ j, id j = jobId
                   ∧ (status j = Pending ∨ status j = Processing)) (jobs s)
  | _ => True
  end.

(** The states reached when every click acts on a render that is up to
    date. *)
Inductive reachableFromPage : State → Prop :=
  | page_initial storedKeys : reachableFromPage (initial storedKeys)
  | page_handle e s :
      reachableFromPage s → enabled e s → offered e s →
      reachableFromPage (handle e s).

(** Folding a list of events, for concrete scenarios. *)
Definition run (es : list Event) (s : State) : State :=
  foldl (λ s e, handle e s) s es.

(** ** Derived notions used in the statements *)

Definition nProcessing (l : list Job) : nat :=
  length (filter (λ j, status j = Processing) l).

Definition toProcessing (j : Job) : Job :=
  spread j Processing (retryCount j) (resultUrl j) (resultUrls j) (error j).

(** The accumulated effect of the [setJobs] updaters queued by [forEach]. *)
Definition startAll (started : list Job) (js : list Job) : list Job :=
  foldl (λ js d, map (markProcessing d) js) js started.

(** The jobs a tick starts: none while a quota flag is up. *)
Definition startedJobs (now : Z) (s : State) : list Job :=
  if decide (quotaExceededProviders s = ∅) then jobsToStart now s else [].

(** The job update a settled dispatch applies when it is not discarded. *)
Definition settleJob (d : Job) (o : Outcome) : Job → Job :=
  match o with
  | Fulfilled result => completeWith result
  | Rejected error =>
      match isQuotaExceeded error, providerOf d with
      | true, Some _ => failWith (message error)
      | _, _ => retryOrFail (message error)
      end
  end.

Record invariant (s : State) : Prop := {
  inv_ids : NoDup (ids (jobs s));
  inv_timestamps : Z.of_nat (length (jobStartTimestamps s)) ≤ RATE_LIMIT_COUNT;
  inv_processing : Z.of_nat (nProcessing (jobs s)) ≤ MAX_CONCURRENT_JOBS;
  inv_retry : Forall (λ j, 0 ≤ retryCount j ≤ MAX_RETRIES) (jobs s);
  inv_inFlight :
    Forall (λ d, id d ∈ ids (jobs s) ∧ is_Some (providerOf d)) (inFlight s)
}.

(** What holds of the dispatches and of the result fields as long as only
    the events offered by the page occur. *)
Record pageInvariant (s : State) : Prop := {
  page_ids : NoDup (ids (jobs s));
  page_inFlight_ids : NoDup (ids (inFlight s));
  page_inFlight :
    ∀ d, d ∈ inFlight s →
      ∃ j, j ∈ jobs s ∧ id j = id d
        ∧ (status j = Processing
           ∨ (status j = Failed ∧ error j = Some MSG_CANCELLED
              ∧ id j ∈ cancelledJobIds s));
  page_result :
    ∀ j, j ∈ jobs s → status j ≠ Completed →
      resultUrl j = None ∧ resultUrls j = None
}.

(** ** Runs of events and concrete scenarios *)

Fixpoint enabledAll (es : list Event) (s : State) : Prop :=
  match es with
  | [] => True
  | e :: es => enabled e s ∧ enabledAll es (handle e s)
  end.

Fixpoint offeredAll (es : list Event) (s : State) : Prop :=
  match es with
  | [] => True
  | e :: es => offered e s ∧ offeredAll es (handle e s)
  end.

#[global] Instance enabled_dec e s : Decision (enabled e s).
Proof. destruct e; simpl; apply _. Defined.

#[global] Instance offered_dec e s : Decision (offered e s).
Proof. destruct e; simpl; apply _. Defined.

#[global] Instance enabledAll_dec es s : Decision (enabledAll es s).
Proof. revert s. induction es; intros s; simpl; apply _. Defined.

#[global] Instance offeredAll_dec es s : Decision (offeredAll es s).
Proof. revert s. induction es; intros s; simpl; apply _. Defined.

Definition veo (text : string) : JobTemplate.t :=
  {| JobTemplate.prompt := text; JobTemplate.inputType := TextToVideo;
     JobTemplate.model := "veo-2.0-generate-001";
     JobTemplate.aspectRatio := "16:9"; JobTemplate.outputs := 1;
     JobTemplate.image := None; JobTemplate.resultUrl := None;
     JobTemplate.resultUrls := None; JobTemplate.error := None |}.

Definition kling1 (text : string) : JobTemplate.t :=
  {| JobTemplate.prompt := text; JobTemplate.inputType := TextToVideo;
     JobTemplate.model := "kling-1";
     JobTemplate.aspectRatio := "16:9"; JobTemplate.outputs := 1;
     JobTemplate.image := None; JobTemplate.resultUrl := None;
     JobTemplate.resultUrls := None; JobTemplate.error := None |}.

Definition geminiKeys : gmap Provider (option string) :=
  {[ gemini := Some "gemini-key" ]}.

(** [Date.now()] inside a tick that began at [now]. *)
Definition clock (now : Z) : nat → Z := λ i, now + Z.of_nat i.

(** Five jobs submitted at once, then one tick. *)
Definition fiveSubmitted : State :=
  run [ AddJobs [("j1", veo "one"); ("j2", veo "two"); ("j3", veo "three");
                 ("j4", veo "four"); ("j5", veo "five")];
        Tick 1000 (clock 1000) ]
      (initial geminiKeys).

(** One job that failed three times with a provider error and was
    dispatched a fourth time. *)
Definition thriceFailed : State :=
  run [ AddJobs [("j1", veo "one")];
        Tick 1000 (clock 1000); Settle 0 (Rejected (OtherError "503"));
        Tick 2000 (clock 2000); Settle 0 (Rejected (OtherError "503"));
        Tick 3000 (clock 3000); Settle 0 (Rejected (OtherError "503"));
        Tick 4000 (clock 4000) ]
      (initial geminiKeys).

(** Two jobs in flight. *)
Definition twoInFlight : State :=
  run [ AddJobs [("j1", veo "one"); ("j2", veo "two")];
        Tick 1000 (clock 1000) ]
      (initial geminiKeys).

(** A job that completed and was cancelled afterwards. *)
Definition cancelledAfterCompletion : State :=
  run [ AddJobs [("j1", veo "one")];
        Tick 1000 (clock 1000);
        Settle 0 (Fulfilled (VideoResult "blob:video-1"));
        CancelJob "j1" ]
      (initial geminiKeys).

(** Three jobs in flight, then a job whose provider has no key ahead of
    two jobs whose provider has one: a single slot is left. *)
Definition mixedQueue : State :=
  run [ AddJobs [("j1", veo "one"); ("j2", veo "two"); ("j3", veo "three")];
        Tick 1000 (clock 1000);
        AddJobs [("k1", kling1 "k"); ("j4", veo "four"); ("j5", veo "five")] ]
      (initial geminiKeys).

(** One job waiting. *)
Definition oneWaiting : State :=
  handleAddJobs [("j1", veo "one")] (initial geminiKeys).

(** * The rest of the page *)

From stdpp Require pretty.
From stdpp Require functions.

(** ** The interval effect of [App] *)

(** [jobs.some(j => j.status === JobStatus.Pending)] *)
Definition hasPendingJobs (s : State) : bool :=
  bool_decide (Exists (λ j, status j = Pending) (jobs s)).

(** The condition under which the effect installs the one-second interval
    that calls [processQueue]. *)
Definition intervalRuns (s : State) : bool :=
  hasPendingJobs s && bool_decide (size (quotaExceededProviders s) = 0%nat).


(** ** The dispatcher: [services/apiService]

    The calls to the providers (the Gemini SDK, [fetch]) are the
    environment: what one call of a provider function meets on the network
    is an argument of its model.  A poll that never sees [done] gives a
    promise that never settles, which is a dispatch that stays in
    [inFlight]; it needs no value here. *)

(** What the [catch] clauses read of a caught value: [error?.error?.message],
    [error?.message] and [error?.error?.status] (strings when present). *)
Record Caught := {
  errorErrorMessage : option string;
  errorMessage : option string;
  errorErrorStatus : option string
}.

(** A caught [new Error(msg)]. *)
Definition newError (msg : string) : Caught :=
  {| errorErrorMessage := None; errorMessage := Some msg;
     errorErrorStatus := None |}.

(** [a || b] with [a] a possibly missing string and [b] a string. *)
Definition orElse (a : option string) (b : string) : string :=
  match a with
  | Some s => if decide (s = "") then b else s
  | None => b
  end.

(** [haystack.includes(needle)] *)
Fixpoint includes (haystack needle : string) : bool :=
  if String.prefix needle haystack then true
  else match haystack with
       | EmptyString => false
       | String _ rest => includes rest needle
       end.

(** A returned value or a thrown error of an [async] function. *)
Inductive Settled (A : Type) :=
  | Returned (a : A)
  | Threw (e : DispatchError).
Arguments Returned {A} a.
Arguments Threw {A} e.

(** What the [try] block of [generateVideoWithGemini] meets. *)
Inductive GeminiVideoRun :=
  | GeminiVideoThrew (error : Caught)
  | GeminiVideoNoLink
  | GeminiVideoNotOk (statusText : string)
  | GeminiVideoSaved (objectUrl : string).

Definition generateVideoWithGemini (net : GeminiVideoRun) (job : Job)
    (apiKey : string) : Settled string :=
  let body : Caught + string :=
    match net with
    | GeminiVideoThrew error => inl error
    | GeminiVideoNoLink =>
        inl (newError "Không tìm thấy link tải xuống video.")
    | GeminiVideoNotOk statusText =>
        inl (newError ("Không thể tải tệp video: " +:+ statusText))
    | GeminiVideoSaved objectUrl => inr objectUrl
    end in
  match body with
  | inr objectUrl => Returned objectUrl
  | inl error =>
      let errorMessage :=
        orElse (errorErrorMessage error)
          (orElse (errorMessage error) "Lỗi không xác định khi tạo video.") in
      if bool_decide (errorErrorStatus error = Some "RESOURCE_EXHAUSTED")
         || includes errorMessage "Lifetime quota exceeded"
      then Threw (QuotaExceededError "Hạn ngạch API Gemini đã hết.")
      else Threw (OtherError errorMessage)
  end.

Definition generateVideoWithSora (job : Job) (apiKey : string) : Settled string :=
  Threw (OtherError "API của Sora chưa được phát hành công khai.").
Definition generateVideoWithKling (job : Job) (apiKey : string) : Settled string :=
  Threw (OtherError "API của Kling chưa được phát hành công khai.").
Definition generateVideoWithMinimax (job : Job) (apiKey : string) : Settled string :=
  Threw (OtherError "API của Minimax chưa được phát hành công khai.").
Definition generateVideoWithAzure (job : Job) (apiKey : string) : Settled string :=
  Threw (OtherError "API của Azure Video chưa được phát hành công khai.").

(** What the [try] block of [generateVideoWithDeepAI] meets; [err] is
    [errorData.err] when the error body parsed and had a truthy [err]. *)
Inductive DeepAIRun :=
  | DeepAIThrew (error : Caught)
  | DeepAINotOk (httpStatus : Z) (statusText : string) (err : option string)
  | DeepAINoUrl
  | DeepAIDownloadNotOk (statusText : string)
  | DeepAISaved (objectUrl : string).

Definition generateVideoWithDeepAI (net : DeepAIRun) (job : Job)
    (apiKey : string) : Settled string :=
  if decide (inputType job = ImageToVideo)
  then Threw (OtherError
         "Tạo video từ hình ảnh không được DeepAI hỗ trợ tại thời điểm này.")
  else
    let rethrow (error : Caught) : Settled string :=
      Threw (OtherError
        (orElse (errorMessage error) "Lỗi không xác định khi gọi DeepAI API.")) in
    match net with
    | DeepAIThrew error => rethrow error
    | DeepAINotOk httpStatus statusText err =>
        let errorMessage := orElse err ("Lỗi HTTP: " +:+ statusText) in
        if decide (httpStatus = 429)
        then Threw (QuotaExceededError
               "Hạn ngạch API DeepAI đã hết hoặc bạn đang gửi yêu cầu quá nhanh.")
        else rethrow (newError ("Lỗi DeepAI: " +:+ errorMessage))
    | DeepAINoUrl => rethrow (newError "DeepAI API không trả về URL video.")
    | DeepAIDownloadNotOk statusText =>
        rethrow (newError ("Không thể tải tệp video từ DeepAI: " +:+ statusText))
    | DeepAISaved objectUrl => Returned objectUrl
    end.

(** What the [try] block of [generateImagesWithGemini] meets. *)
Inductive GeminiImagesRun :=
  | GeminiImagesThrew (error : Caught)
  | GeminiImagesReturned (imageBytes : list string).

Definition generateImagesWithGemini (net : GeminiImagesRun) (job : Job)
    (apiKey : string) : Settled (list string) :=
  match net with
  | GeminiImagesReturned imageBytes =>
      Returned (map (λ bytes, "data:image/jpeg;base64," +:+ bytes) imageBytes)
  | GeminiImagesThrew error =>
      let errorMessage :=
        orElse (errorErrorMessage error)
          (orElse (errorMessage error) "Lỗi không xác định khi tạo ảnh.") in
      if bool_decide (errorErrorStatus error = Some "RESOURCE_EXHAUSTED")
         || includes errorMessage "quota"
      then Threw (QuotaExceededError "Hạn ngạch API Gemini đã hết.")
      else Threw (OtherError errorMessage)
  end.

Definition generateImagesWithDalle : Settled (list string) :=
  Threw (OtherError "API của DALL-E 3 chưa được tích hợp.").

(** The provider strings of the model tables, and [toUpperCase] on them
    (ASCII letters; the provider strings have no others). *)
Definition providerString (p : Provider) : string :=
  match p with
  | gemini => "gemini" | sora => "sora" | kling => "kling"
  | minimax => "minimax" | deepai => "deepai" | azure => "azure"
  end.

Definition upperAscii (c : Ascii.ascii) : Ascii.ascii :=
  let n := Ascii.nat_of_ascii c in
  if (97 <=? n)%nat && (n <=? 122)%nat then Ascii.ascii_of_nat (n - 32) else c.

Fixpoint toUpperCase (s : string) : string :=
  match s with
  | EmptyString => EmptyString
  | String c rest => String (upperAscii c) (toUpperCase rest)
  end.

(** The network as one call of [processJob] meets it. *)
Record Network := {
  geminiVideo : GeminiVideoRun;
  deepaiVideo : DeepAIRun;
  geminiImages : GeminiImagesRun
}.

Definition missingModel (job : Job) : DispatchError :=
  OtherError ("Không tìm thấy thông tin cho mô hình: " +:+ model job).

Definition missingKey (provider : Provider) : DispatchError :=
  OtherError ("Vui lòng cung cấp khóa API cho "
              +:+ toUpperCase (providerString provider) +:+ ".").

Definition generateVideo (net : Network) (job : Job)
    (apiKeys : gmap Provider (option string)) : Settled string :=
  match List.find (λ m, bool_decide (ModelInfo.id m = model job)) VIDEO_MODELS with
  | None => Threw (missingModel job)
  | Some modelInfo =>
      match apiKeys !! ModelInfo.provider modelInfo with
      | Some (Some apiKey) =>
          if decide (apiKey = "") then Threw (missingKey (ModelInfo.provider modelInfo))
          else
            match ModelInfo.provider modelInfo with
            | gemini => generateVideoWithGemini (geminiVideo net) job apiKey
            | sora => generateVideoWithSora job apiKey
            | kling => generateVideoWithKling job apiKey
            | minimax => generateVideoWithMinimax job apiKey
            | deepai => generateVideoWithDeepAI (deepaiVideo net) job apiKey
            | azure => generateVideoWithAzure job apiKey
            end
      | _ => Threw (missingKey (ModelInfo.provider modelInfo))
      end
  end.

Definition generateImages (net : Network) (job : Job)
    (apiKeys : gmap Provider (option string)) : Settled (list string) :=
  match List.find (λ m, bool_decide (ModelInfo.id m = model job)) IMAGE_MODELS with
  | None => Threw (missingModel job)
  | Some modelInfo =>
      match apiKeys !! ModelInfo.provider modelInfo with
      | Some (Some apiKey) =>
          if decide (apiKey = "") then Threw (missingKey (ModelInfo.provider modelInfo))
          else if decide (ModelInfo.id modelInfo = "imagen-4.0-generate-001")
          then generateImagesWithGemini (geminiImages net) job apiKey
          else if decide (ModelInfo.id modelInfo = "dalle-3")
          then generateImagesWithDalle
          else if decide (ModelInfo.provider modelInfo = gemini)
          then generateImagesWithGemini (geminiImages net) job apiKey
          else Threw (OtherError ("Mô hình ảnh không được hỗ trợ: " +:+ model job))
      | _ => Threw (missingKey (ModelInfo.provider modelInfo))
      end
  end.

Definition processJob (net : Network) (job : Job)
    (apiKeys : gmap Provider (option string)) : Outcome :=
  if decide (inputType job = TextToImage)
  then match generateImages net job apiKeys with
       | Returned urls => Fulfilled (ImagesResult urls)
       | Threw e => Rejected e
       end
  else match generateVideo net job apiKeys with
       | Returned url => Fulfilled (VideoResult url)
       | Threw e => Rejected e
       end.

(** A settlement whose outcome is one [processJob] can give for the
    dispatched job. *)
Definition served (e : Event) (s : State) : Prop :=
  match e with
  | Settle i o =>
      ∃ d net apiKeys, inFlight s !! i = Some d ∧ o = processJob net d apiKeys
  | _ => True
  end.

Inductive reachableWithService : State → Prop :=
  | service_initial storedKeys : reachableWithService (initial storedKeys)
  | service_handle e s :
      reachableWithService s → enabled e s → served e s →
      reachableWithService (handle e s).

(** A job a provider function can serve: a Gemini model, or the DeepAI
    video model for a text prompt. *)
Definition servable (job : Job) : Prop :=
  providerOf job = Some gemini
  ∨ (providerOf job = Some deepai ∧ inputType job = TextToVideo).

(** What the dispatches and the Completed jobs keep true when every
    settlement is an outcome of [processJob]. *)
Record serviceInvariant (s : State) : Prop := {
  service_snapshot :
    ∀ d j, d ∈ inFlight s → j ∈ jobs s → id j = id d →
      model j = model d ∧ inputType j = inputType d;
  service_completed :
    ∀ j, j ∈ jobs s → status j = Completed →
      servable j
      ∧ (inputType j = TextToImage → resultUrls j ≠ None)
      ∧ (inputType j ≠ TextToImage → resultUrl j ≠ None)
}.

(** A text-to-video template for the DeepAI model. *)
Definition deepaiText (text : string) : JobTemplate.t :=
  {| JobTemplate.prompt := text; JobTemplate.inputType := TextToVideo;
     JobTemplate.model := "deepai-video";
     JobTemplate.aspectRatio := "16:9"; JobTemplate.outputs := 1;
     JobTemplate.image := None; JobTemplate.resultUrl := None;
     JobTemplate.resultUrls := None; JobTemplate.error := None |}.

(** A network on which DeepAI answers 429 and Gemini stores a video. *)
Definition busyNetwork : Network :=
  {| geminiVideo := GeminiVideoSaved "blob:video-1";
     deepaiVideo := DeepAINotOk 429 "Too Many Requests" None;
     geminiImages := GeminiImagesReturned ["AAAA"] |}.

(** ** Values [App] derives for its children *)

(** [Object.values(apiKeys).some(key => !!key)] *)
Definition hasAnyKey (apiKeys : gmap Provider (option string)) : bool :=
  bool_decide (Exists (λ entry, truthy (Some entry.2) = true)
                      (map_to_list apiKeys)).

(** [Object.entries(apiKeys).filter(([, key]) => !!key).map(([provider]) => provider)];
    the array is only tested for membership and for being empty. *)
Definition availableProviders (apiKeys : gmap Provider (option string))
    : list Provider :=
  (filter (λ entry, truthy (Some entry.2) = true) (map_to_list apiKeys)).*1.

(** ** [JobInputForm]: the models it offers and its default template *)

Definition ASPECT_RATIOS : list string := ["1:1"; "16:9"; "9:16"; "4:3"; "3:4"].

Definition getAvailableModels (availableProviders : list Provider)
    (inputType : InputType) : list ModelInfo.t :=
  if decide (length availableProviders = 0%nat) then []
  else filter (λ model, ModelInfo.provider model ∈ availableProviders)
              (modelListOf inputType).

(** [availableModels.length > 0 ? availableModels[0].id : ''] *)
Definition firstModelId (availableModels : list ModelInfo.t) : string :=
  match availableModels with
  | m :: _ => ModelInfo.id m
  | [] => ""
  end.

Definition createDefaultJob (availableProviders : list Provider) : JobTemplate.t :=
  {| JobTemplate.prompt := "";
     JobTemplate.inputType := TextToVideo;
     JobTemplate.model :=
       firstModelId (getAvailableModels availableProviders TextToVideo);
     JobTemplate.aspectRatio := default "" (ASPECT_RATIOS !! 1%nat);
     JobTemplate.outputs := 1;
     JobTemplate.image := None; JobTemplate.resultUrl := None;
     JobTemplate.resultUrls := None; JobTemplate.error := None |}.

(** ** Downloads: [handleDownloadAll] of [App], [handleDownload] of [JobRow] *)

(** One click on a temporary anchor: its [href], its [download] name, and
    the delay of the timer that makes it ([None]: made at once). *)
Record Download := {
  href : string;
  download : string;
  after : option Z
}.

(** [job.id.substring(0, 8)] *)
Definition idPrefix (job : Job) : string := String.substring 0 8 (id job).

Definition imageDownloads (gap : Z) (job : Job) (urls : list string)
    : list Download :=
  imap (λ index url,
          {| href := url;
             download := "image_" +:+ idPrefix job +:+ "_"
                         +:+ pretty.pretty (index + 1)%nat +:+ ".jpeg";
             after := Some (Z.of_nat index * gap) |}) urls.

(** [if (job.resultUrl) { ... } else if (job.resultUrls) { ... }] *)
Definition downloadJob (gap : Z) (job : Job) : list Download :=
  match resultUrl job with
  | Some url =>
      if decide (url = "")
      then match resultUrls job with
           | Some urls => imageDownloads gap job urls
           | None => []
           end
      else [ {| href := url;
                download := "video_" +:+ idPrefix job +:+ ".mp4";
                after := None |} ]
  | None =>
      match resultUrls job with
      | Some urls => imageDownloads gap job urls
      | None => []
      end
  end.

Definition handleDownloadAll (s : State) : list Download :=
  flat_map (downloadJob 300) (filter (λ j, status j = Completed) (jobs s)).

Definition handleDownload (job : Job) : list Download := downloadJob 200 job.

(** ** [ApiKeysManager]: the masked key it shows

    Text is held as UTF-8 in [string]; [length] and [substring] of
    JavaScript count UTF-16 code units.  [codeUnits] gives the code units
    of a text: one for a character encoded on one, two or three bytes, a
    surrogate pair for a character encoded on four. *)




(** ** [String.prototype.trim] and [split('\n')] on UTF-8 text *)

Definition utf8 (bytes : list nat) : string :=
  foldr (λ n s, String (Ascii.ascii_of_nat n) s) "" bytes.

(** The code points of WhiteSpace and LineTerminator: U+0009 to U+000D,
    U+0020, U+00A0, U+1680, U+2000 to U+200A, U+2028, U+2029, U+202F,
    U+205F, U+3000 and U+FEFF. *)
Definition whiteSpace : list string :=
  utf8 <$> [ [9]; [10]; [11]; [12]; [13]; [32]; [194; 160]; [225; 154; 128];
             [226; 128; 128]; [226; 128; 129]; [226; 128; 130];
             [226; 128; 131]; [226; 128; 132]; [226; 128; 133];
             [226; 128; 134]; [226; 128; 135]; [226; 128; 136];
             [226; 128; 137]; [226; 128; 138]; [226; 128; 168];
             [226; 128; 169]; [226; 128; 175]; [226; 129; 159];
             [227; 128; 128]; [239; 187; 191] ]%nat.

Fixpoint stripLeading (spaces : list string) (fuel : nat) (s : string) : string :=
  match fuel with
  | O => s
  | S fuel =>
      match List.find (λ w, String.prefix w s) spaces with
      | Some w =>
          stripLeading spaces fuel
            (String.substring (String.length w)
               (String.length s - String.length w) s)
      | None => s
      end
  end.

Definition trim (s : string) : string :=
  let s1 := stripLeading whiteSpace (String.length s) s in
  String.rev (stripLeading (String.rev <$> whiteSpace) (String.length s1)
                           (String.rev s1)).

(** [s.split('\n')] *)
Fixpoint splitLines (s : string) : list string :=
  match s with
  | EmptyString => [""]
  | String c rest =>
      if decide (c = Ascii.ascii_of_nat 10) then "" :: splitLines rest
      else match splitLines rest with
           | line :: lines => String c line :: lines
           | [] => [String c ""]
           end
  end.

(** ** [JobInputForm]: its state and handlers

    A template is a JavaScript object that several arrays can hold:
    [handleTemplateChange] copies the array but writes into the object, and
    the [FileReader] callback of [handleFileChange] writes, later, through
    the array of the render that created it.  So the templates live in a
    store of objects and the state holds references. *)

Record Form := {
  isDisabled : bool;
  providers : list Provider;
  objects : gmap nat JobTemplate.t;
  jobTemplates : list nat;
  bulkPrompts : string
}.

(** The values of an array of references. *)
Definition deref (f : Form) (refs : list nat) : list JobTemplate.t :=
  omap (λ r, objects f !! r) refs.

(** A new object: the reference and the store that holds it. *)
Definition allocate (t : JobTemplate.t) (store : gmap nat JobTemplate.t)
    : nat * gmap nat JobTemplate.t :=
  let r := fresh (dom store) in (r, <[ r := t ]> store).

(** The [field] and [value] arguments [handleTemplateChange] is called
    with ([outputs] takes what [parseInt] returned when that is a number). *)
Inductive Change :=
  | ChangePrompt (value : string)
  | ChangeInputType (value : InputType)
  | ChangeModel (value : string)
  | ChangeAspectRatio (value : string)
  | ChangeOutputs (value : Z)
  | ChangeImage (value : Image).

Definition withModel (m : string) (t : JobTemplate.t) : JobTemplate.t :=
  {| JobTemplate.prompt := JobTemplate.prompt t;
     JobTemplate.inputType := JobTemplate.inputType t;
     JobTemplate.model := m;
     JobTemplate.aspectRatio := JobTemplate.aspectRatio t;
     JobTemplate.outputs := JobTemplate.outputs t;
     JobTemplate.image := JobTemplate.image t;
     JobTemplate.resultUrl := JobTemplate.resultUrl t;
     JobTemplate.resultUrls := JobTemplate.resultUrls t;
     JobTemplate.error := JobTemplate.error t |}.

Definition withPrompt (p : string) (t : JobTemplate.t) : JobTemplate.t :=
  {| JobTemplate.prompt := p;
     JobTemplate.inputType := JobTemplate.inputType t;
     JobTemplate.model := JobTemplate.model t;
     JobTemplate.aspectRatio := JobTemplate.aspectRatio t;
     JobTemplate.outputs := JobTemplate.outputs t;
     JobTemplate.image := JobTemplate.image t;
     JobTemplate.resultUrl := JobTemplate.resultUrl t;
     JobTemplate.resultUrls := JobTemplate.resultUrls t;
     JobTemplate.error := JobTemplate.error t |}.

(** [newTemplates[index][field] = value], and for [inputType] the model
    is set to the first model offered for the new type. *)
Definition assign (available : list Provider) (c : Change) (t : JobTemplate.t)
    : JobTemplate.t :=
  match c with
  | ChangePrompt value => withPrompt value t
  | ChangeInputType value =>
      withModel (firstModelId (getAvailableModels available value))
        {| JobTemplate.prompt := JobTemplate.prompt t;
           JobTemplate.inputType := value;
           JobTemplate.model := JobTemplate.model t;
           JobTemplate.aspectRatio := JobTemplate.aspectRatio t;
           JobTemplate.outputs := JobTemplate.outputs t;
           JobTemplate.image := JobTemplate.image t;
           JobTemplate.resultUrl := JobTemplate.resultUrl t;
           JobTemplate.resultUrls := JobTemplate.resultUrls t;
           JobTemplate.error := JobTemplate.error t |}
  | ChangeModel value => withModel value t
  | ChangeAspectRatio value =>
      {| JobTemplate.prompt := JobTemplate.prompt t;
         JobTemplate.inputType := JobTemplate.inputType t;
         JobTemplate.model := JobTemplate.model t;
         JobTemplate.aspectRatio := value;
         JobTemplate.outputs := JobTemplate.outputs t;
         JobTemplate.image := JobTemplate.image t;
         JobTemplate.resultUrl := JobTemplate.resultUrl t;
         JobTemplate.resultUrls := JobTemplate.resultUrls t;
         JobTemplate.error := JobTemplate.error t |}
  | ChangeOutputs value =>
      {| JobTemplate.prompt := JobTemplate.prompt t;
         JobTemplate.inputType := JobTemplate.inputType t;
         JobTemplate.model := JobTemplate.model t;
         JobTemplate.aspectRatio := JobTemplate.aspectRatio t;
         JobTemplate.outputs := value;
         JobTemplate.image := JobTemplate.image t;
         JobTemplate.resultUrl := JobTemplate.resultUrl t;
         JobTemplate.resultUrls := JobTemplate.resultUrls t;
         JobTemplate.error := JobTemplate.error t |}
  | ChangeImage value =>
      {| JobTemplate.prompt := JobTemplate.prompt t;
         JobTemplate.inputType := JobTemplate.inputType t;
         JobTemplate.model := JobTemplate.model t;
         JobTemplate.aspectRatio := JobTemplate.aspectRatio t;
         JobTemplate.outputs := JobTemplate.outputs t;
         JobTemplate.image := Some value;
         JobTemplate.resultUrl := JobTemplate.resultUrl t;
         JobTemplate.resultUrls := JobTemplate.resultUrls t;
         JobTemplate.error := JobTemplate.error t |}
  end.

(** [handleTemplateChange] of the render whose array is [captured]; with
    no object at [index] the assignment throws and nothing is set. *)
Definition handleTemplateChange (captured : list nat) (index : nat) (c : Change)
    (f : Form) : Form :=
  match captured !! index with
  | Some r =>
      {| isDisabled := isDisabled f; providers := providers f;
         objects := alter (assign (providers f) c) r (objects f);
         jobTemplates := captured; bulkPrompts := bulkPrompts f |}
  | None => f
  end.

Definition addJobTemplate (f : Form) : Form :=
  if isDisabled f then f
  else
    let (r, store) := allocate (createDefaultJob (providers f)) (objects f) in
    {| isDisabled := isDisabled f; providers := providers f;
       objects := store; jobTemplates := jobTemplates f ++ [r];
       bulkPrompts := bulkPrompts f |}.

Definition removeJobTemplate (index : nat) (f : Form) : Form :=
  if decide (1 < length (jobTemplates f))%nat
  then {| isDisabled := isDisabled f; providers := providers f;
          objects := objects f; jobTemplates := delete index (jobTemplates f);
          bulkPrompts := bulkPrompts f |}
  else f.

(** [setBulkPrompts(e.target.value)] *)
Definition setBulkPrompts (value : string) (f : Form) : Form :=
  {| isDisabled := isDisabled f; providers := providers f;
     objects := objects f; jobTemplates := jobTemplates f;
     bulkPrompts := value |}.

(** What the effect returns for one template: the object itself when its
    model is still offered, otherwise a copy with another model. *)
Definition normalise (available : list Provider) (t : JobTemplate.t)
    : option JobTemplate.t :=
  if decide (length available = 0%nat) then Some (withModel "" t)
  else
    let availableModels := getAvailableModels available (JobTemplate.inputType t) in
    if bool_decide (Exists (λ m, ModelInfo.id m = JobTemplate.model t) availableModels)
    then None
    else Some (withModel (firstModelId availableModels) t).

(** [prev.map(...)] of the effect, allocating the copies. *)
Fixpoint normaliseAll (available : list Provider) (refs : list nat)
    (store : gmap nat JobTemplate.t) : list nat * gmap nat JobTemplate.t :=
  match refs with
  | [] => ([], store)
  | r :: rest =>
      match store !! r with
      | Some t =>
          match normalise available t with
          | Some copy =>
              let (r', store1) := allocate copy store in
              let (rest', store2) := normaliseAll available rest store1 in
              (r' :: rest', store2)
          | None =>
              let (rest', store2) := normaliseAll available rest store in
              (r :: rest', store2)
          end
      | None =>
          let (rest', store2) := normaliseAll available rest store in
          (r :: rest', store2)
      end
  end.

(** A render with new props, followed by the effect on
    [availableProviders]. *)
Definition rerender (disabled : bool) (available : list Provider) (f : Form)
    : Form :=
  let (refs, store) := normaliseAll available (jobTemplates f) (objects f) in
  {| isDisabled := disabled; providers := available;
     objects := store; jobTemplates := refs; bulkPrompts := bulkPrompts f |}.

(** The templates [handleSubmit] collects. *)
Definition jobsToAdd (f : Form) : list JobTemplate.t :=
  let templates := deref f (jobTemplates f) in
  let kept :=
    filter (λ t, trim (JobTemplate.prompt t) ≠ "" ∧ JobTemplate.model t ≠ "")
           templates in
  if decide (trim (bulkPrompts f) = "") then kept
  else
    let prompts := filter (λ p, trim p ≠ "") (splitLines (trim (bulkPrompts f))) in
    let firstTemplate :=
      default (createDefaultJob (providers f)) (head templates) in
    if decide (JobTemplate.model firstTemplate = "") then kept
    else kept ++ map (λ p, withPrompt (trim p) firstTemplate) prompts.

(** [handleSubmit]: what it passes to [onAddJobs], if it calls it, and the
    next state. *)
Definition handleSubmit (f : Form) : option (list JobTemplate.t) * Form :=
  if isDisabled f then (None, f)
  else if decide (0 < length (jobsToAdd f))%nat
  then
    let (r, store) := allocate (createDefaultJob (providers f)) (objects f) in
    (Some (jobsToAdd f),
     {| isDisabled := isDisabled f; providers := providers f;
        objects := store; jobTemplates := [r]; bulkPrompts := "" |})
  else (None, f).

(** [useState([createDefaultJob()])] and [useState('')]. *)
Definition initialForm (disabled : bool) (available : list Provider) : Form :=
  let (r, store) := allocate (createDefaultJob available) ∅ in
  {| isDisabled := disabled; providers := available;
     objects := store; jobTemplates := [r]; bulkPrompts := "" |}.

Inductive FormEvent :=
  | Edit (index : nat) (c : Change)
  | FileLoaded (captured : list nat) (index : nat) (image : Image)
  | AddTemplate
  | RemoveTemplate (index : nat)
  | BulkInput (value : string)
  | Rerender (disabled : bool) (available : list Provider)
  | Submit.

Definition formHandle (e : FormEvent) (f : Form) : Form :=
  match e with
  | Edit index c => handleTemplateChange (jobTemplates f) index c f
  | FileLoaded captured index image =>
      handleTemplateChange captured index (ChangeImage image) f
  | AddTemplate => addJobTemplate f
  | RemoveTemplate index => removeJobTemplate index f
  | BulkInput value => setBulkPrompts value f
  | Rerender disabled available => rerender disabled available f
  | Submit => (handleSubmit f).2
  end.

(** The states of the form, with the arrays its renders have had: a
    [FileReader] callback holds one of those. *)
Inductive formReachable : list (list nat) → Form → Prop :=
  | form_initial disabled available :
      formReachable [jobTemplates (initialForm disabled available)]
                    (initialForm disabled available)
  | form_handle past f e :
      formReachable past f →
      (∀ captured index image,
         e = FileLoaded captured index image → captured ∈ past) →
      formReachable (jobTemplates (formHandle e f) :: past) (formHandle e f).

(** A template as the form makes it: no result fields and no error. *)
Definition plain (t : JobTemplate.t) : Prop :=
  JobTemplate.resultUrl t = None ∧ JobTemplate.resultUrls t = None
  ∧ JobTemplate.error t = None.

Record formInvariant (past : list (list nat)) (f : Form) : Prop := {
  form_current : jobTemplates f ∈ past;
  form_nonempty : Forall (λ refs, refs ≠ []) past;
  form_allocated : Forall (Forall (λ r, r ∈ dom (objects f))) past;
  form_plain : map_Forall (λ _ t, plain t) (objects f)
}.

(** What the callback of the effect's [map] returns for a template. *)
Definition normalised (available : list Provider) (t : JobTemplate.t)
    : JobTemplate.t :=
  default t (normalise available t).

(** A model the effect leaves in a template: one of those offered for the
    input type, or none when nothing is offered. *)
Definition modelOffered (available : list Provider) (t : JobTemplate.t) : Prop :=
  let availableModels := getAvailableModels available (JobTemplate.inputType t) in
  Exists (λ m, ModelInfo.id m = JobTemplate.model t) availableModels
  ∨ (availableModels = [] ∧ JobTemplate.model t = "").

(** A form in use: a second template is added and written, a file is
    chosen for the first one, the key set changes, and the file arrives. *)
Definition formEvents : list FormEvent :=
  [ Edit 0 (ChangePrompt "a fox in the snow");
    AddTemplate;
    Edit 1 (ChangeInputType TextToImage);
    Edit 1 (ChangePrompt "  a lighthouse  ");
    BulkInput (" first line" +:+ String (Ascii.ascii_of_nat 10) ""
               +:+ "   " +:+ String (Ascii.ascii_of_nat 10) ""
               +:+ "second line ");
    Rerender false [deepai];
    FileLoaded [0; 1]%nat 0 {| base64 := "AAAA"; mimeType := "image/png";
                            name := "fox.png" |} ].

Definition formRun (es : list FormEvent) (f : Form) : Form :=
  foldl (λ f e, formHandle e f) f es.

(** A [FileReader] callback can only hold the array of an earlier render. *)
Definition capturedIn (past : list (list nat)) (e : FormEvent) : Prop :=
  match e with
  | FileLoaded captured _ _ => captured ∈ past
  | _ => True
  end.

#[global] Instance capturedIn_dec past e : Decision (capturedIn past e).
Proof. destruct e; simpl; apply _. Defined.

(** Folding a list of form events, with the arrays of the renders. *)
Fixpoint formSteps (es : list FormEvent) (past : list (list nat)) (f : Form)
    : option (list (list nat) * Form) :=
  match es with
  | [] => Some (past, f)
  | e :: es =>
      if decide (capturedIn past e)
      then formSteps es (jobTemplates (formHandle e f) :: past) (formHandle e f)
      else None
  end.

(** ** [ApiKeysManager]: its state and handlers *)

Record Manager := {
  activeTab : Provider;
  apiKeysInput : Provider → string;
  isEditing : Provider → bool;
  isKeyVisible : gmap Provider bool
}.

(** [!savedKeys.gemini], ..., [!savedKeys.azure] *)
Definition editingFor (savedKeys : gmap Provider (option string))
    : Provider → bool :=
  λ p, negb (truthy (savedKeys !! p)).

Definition initialManager (savedKeys : gmap Provider (option string)) : Manager :=
  {| activeTab := gemini; apiKeysInput := λ _, "";
     isEditing := editingFor savedKeys; isKeyVisible := ∅ |}.

(** The effect on [savedKeys]. *)
Definition syncEditing (savedKeys : gmap Provider (option string)) (m : Manager)
    : Manager :=
  {| activeTab := activeTab m; apiKeysInput := apiKeysInput m;
     isEditing := editingFor savedKeys; isKeyVisible := isKeyVisible m |}.

(** The [onChange] of the input. *)
Definition handleInput (provider : Provider) (value : string) (m : Manager)
    : Manager :=
  {| activeTab := activeTab m;
     apiKeysInput := <[ provider := value ]> (apiKeysInput m);
     isEditing := isEditing m; isKeyVisible := isKeyVisible m |}.

(** [handleSave]: what it passes to [onSave], if it calls it, and the next
    state. *)
Definition handleSave (provider : Provider) (m : Manager)
    : option (Provider * string) * Manager :=
  let keyToSave := trim (apiKeysInput m provider) in
  if decide (keyToSave = "") then (None, m)
  else (Some (provider, keyToSave),
        {| activeTab := activeTab m;
           apiKeysInput := <[ provider := "" ]> (apiKeysInput m);
           isEditing := <[ provider := false ]> (isEditing m);
           isKeyVisible := isKeyVisible m |}).

Definition handleEdit (provider : Provider) (m : Manager) : Manager :=
  {| activeTab := activeTab m; apiKeysInput := apiKeysInput m;
     isEditing := <[ provider := true ]> (isEditing m);
     isKeyVisible := isKeyVisible m |}.

Definition handleCancel (provider : Provider) (m : Manager) : Manager :=
  {| activeTab := activeTab m;
     apiKeysInput := <[ provider := "" ]> (apiKeysInput m);
     isEditing := <[ provider := false ]> (isEditing m);
     isKeyVisible := isKeyVisible m |}.

(** The save button: [handleSave] with [handleSaveApiKey] as [onSave], and
    the effect that follows the new [savedKeys]. *)
Definition saveButton (provider : Provider) (ms : Manager * State)
    : Manager * State :=
  match handleSave provider ms.1 with
  | (Some (p, key), m') =>
      let s' := handleSaveApiKey p key ms.2 in
      (if decide (key = "") then m' else syncEditing (apiKeys s') m', s')
  | (None, m') => (m', ms.2)
  end.

(** Which of the two views [renderTabContent] returns. *)
Definition showsSavedKey (provider : Provider) (m : Manager) (s : State) : bool :=
  negb (isEditing m provider) && truthy (apiKeys s !! provider).

(** * Renders

    [processQueue], [handleSaveApiKey] and the buttons of [JobRow] belong
    to a render: they read the [jobs], [apiKeys] and
    [quotaExceededProviders] that render was given.  The updater functions
    passed to [setJobs] and [setQuotaExceededProviders], and the two refs,
    act on the latest values.  React commits a render some time after an
    update was queued, and runs the effects of that render (here the one
    that installs the interval with its [processQueue]) after the commit.
    A [Page] keeps the three apart; the transitions on [State] above are
    those of a page whose renders keep up with every update. *)

Record Page := {
  (** the render whose effect has run: its [processQueue] is the one the
      interval calls *)
  scheduled : State;
  (** the render last committed: its buttons and handlers are on screen *)
  rendered : State;
  (** the state cells with every queued update applied, and the refs *)
  current : State
}.

(** A page whose renders have kept up. *)
Definition synced (s : State) : Page :=
  {| scheduled := s; rendered := s; current := s |}.

(** [slotsToProcess] of the [processQueue] of render [view]: the job list
    is the render's, the timestamps are read from the ref. *)
Definition slotsToProcessFrom (view : State) (now : Z) (s : State) : Z :=
  Z.min (availableConcurrencySlots view) (availableRateLimitSlots now s).

Definition jobsToStartFrom (view : State) (now : Z) (s : State) : list Job :=
  selectLoop (apiKeys view) (slotsToProcessFrom view now s) (pendingJobs view) [].

(** [processQueue] of render [view], called when the latest values are
    [s]: the quota test, the Processing count, the Pending jobs and the
    keys are the render's; the prune, the pushes and the [setJobs] updaters
    act on [s]. *)
Definition processQueueFrom (view : State) (now : Z) (stamp : nat → Z)
    (s : State) : State :=
  if decide (0 < size (quotaExceededProviders view))%nat then s
  else
    let s1 := set_timestamps (λ _, prune now (jobStartTimestamps s)) s in
    if decide (slotsToProcessFrom view now s ≤ 0) then s1
    else
      if decide (length (jobsToStartFrom view now s) = 0%nat) then s1
      else forEachStart stamp 0 (jobsToStartFrom view now s) s1.

(** [handleSaveApiKey] of render [view]: [{ ...apiKeys, [provider]: newKey }]
    spreads the render's keys and is passed to [setApiKeys] as a value; the
    quota set is changed by an updater. *)
Definition handleSaveApiKeyFrom (view : State) (provider : Provider)
    (newKey : string) (s : State) : State :=
  if decide (newKey = "") then s
  else set_quota (λ prev, prev ∖ {[ provider ]})
         (set_apiKeys (λ _, <[ provider := Some newKey ]> (apiKeys view)) s).

Inductive PageEvent :=
  | Raise (e : Event)
  | Commit
  | Effects.

Definition pageHandle (pe : PageEvent) (p : Page) : Page :=
  match pe with
  | Raise e =>
      {| scheduled := scheduled p; rendered := rendered p;
         current :=
           match e with
           | Tick now stamp =>
               processQueueFrom (scheduled p) now stamp (current p)
           | SaveApiKey provider newKey =>
               handleSaveApiKeyFrom (rendered p) provider newKey (current p)
           | _ => handle e (current p)
           end |}
  | Commit =>
      {| scheduled := scheduled p; rendered := current p;
         current := current p |}
  | Effects =>
      {| scheduled := rendered p; rendered := rendered p;
         current := current p |}
  end.

(** What can happen on a page: the environment is as before (fresh
    identifiers, only a pending promise settles), and a button can be
    clicked when the committed render shows it.  A tick may come at any
    time; the interval exists only while [intervalRuns (scheduled p)]. *)
Definition pageAllowed (pe : PageEvent) (p : Page) : Prop :=
  match pe with
  | Raise e => enabled e (current p) ∧ offered e (rendered p)
  | _ => True
  end.

#[global] Instance pageAllowed_dec pe p : Decision (pageAllowed pe p).
Proof. destruct pe; simpl; apply _. Defined.

(** The pages that can arise, with the values [current] has had, latest
    first. *)
Inductive pageReachable : list State → Page → Prop :=
  | pageReachable_initial storedKeys :
      pageReachable [initial storedKeys] (synced (initial storedKeys))
  | pageReachable_handle past p pe :
      pageReachable past p → pageAllowed pe p →
      pageReachable (current (pageHandle pe p) :: past) (pageHandle pe p).

Definition pageRun (es : list PageEvent) (p : Page) : Page :=
  foldl (λ p pe, pageHandle pe p) p es.

(** Folding a list of page events, with the earlier values of [current];
    [None] when an event is not allowed where it occurs. *)
Fixpoint pageSteps (es : list PageEvent) (past : list State) (p : Page)
    : option (list State * Page) :=
  match es with
  | [] => Some (past, p)
  | pe :: es =>
      if decide (pageAllowed pe p)
      then pageSteps es (current (pageHandle pe p) :: past) (pageHandle pe p)
      else None
  end.

(** The jobs a tick of render [view] starts. *)
Definition startedJobsFrom (view : State) (now : Z) (s : State) : list Job :=
  if decide (quotaExceededProviders view = ∅) then jobsToStartFrom view now s
  else [].


Definition savesKey (pe : PageEvent) : Prop :=
  match pe with
  | Raise (SaveApiKey _ _) => True
  | _ => False
  end.

#[global] Instance savesKey_dec pe : Decision (savesKey pe).
Proof. destruct pe as [[]| |]; simpl; apply _. Defined.

Definition hasResult (j : Job) : Prop :=
  resultUrl j ≠ None ∨ resultUrls j ≠ None.



(** A job is dispatched and rendered as Processing; its dispatch is
    fulfilled, and the cancel button of that render is clicked before the
    next one. *)
Definition lateCancel : list PageEvent :=
  [ Raise (AddJobs [("j1", veo "one")]); Commit; Effects;
    Raise (Tick 1000 (clock 1000)); Commit; Effects;
    Raise (Settle 0 (Fulfilled (VideoResult "blob:video-1")));
    Raise (CancelJob "j1"); Commit; Effects ].

(** * Properties *)

(** ** Field updates leave identifiers alone *)

Lemma id_spread j st rc u us e : id (spread j st rc u us e) = id j.
Proof. reflexivity. Qed.

Lemma id_completeWith r j : id (completeWith r j) = id j.
Proof. by destruct r. Qed.

Lemma id_retryOrFail msg j : id (retryOrFail msg j) = id j.
Proof. unfold retryOrFail. by case_decide. Qed.

Lemma id_markProcessing d j : id (markProcessing d j) = id j.
Proof. unfold markProcessing. by case_decide. Qed.

Lemma markProcessing_ne d j : id j ≠ id d → markProcessing d j = j.
Proof. intros. unfold markProcessing. by rewrite decide_False. Qed.

Lemma markProcessing_eq d j :
  id j = id d →
  markProcessing d j
  = spread j Processing (retryCount j) (resultUrl j) (resultUrls j) (error j).
Proof. intros. unfold markProcessing. by rewrite decide_True. Qed.

Lemma ids_updateJob jobId f l :
  (∀ j, id (f j) = id j) → ids (updateJob jobId f l) = ids l.
Proof.
  intros Hf. unfold ids, updateJob. rewrite map_map. apply map_ext.
  intros j. by case_decide.
Qed.

Lemma ids_markProcessing d l : ids (map (markProcessing d) l) = ids l.
Proof.
  unfold ids. rewrite map_map. apply map_ext, id_markProcessing.
Qed.

Lemma updateJob_lookup jobId f l k :
  updateJob jobId f l !! k
  = (λ j, if decide (id j = jobId) then f j else j) <$> l !! k.
Proof. unfold updateJob. apply list_lookup_fmap. Qed.

Lemma updateJob_absent jobId f l : jobId ∉ ids l → updateJob jobId f l = l.
Proof.
  unfold ids, updateJob. induction l as [|j l IH]; simpl; [done|].
  intros Hn. apply not_elem_of_cons in Hn as [Hne Hn].
  rewrite decide_False by done. f_equal. by apply IH.
Qed.

Lemma markProcessing_absent d l : id d ∉ ids l → map (markProcessing d) l = l.
Proof. apply (updateJob_absent (id d)). Qed.

Lemma elem_of_ids j l : j ∈ l → id j ∈ ids l.
Proof. intros. unfold ids. by apply list_elem_of_fmap_2. Qed.

(** Under distinct identifiers a job is determined by its identifier. *)
Lemma NoDup_ids_inj l j1 j2 :
  NoDup (ids l) → j1 ∈ l → j2 ∈ l → id j1 = id j2 → j1 = j2.
Proof.
  induction l as [|j l IH]; intros Hnd H1 H2 Heq.
  - by apply elem_of_nil in H1.
  - change (ids (j :: l)) with (id j :: ids l) in Hnd.
    apply NoDup_cons in Hnd as [Hnotin Hnd].
    apply elem_of_cons in H1 as [->|H1]; apply elem_of_cons in H2 as [->|H2];
      try done.
    + exfalso. apply Hnotin. rewrite Heq. by apply (elem_of_ids j2 l).
    + exfalso. apply Hnotin. rewrite <- Heq. by apply (elem_of_ids j1 l).
    + by apply IH.
Qed.

(** ** Counting Processing jobs *)

Lemma nProcessing_cons j l :
  nProcessing (j :: l)
  = ((if decide (status j = Processing) then 1 else 0) + nProcessing l)%nat.
Proof.
  unfold nProcessing. rewrite filter_cons. by case_decide.
Qed.

Lemma nProcessing_app l1 l2 :
  nProcessing (l1 ++ l2) = (nProcessing l1 + nProcessing l2)%nat.
Proof. unfold nProcessing. by rewrite filter_app, length_app. Qed.

Lemma nProcessing_updateJob_le jobId f l :
  (∀ j, status (f j) ≠ Processing) →
  (nProcessing (updateJob jobId f l) ≤ nProcessing l)%nat.
Proof.
  intros Hf. induction l as [|j l IH]; [done|].
  change (updateJob jobId f (j :: l))
    with ((if decide (id j = jobId) then f j else j) :: updateJob jobId f l).
  rewrite !nProcessing_cons.
  destruct (decide (id j = jobId)); [|lia].
  rewrite (decide_False (P := status (f j) = Processing)) by apply Hf.
  case_decide; lia.
Qed.

Lemma nProcessing_markProcessing d l :
  NoDup (ids l) →
  (nProcessing (map (markProcessing d) l) ≤ nProcessing l + 1)%nat.
Proof.
  induction l as [|j l IH]; [cbv; lia|].
  change (ids (j :: l)) with (id j :: ids l).
  intros Hnd. apply NoDup_cons in Hnd as [Hnotin Hnd].
  rewrite map_cons, !nProcessing_cons.
  destruct (decide (id j = id d)) as [Heq|Hne].
  - rewrite markProcessing_absent by (by rewrite <- Heq).
    repeat case_decide; lia.
  - specialize (IH Hnd). rewrite markProcessing_ne by done. lia.
Qed.

(** ** The selection loop is a prefix of the credentialed pending jobs *)

Lemma selectLoop_spec keys n pending acc :
  selectLoop keys n pending acc
  = acc ++ take (Z.to_nat n - length acc)
              (filter (λ j, hasCredential keys j = true) pending).
Proof.
  revert acc. induction pending as [|job rest IH]; intros acc; simpl.
  - by rewrite filter_nil, take_nil, app_nil_r.
  - destruct (hasCredential keys job) eqn:Hc; simpl.
    + rewrite filter_cons_True by done.
      case_bool_decide as Hlt.
      * rewrite IH, length_app. simpl.
        replace (Z.to_nat n - length acc)%nat
          with (S (Z.to_nat n - (length acc + 1)))%nat by lia.
        simpl. by rewrite <- app_assoc.
      * rewrite IH.
        replace (Z.to_nat n - length acc)%nat with 0%nat by lia.
        by rewrite !take_0.
    + rewrite filter_cons_False by (by rewrite Hc). apply IH.
Qed.

Lemma jobsToStart_spec now s :
  jobsToStart now s
  = take (Z.to_nat (slotsToProcess now s))
         (filter (λ j, hasCredential (apiKeys s) j = true) (pendingJobs s)).
Proof.
  unfold jobsToStart. rewrite selectLoop_spec. simpl. by rewrite Nat.sub_0_r.
Qed.

Lemma jobsToStart_length now s :
  Z.of_nat (length (jobsToStart now s)) ≤ Z.max 0 (slotsToProcess now s).
Proof. rewrite jobsToStart_spec, length_take. lia. Qed.

Lemma jobsToStart_sublist now s : jobsToStart now s `sublist_of` jobs s.
Proof.
  rewrite jobsToStart_spec. etrans; [apply sublist_take|].
  etrans; [apply sublist_filter|]. apply sublist_filter.
Qed.

Lemma jobsToStart_elem now s j :
  j ∈ jobsToStart now s →
  j ∈ jobs s ∧ status j = Pending ∧ hasCredential (apiKeys s) j = true.
Proof.
  rewrite jobsToStart_spec. intros Hin.
  apply elem_of_take in Hin as (i & Hi & _).
  apply list_elem_of_lookup_2 in Hi.
  apply list_elem_of_filter in Hi as [Hc Hi].
  apply list_elem_of_filter in Hi as [Hp Hi]. done.
Qed.

(** ** What one tick does *)

Lemma forEachStart_fields stamp i l s :
  jobs (forEachStart stamp i l s) = startAll l (jobs s)
  ∧ jobStartTimestamps (forEachStart stamp i l s)
    = jobStartTimestamps s ++ map stamp (seq i (length l))
  ∧ inFlight (forEachStart stamp i l s) = inFlight s ++ l
  ∧ apiKeys (forEachStart stamp i l s) = apiKeys s
  ∧ quotaExceededProviders (forEachStart stamp i l s) = quotaExceededProviders s
  ∧ cancelledJobIds (forEachStart stamp i l s) = cancelledJobIds s.
Proof.
  revert i s. induction l as [|d l IH]; intros i s; simpl.
  - by rewrite !app_nil_r.
  - destruct (IH (S i) (startJob (stamp i) d s)) as (-> & -> & -> & -> & -> & ->).
    simpl. by rewrite <- !app_assoc.
Qed.

Lemma startAll_lookup l js k :
  startAll l js !! k
  = (λ j, if decide (id j ∈ ids l) then toProcessing j else j) <$> js !! k.
Proof.
  revert js. induction l as [|d l IH]; intros js; simpl.
  - by destruct (js !! k).
  - fold (startAll l (map (markProcessing d) js)).
    rewrite IH, list_lookup_fmap.
    destruct (js !! k) as [j|]; simpl; [|done]. f_equal.
    rewrite id_markProcessing.
    change (ids (d :: l)) with (id d :: ids l).
    destruct (decide (id j = id d)) as [Heq|Hne].
    + rewrite markProcessing_eq by done.
      rewrite (decide_True (P := id j ∈ id d :: ids l))
        by (apply elem_of_cons; by left).
      by case_decide.
    + rewrite markProcessing_ne by done.
      destruct (decide (id j ∈ ids l)) as [Hin|Hnin].
      * rewrite decide_True; [done|]. apply elem_of_cons. by right.
      * rewrite decide_False; [done|].
        intros [?|?]%elem_of_cons; done.
Qed.

Lemma ids_startAll l js : ids (startAll l js) = ids js.
Proof.
  revert js. induction l as [|d l IH]; intros js; simpl; [done|].
  fold (startAll l (map (markProcessing d) js)).
  by rewrite IH, ids_markProcessing.
Qed.

Lemma nProcessing_startAll l js :
  NoDup (ids js) →
  (nProcessing (startAll l js) ≤ nProcessing js + length l)%nat.
Proof.
  revert js. induction l as [|d l IH]; intros js Hnd; simpl; [lia|].
  fold (startAll l (map (markProcessing d) js)).
  etrans; [apply IH; by rewrite ids_markProcessing|].
  pose proof (nProcessing_markProcessing d js Hnd). lia.
Qed.

Lemma quota_halt_iff (q : gset Provider) : (0 < size q)%nat ↔ q ≠ ∅.
Proof.
  split.
  - intros Hs ->. rewrite size_empty in Hs. lia.
  - intros Hne. destruct (decide (size q = 0%nat)) as [Hz|Hz]; [|lia].
    apply size_empty_iff in Hz. by apply leibniz_equiv in Hz.
Qed.

Lemma processQueue_halted now stamp s :
  quotaExceededProviders s ≠ ∅ → processQueue now stamp s = s.
Proof.
  intros Hq. unfold processQueue. rewrite decide_True; [done|].
  by apply quota_halt_iff.
Qed.

Lemma processQueue_running now stamp s :
  quotaExceededProviders s = ∅ →
  processQueue now stamp s
  = forEachStart stamp 0 (jobsToStart now s)
      (set_timestamps (λ _, prune now (jobStartTimestamps s)) s).
Proof.
  intros Hq. unfold processQueue.
  rewrite decide_False by (rewrite Hq, size_empty; lia).
  pose proof (jobsToStart_length now s) as Hlen.
  case_decide as Hslots.
  - destruct (jobsToStart now s); [done|]. simpl in Hlen. lia.
  - case_decide as Hnil; [|done].
    destruct (jobsToStart now s); [done|]. done.
Qed.

Lemma processQueue_fields now stamp s :
  jobs (processQueue now stamp s) = startAll (startedJobs now s) (jobs s)
  ∧ inFlight (processQueue now stamp s) = inFlight s ++ startedJobs now s
  ∧ jobStartTimestamps (processQueue now stamp s)
    = (if decide (quotaExceededProviders s = ∅)
       then prune now (jobStartTimestamps s) else jobStartTimestamps s)
      ++ map stamp (seq 0 (length (startedJobs now s)))
  ∧ apiKeys (processQueue now stamp s) = apiKeys s
  ∧ quotaExceededProviders (processQueue now stamp s) = quotaExceededProviders s
  ∧ cancelledJobIds (processQueue now stamp s) = cancelledJobIds s.
Proof.
  unfold startedJobs. case_decide as Hq.
  - rewrite processQueue_running by done.
    destruct (forEachStart_fields stamp 0 (jobsToStart now s)
      (set_timestamps (λ _, prune now (jobStartTimestamps s)) s))
      as (-> & -> & -> & -> & -> & ->). done.
  - rewrite processQueue_halted by done. simpl. by rewrite !app_nil_r.
Qed.


Lemma startedJobs_length now s :
  Z.of_nat (length (startedJobs now s)) ≤ Z.max 0 (slotsToProcess now s).
Proof.
  unfold startedJobs. case_decide; [apply jobsToStart_length|simpl; lia].
Qed.

Lemma startedJobs_elem now s j :
  j ∈ startedJobs now s →
  j ∈ jobs s ∧ status j = Pending ∧ hasCredential (apiKeys s) j = true.
Proof.
  unfold startedJobs. case_decide; [apply jobsToStart_elem|].
  by intros ?%elem_of_nil.
Qed.

Lemma startAll_map l js :
  startAll l js
  = map (λ j, if decide (id j ∈ ids l) then toProcessing j else j) js.
Proof.
  apply list_eq. intros k. by rewrite startAll_lookup, list_lookup_fmap.
Qed.

(** ** What settling a dispatch does *)

Lemma onSettled_marked d o s :
  id d ∈ cancelledJobIds s →
  onSettled d o s = set_cancelled (λ c, c ∖ {[ id d ]}) s.
Proof.
  intros Hin. destruct o; simpl; unfold onFulfilled, onRejected;
    by rewrite decide_True.
Qed.

Lemma onSettled_unmarked d o s :
  id d ∉ cancelledJobIds s →
  jobs (onSettled d o s) = updateJob (id d) (settleJob d o) (jobs s)
  ∧ cancelledJobIds (onSettled d o s) = cancelledJobIds s
  ∧ inFlight (onSettled d o s) = inFlight s
  ∧ jobStartTimestamps (onSettled d o s) = jobStartTimestamps s
  ∧ apiKeys (onSettled d o s) = apiKeys s.
Proof.
  intros Hnin. destruct o as [r|e]; simpl; unfold onFulfilled, onRejected;
    rewrite decide_False by done; [done|].
  destruct (isQuotaExceeded e), (providerOf d); done.
Qed.

Lemma status_settleJob d o j : status (settleJob d o j) ≠ Processing.
Proof.
  destruct o as [[]|e]; simpl; [done..|].
  destruct (isQuotaExceeded e), (providerOf d); simpl;
    unfold retryOrFail; try case_decide; done.
Qed.

Lemma id_settleJob d o j : id (settleJob d o j) = id j.
Proof.
  destruct o as [r|e]; simpl; [apply id_completeWith|].
  destruct (isQuotaExceeded e), (providerOf d); simpl;
    auto using id_retryOrFail.
Qed.

Lemma retryCount_settleJob d o j :
  0 ≤ retryCount j ≤ MAX_RETRIES → 0 ≤ retryCount (settleJob d o j) ≤ MAX_RETRIES.
Proof.
  intros Hrc. destruct o as [[]|e]; simpl; [done..|].
  destruct (isQuotaExceeded e), (providerOf d); simpl; try done;
    unfold retryOrFail; case_decide; simpl; lia.
Qed.

Lemma settle_fields i o s d :
  inFlight s !! i = Some d →
  inFlight (settle i o s) = delete i (inFlight s)
  ∧ jobStartTimestamps (settle i o s) = jobStartTimestamps s
  ∧ apiKeys (settle i o s) = apiKeys s
  ∧ ids (jobs (settle i o s)) = ids (jobs s)
  ∧ (id d ∈ cancelledJobIds s →
       jobs (settle i o s) = jobs s
       ∧ quotaExceededProviders (settle i o s) = quotaExceededProviders s
       ∧ cancelledJobIds (settle i o s) = cancelledJobIds s ∖ {[ id d ]})
  ∧ (id d ∉ cancelledJobIds s →
       jobs (settle i o s) = updateJob (id d) (settleJob d o) (jobs s)
       ∧ cancelledJobIds (settle i o s) = cancelledJobIds s).
Proof.
  intros Hd. unfold settle. rewrite Hd.
  destruct (decide (id d ∈ cancelledJobIds s)) as [Hin|Hnin].
  - rewrite onSettled_marked by done. done.
  - destruct (onSettled_unmarked d o (set_inFlight (delete i) s) Hnin)
      as (-> & -> & -> & -> & ->). simpl.
    rewrite ids_updateJob by apply id_settleJob. done.
Qed.

(** ** The invariant of the reachable states *)

Lemma invariant_initial storedKeys : invariant (initial storedKeys).
Proof. split; simpl; try done; constructor. Qed.

Lemma hasCredential_provider keys j :
  hasCredential keys j = true → is_Some (providerOf j).
Proof.
  unfold hasCredential, providerOf. destruct (findModel j); [eauto|done].
Qed.

Lemma invariant_processQueue now stamp s :
  invariant s → invariant (processQueue now stamp s).
Proof.
  intros [Hids Hts Hproc Hrc Hfl].
  destruct (processQueue_fields now stamp s) as (Hj & Hf & Ht & _ & _ & _).
  pose proof (startedJobs_length now s) as Hlen.
  assert (Hprune : (length (prune now (jobStartTimestamps s))
                    ≤ length (jobStartTimestamps s))%nat)
    by apply length_filter.
  split.
  - by rewrite Hj, ids_startAll.
  - rewrite Ht, length_app, length_map, length_seq.
    unfold slotsToProcess, availableRateLimitSlots in Hlen.
    unfold startedJobs in *. case_decide; simpl in *; lia.
  - rewrite Hj. pose proof (nProcessing_startAll (startedJobs now s) _ Hids).
    unfold slotsToProcess, availableConcurrencySlots, processingJobs in Hlen.
    fold (nProcessing (jobs s)) in Hlen. lia.
  - rewrite Hj, startAll_map. apply Forall_fmap.
    eapply Forall_impl; [exact Hrc|]. intros j Hj'.
    unfold compose.
    destruct (decide (id j ∈ ids (startedJobs now s))); exact Hj'.
  - rewrite Hf, Hj, ids_startAll. apply Forall_app. split; [done|].
    apply Forall_forall. intros d Hd.
    apply startedJobs_elem in Hd as (Hd & _ & Hc).
    split; [by apply elem_of_ids|by eapply hasCredential_provider].
Qed.

Lemma ids_handleAddJobs newJobs s :
  ids (jobs (handleAddJobs newJobs s)) = ids (jobs s) ++ newJobs.*1.
Proof.
  simpl. unfold ids. rewrite map_app, map_map. f_equal.
  apply map_ext. by intros [].
Qed.

Lemma nProcessing_formatJob newJobs : nProcessing (map formatJob newJobs) = 0%nat.
Proof.
  induction newJobs as [|[uuid t] l IH]; [done|].
  rewrite map_cons, nProcessing_cons, IH. simpl. done.
Qed.

Lemma invariant_handleAddJobs newJobs s :
  NoDup (ids (jobs s) ++ newJobs.*1) → invariant s →
  invariant (handleAddJobs newJobs s).
Proof.
  intros Hfresh [Hids Hts Hproc Hrc Hfl]. split.
  - by rewrite ids_handleAddJobs.
  - done.
  - simpl. rewrite nProcessing_app, nProcessing_formatJob. lia.
  - simpl. apply Forall_app. split; [done|]. apply Forall_fmap.
    apply Forall_forall. intros [uuid t] _. simpl. unfold MAX_RETRIES. lia.
  - rewrite ids_handleAddJobs. simpl. eapply Forall_impl; [exact Hfl|].
    intros d [? ?]. split; [|done]. apply elem_of_app. by left.
Qed.

Lemma invariant_updateJob jobId f s :
  (∀ j, id (f j) = id j) → (∀ j, status (f j) ≠ Processing) →
  (∀ j, 0 ≤ retryCount j ≤ MAX_RETRIES → 0 ≤ retryCount (f j) ≤ MAX_RETRIES) →
  invariant s → invariant (set_jobs (updateJob jobId f) s).
Proof.
  intros Hid Hst Hf [Hids Hts Hproc Hrc Hfl]. split; simpl.
  - by rewrite ids_updateJob.
  - done.
  - pose proof (nProcessing_updateJob_le jobId f (jobs s) Hst). lia.
  - unfold updateJob. apply Forall_fmap. eapply Forall_impl; [exact Hrc|].
    intros j Hj. simpl. case_decide; auto.
  - by rewrite ids_updateJob.
Qed.

Lemma invariant_settle i o s :
  is_Some (inFlight s !! i) → invariant s → invariant (settle i o s).
Proof.
  intros [d Hd] Hinv.
  destruct (settle_fields i o s d Hd) as (Hf & Ht & _ & Hi & Hm & Hu).
  assert (Hfl' : Forall (λ d, id d ∈ ids (jobs s) ∧ is_Some (providerOf d))
                        (delete i (inFlight s))).
  { apply Forall_forall. intros d' Hd'%list_elem_of_delete_inv.
    revert d' Hd'. apply Forall_forall, Hinv. }
  destruct (decide (id d ∈ cancelledJobIds s)) as [Hin|Hnin].
  - destruct (Hm Hin) as (Hj & _ & _). destruct Hinv. split.
    + by rewrite Hi.
    + by rewrite Ht.
    + by rewrite Hj.
    + by rewrite Hj.
    + by rewrite Hf, Hi.
  - destruct (Hu Hnin) as (Hj & _).
    pose proof (invariant_updateJob (id d) (settleJob d o) s
      (id_settleJob d o) (status_settleJob d o) (retryCount_settleJob d o) Hinv)
      as [Hids' _ Hproc' Hrc' _].
    simpl in *. destruct Hinv. split.
    + by rewrite Hi.
    + by rewrite Ht.
    + by rewrite Hj.
    + by rewrite Hj.
    + by rewrite Hf, Hi.
Qed.

Lemma invariant_handle e s : enabled e s → invariant s → invariant (handle e s).
Proof.
  destruct e as [now stamp|newJobs|provider newKey|jobId|jobId|i o]; simpl.
  - intros _. apply invariant_processQueue.
  - apply invariant_handleAddJobs.
  - intros _ Hinv. unfold handleSaveApiKey. case_decide; [done|].
    by destruct Hinv.
  - intros _. unfold handleRetryJob. by apply invariant_updateJob.
  - intros _ Hinv. unfold handleCancelJob.
    apply (invariant_updateJob jobId (failWith MSG_CANCELLED)
             (set_cancelled (λ c, c ∪ {[ jobId ]}) s)); try done.
    by destruct Hinv.
  - apply invariant_settle.
Qed.

Lemma reachable_invariant s : reachable s → invariant s.
Proof.
  induction 1 as [keys|e s _ IH He].
  - apply invariant_initial.
  - by apply invariant_handle.
Qed.

(** ** The quota set only shrinks when a key is saved *)

Lemma quota_onSettled d o s :
  quotaExceededProviders s ⊆ quotaExceededProviders (onSettled d o s).
Proof.
  destruct o as [r|e]; simpl; unfold onFulfilled, onRejected;
    case_decide; simpl; try done.
  destruct (isQuotaExceeded e), (providerOf d); simpl; set_solver.
Qed.

Lemma quota_settle i o s :
  quotaExceededProviders s ⊆ quotaExceededProviders (settle i o s).
Proof.
  unfold settle. destruct (inFlight s !! i) as [d|]; [|done].
  apply (quota_onSettled d o (set_inFlight (delete i) s)).
Qed.

Lemma quota_handle e s :
  (∀ provider newKey, e ≠ SaveApiKey provider newKey) →
  quotaExceededProviders s ⊆ quotaExceededProviders (handle e s).
Proof.
  intros Hne.
  destruct e as [now stamp|newJobs|provider newKey|jobId|jobId|i o]; simpl;
    try done.
  - by destruct (processQueue_fields now stamp s) as (_ & _ & _ & _ & -> & _).
  - by destruct (Hne provider newKey).
  - apply quota_settle.
Qed.


(** ** Jobs a tick passes over *)

Lemma filter_delete_False {A} (P : A → Prop) `{!∀ x, Decision (P x)}
    (l : list A) k x :
  l !! k = Some x → ¬ P x → filter P (delete k l) = filter P l.
Proof.
  intros (l1 & l2 & -> & ->)%list_elem_of_split_length Hn.
  by rewrite delete_middle, !filter_app, filter_cons_False.
Qed.

Lemma hasCredential_absent keys j :
  (∀ provider, providerOf j = Some provider →
     keys !! provider = None ∨ keys !! provider = Some None) →
  hasCredential keys j = false.
Proof.
  unfold hasCredential, providerOf. destruct (findModel j) as [m|]; [|done].
  intros H. by destruct (H (ModelInfo.provider m) eq_refl) as [-> | ->].
Qed.

Lemma slotsToProcess_delete now s k j :
  jobs s !! k = Some j → status j ≠ Processing →
  slotsToProcess now (set_jobs (delete k) s) = slotsToProcess now s.
Proof.
  intros Hk Hst.
  unfold slotsToProcess, availableConcurrencySlots, availableRateLimitSlots,
    processingJobs. simpl.
  by rewrite (filter_delete_False _ _ _ _ Hk).
Qed.

Lemma jobsToStart_delete now s k j :
  jobs s !! k = Some j → status j = Pending →
  hasCredential (apiKeys s) j = false →
  jobsToStart now (set_jobs (delete k) s) = jobsToStart now s.
Proof.
  intros Hk Hst Hc. rewrite !jobsToStart_spec.
  rewrite (slotsToProcess_delete now s k j Hk) by (by rewrite Hst).
  unfold pendingJobs. simpl. rewrite !list_filter_filter.
  rewrite (filter_delete_False _ _ _ _ Hk); [done|].
  rewrite Hc. by intros [? _].
Qed.

Lemma processQueue_lookup now stamp s k j :
  jobs s !! k = Some j →
  jobs (processQueue now stamp s) !! k
  = Some (if decide (id j ∈ ids (startedJobs now s))
          then toProcessing j else j).
Proof.
  intros Hk. destruct (processQueue_fields now stamp s) as (-> & _).
  by rewrite startAll_lookup, Hk.
Qed.

Lemma not_started_id now s j :
  NoDup (ids (jobs s)) → j ∈ jobs s → j ∉ startedJobs now s →
  id j ∉ ids (startedJobs now s).
Proof.
  intros Hnd Hj Hn (j0 & Heq & Hj0)%list_elem_of_fmap_1.
  apply Hn. pose proof (startedJobs_elem now s j0 Hj0) as (Hin & _).
  by rewrite (NoDup_ids_inj (jobs s) j j0 Hnd Hj Hin Heq).
Qed.

(** ** A cancellation mark without a dispatch to consume it *)

Lemma mark_persists e s x :
  x ∈ cancelledJobIds s → x ∉ ids (inFlight s) →
  x ∈ cancelledJobIds (handle e s).
Proof.
  intros Hx Hnf.
  destruct e as [now stamp|newJobs|provider newKey|jobId|jobId|i o]; simpl;
    try done.
  - by destruct (processQueue_fields now stamp s) as (_ & _ & _ & _ & _ & ->).
  - unfold handleSaveApiKey. by case_decide.
  - apply elem_of_union. by left.
  - destruct (inFlight s !! i) as [d|] eqn:Hd; [|unfold settle; by rewrite Hd].
    destruct (settle_fields i o s d Hd) as (_ & _ & _ & _ & Hm & Hu).
    assert (id d ≠ x).
    { intros <-. apply Hnf, elem_of_ids. by eapply list_elem_of_lookup_2. }
    destruct (decide (id d ∈ cancelledJobIds s)) as [Hin|Hnin].
    + destruct (Hm Hin) as (_ & _ & ->). apply elem_of_difference.
      split; [done|]. by intros ->%elem_of_singleton.
    + by destruct (Hu Hnin) as (_ & ->).
Qed.

(** ** Result fields under the events the page offers *)

Lemma elem_of_updateJob j' jobId f l :
  j' ∈ updateJob jobId f l →
  ∃ j, j ∈ l ∧ j' = (if decide (id j = jobId) then f j else j).
Proof.
  unfold updateJob. intros (j & -> & Hj)%list_elem_of_fmap_1. eauto.
Qed.

Lemma updateJob_keeps j jobId f l :
  j ∈ l → id j ≠ jobId → j ∈ updateJob jobId f l.
Proof.
  intros Hj Hne. unfold updateJob. apply list_elem_of_fmap.
  exists j. by rewrite decide_False.
Qed.

Lemma updateJob_hits j jobId f l :
  j ∈ l → id j = jobId → f j ∈ updateJob jobId f l.
Proof.
  intros Hj Heq. unfold updateJob. apply list_elem_of_fmap.
  exists j. by rewrite decide_True.
Qed.

Lemma startedJobs_sublist now s : startedJobs now s `sublist_of` jobs s.
Proof.
  unfold startedJobs. case_decide; [apply jobsToStart_sublist|].
  apply sublist_nil_l.
Qed.

Lemma pageInvariant_initial storedKeys : pageInvariant (initial storedKeys).
Proof.
  split; [apply NoDup_nil_2|apply NoDup_nil_2|..];
    by intros ? ?%elem_of_nil.
Qed.

Lemma pageInvariant_processQueue now stamp s :
  pageInvariant s → pageInvariant (processQueue now stamp s).
Proof.
  intros [Hids Hfids Hfl Hres].
  destruct (processQueue_fields now stamp s) as (Hj & Hf & _ & _ & _ & Hc).
  assert (Hpend : ∀ j0, j0 ∈ startedJobs now s →
                        j0 ∈ jobs s ∧ status j0 = Pending).
  { intros j0 Hj0. by destruct (startedJobs_elem now s j0 Hj0) as (? & ? & _). }
  assert (Hsame : ∀ j, j ∈ jobs s → id j ∈ ids (startedJobs now s) →
                       status j = Pending).
  { intros j Hjin (j0 & Heq & Hj0)%list_elem_of_fmap_1.
    destruct (Hpend j0 Hj0) as [Hj0in Hj0st].
    by rewrite (NoDup_ids_inj (jobs s) j j0 Hids Hjin Hj0in Heq). }
  assert (Hfree : ∀ d, d ∈ inFlight s → id d ∉ ids (startedJobs now s)).
  { intros d Hd Hin. destruct (Hfl d Hd) as (j & Hjin & Hjid & Hjst).
    rewrite <- Hjid in Hin. pose proof (Hsame j Hjin Hin) as Hp.
    destruct Hjst as [?|[? _]]; congruence. }
  split.
  - by rewrite Hj, ids_startAll.
  - rewrite Hf. unfold ids. rewrite map_app. apply NoDup_app.
    split; [done|]. split.
    + intros x (d & -> & Hd)%list_elem_of_fmap_1. by apply Hfree.
    + eapply sublist_NoDup; [exact Hids|].
      apply fmap_sublist, startedJobs_sublist.
  - intros d Hd. rewrite Hf in Hd. rewrite Hj, startAll_map, Hc.
    apply elem_of_app in Hd as [Hd|Hd].
    + destruct (Hfl d Hd) as (j & Hjin & Hjid & Hjst).
      exists j. split; [|done]. apply list_elem_of_fmap. exists j.
      split; [|done]. rewrite decide_False; [done|].
      rewrite Hjid. by apply Hfree.
    + destruct (Hpend d Hd) as [Hdin _]. exists (toProcessing d).
      split; [|split; [done|by left]].
      apply list_elem_of_fmap. exists d. split; [|done].
      rewrite decide_True; [done|]. by apply elem_of_ids.
  - intros j'. rewrite Hj, startAll_map.
    intros (j & -> & Hjin)%list_elem_of_fmap_1 Hst.
    destruct (decide (id j ∈ ids (startedJobs now s))) as [Hin|Hnin];
      [|by apply Hres].
    apply (Hres j Hjin). rewrite (Hsame j Hjin Hin). done.
Qed.

Lemma pageInvariant_handleAddJobs newJobs s :
  enabled (AddJobs newJobs) s → offered (AddJobs newJobs) s →
  pageInvariant s → pageInvariant (handleAddJobs newJobs s).
Proof.
  simpl. intros Hfresh Hoff [Hids Hfids Hfl Hres]. split.
  - by rewrite ids_handleAddJobs.
  - done.
  - intros d Hd. destruct (Hfl d Hd) as (j & Hjin & Hrest).
    exists j. split; [|done]. simpl. apply elem_of_app. by left.
  - simpl. intros j [Hj|Hj]%elem_of_app Hst; [by apply Hres|].
    apply list_elem_of_fmap_1 in Hj as ([uuid t] & -> & Hp).
    apply (proj1 (Forall_forall _ _) Hoff) in Hp. exact Hp.
Qed.

Lemma pageInvariant_handleSaveApiKey provider newKey s :
  pageInvariant s → pageInvariant (handleSaveApiKey provider newKey s).
Proof.
  intros Hinv. unfold handleSaveApiKey. case_decide; [done|]. by destruct Hinv.
Qed.

Lemma pageInvariant_handleRetryJob jobId s :
  offered (RetryJob jobId) s →
  pageInvariant s → pageInvariant (handleRetryJob jobId s).
Proof.
  simpl. intros (j0 & Hj0 & Hid0 & Hst0 & Herr0)%Exists_exists
    [Hids Hfids Hfl Hres].
  assert (Hthe : ∀ j, j ∈ jobs s → id j = jobId → j = j0).
  { intros j Hj Hid. apply (NoDup_ids_inj (jobs s)); congruence. }
  split; simpl.
  - by rewrite ids_updateJob.
  - done.
  - intros d Hd. destruct (Hfl d Hd) as (j & Hjin & Hjid & Hjst).
    exists j. split; [|done]. apply updateJob_keeps; [done|].
    intros Hid. rewrite (Hthe j Hjin Hid) in Hjst.
    destruct Hjst as [?|(_ & ? & _)]; congruence.
  - intros j' (j & Hjin & ->)%elem_of_updateJob Hst.
    destruct (decide (id j = jobId)) as [Hid|Hne]; [|by apply Hres].
    simpl. apply (Hres j Hjin). rewrite (Hthe j Hjin Hid), Hst0. done.
Qed.

Lemma pageInvariant_handleCancelJob jobId s :
  offered (CancelJob jobId) s →
  pageInvariant s → pageInvariant (handleCancelJob jobId s).
Proof.
  simpl. intros (j0 & Hj0 & Hid0 & Hst0)%Exists_exists [Hids Hfids Hfl Hres].
  assert (Hthe : ∀ j, j ∈ jobs s → id j = jobId → j = j0).
  { intros j Hj Hid. apply (NoDup_ids_inj (jobs s)); congruence. }
  split; simpl.
  - by rewrite ids_updateJob.
  - done.
  - intros d Hd. destruct (Hfl d Hd) as (j & Hjin & Hjid & Hjst).
    destruct (decide (id j = jobId)) as [Hid|Hne].
    + exists (failWith MSG_CANCELLED j).
      split; [by apply updateJob_hits|]. split; [done|]. right. simpl.
      repeat split. apply elem_of_union. right. by apply elem_of_singleton.
    + exists j. split; [by apply updateJob_keeps|]. split; [done|].
      destruct Hjst as [?|(? & ? & ?)]; [by left|right].
      repeat split; try done. apply elem_of_union. by left.
  - intros j' (j & Hjin & ->)%elem_of_updateJob Hst.
    destruct (decide (id j = jobId)) as [Hid|Hne]; [|by apply Hres].
    simpl. apply (Hres j Hjin). rewrite (Hthe j Hjin Hid).
    destruct Hst0 as [-> | ->]; done.
Qed.

Lemma inFlight_others (l : list Job) i d :
  NoDup (ids l) → l !! i = Some d →
  ∀ d', d' ∈ delete i l → d' ∈ l ∧ id d' ≠ id d.
Proof.
  intros Hnd (l1 & l2 & -> & ->)%list_elem_of_split_length d'.
  rewrite delete_middle. unfold ids in Hnd. rewrite map_app in Hnd.
  apply NoDup_app in Hnd as (_ & Hdisj & Hnd2).
  change (map id (d :: l2)) with (id d :: map id l2) in *.
  apply NoDup_cons in Hnd2 as [Hn2 _].
  intros [Hd'|Hd']%elem_of_app; split.
  - apply elem_of_app. by left.
  - intros Heq. apply (Hdisj (id d')); [by apply list_elem_of_fmap_2|].
    rewrite Heq. apply elem_of_cons. by left.
  - apply elem_of_app. right. apply elem_of_cons. by right.
  - intros Heq. apply Hn2. rewrite <- Heq. by apply list_elem_of_fmap_2.
Qed.

Lemma results_settleJob d o j :
  status (settleJob d o j) ≠ Completed →
  resultUrl (settleJob d o j) = resultUrl j
  ∧ resultUrls (settleJob d o j) = resultUrls j.
Proof.
  destruct o as [[]|e]; simpl; [done..|].
  destruct (isQuotaExceeded e), (providerOf d); simpl; try done;
    unfold retryOrFail; by case_decide.
Qed.

Lemma pageInvariant_settle i o s :
  enabled (Settle i o) s → pageInvariant s → pageInvariant (settle i o s).
Proof.
  simpl. intros [d Hd] [Hids Hfids Hfl Hres].
  destruct (settle_fields i o s d Hd) as (Hf & _ & _ & Hi & Hm & Hu).
  pose proof (inFlight_others (inFlight s) i d Hfids Hd) as Hother.
  assert (Hnd' : NoDup (ids (delete i (inFlight s)))).
  { eapply sublist_NoDup; [exact Hfids|]. apply fmap_sublist, sublist_delete. }
  destruct (decide (id d ∈ cancelledJobIds s)) as [Hin|Hnin].
  - destruct (Hm Hin) as (Hj & _ & Hc). split.
    + by rewrite Hi.
    + by rewrite Hf.
    + rewrite Hf, Hj, Hc. intros d' Hd'.
      destruct (Hother d' Hd') as [Hd'in Hne].
      destruct (Hfl d' Hd'in) as (j & Hjin & Hjid & Hjst).
      exists j. split; [done|]. split; [done|].
      destruct Hjst as [?|(? & ? & ?)]; [by left|right].
      repeat split; try done. apply elem_of_difference. split; [done|].
      rewrite Hjid. by intros ?%elem_of_singleton.
    + by rewrite Hj.
  - destruct (Hu Hnin) as (Hj & Hc).
    apply list_elem_of_lookup_2 in Hd as Hdin.
    destruct (Hfl d Hdin) as (jd & Hjd & Hjdid & Hjdst).
    assert (Hproc : status jd = Processing).
    { destruct Hjdst as [?|(_ & _ & Hmark)]; [done|].
      rewrite Hjdid in Hmark. done. }
    split.
    + by rewrite Hi.
    + by rewrite Hf.
    + rewrite Hf, Hj, Hc. intros d' Hd'.
      destruct (Hother d' Hd') as [Hd'in Hne].
      destruct (Hfl d' Hd'in) as (j & Hjin & Hjid & Hjst).
      exists j. split; [|done]. apply updateJob_keeps; [done|congruence].
    + rewrite Hj. intros j' (j & Hjin & ->)%elem_of_updateJob Hst.
      destruct (decide (id j = id d)) as [Hid|Hne]; [|by apply Hres].
      assert (j = jd) as ->
        by (apply (NoDup_ids_inj (jobs s)); congruence).
      destruct (results_settleJob d o jd Hst) as [-> ->].
      apply (Hres jd Hjd). by rewrite Hproc.
Qed.

Lemma pageInvariant_handle e s :
  enabled e s → offered e s → pageInvariant s → pageInvariant (handle e s).
Proof.
  destruct e as [now stamp|newJobs|provider newKey|jobId|jobId|i o].
  - intros _ _. apply pageInvariant_processQueue.
  - apply pageInvariant_handleAddJobs.
  - intros _ _. apply pageInvariant_handleSaveApiKey.
  - intros _. apply pageInvariant_handleRetryJob.
  - intros _. apply pageInvariant_handleCancelJob.
  - intros He _. by apply pageInvariant_settle.
Qed.

Lemma reachableFromPage_invariant s : reachableFromPage s → pageInvariant s.
Proof.
  induction 1 as [keys|e s _ IH He Ho].
  - apply pageInvariant_initial.
  - by apply pageInvariant_handle.
Qed.

Lemma reachableFromPage_reachable s : reachableFromPage s → reachable s.
Proof. induction 1; by constructor. Qed.

(** * Properties of the page with its renders *)

Lemma processQueueFrom_self now stamp s :
  processQueueFrom s now stamp s = processQueue now stamp s.
Proof. done. Qed.

Lemma handleSaveApiKeyFrom_self provider newKey s :
  handleSaveApiKeyFrom s provider newKey s = handleSaveApiKey provider newKey s.
Proof. done. Qed.

Lemma pageHandle_synced e s :
  pageHandle Effects (pageHandle Commit (pageHandle (Raise e) (synced s)))
  = synced (handle e s).
Proof. by destruct e. Qed.

Lemma reachableFromPage_pageReachable s :
  reachableFromPage s → ∃ past, pageReachable past (synced s).
Proof.
  induction 1 as [storedKeys|e s _ [past IH] Hen Hoff].
  - eexists. apply pageReachable_initial.
  - rewrite <-pageHandle_synced. eexists.
    do 2 (apply pageReachable_handle; [|done]).
    by apply pageReachable_handle.
Qed.

Lemma pageSteps_reachable es : ∀ past p past' p',
  pageReachable past p → pageSteps es past p = Some (past', p') →
  pageReachable past' p'.
Proof.
  induction es as [|pe es IH]; intros past p past' p' Hr; simpl.
  - by intros [= <- <-].
  - case_decide as Hok; [|done]. apply IH. by apply pageReachable_handle.
Qed.

Lemma pageSteps_pageRun es : ∀ past p past' p',
  pageSteps es past p = Some (past', p') → p' = pageRun es p.
Proof.
  induction es as [|pe es IH]; intros past p past' p'; simpl.
  - by intros [= _ <-].
  - case_decide; [|done]. apply IH.
Qed.

Lemma processQueueFrom_halted view now stamp s :
  quotaExceededProviders view ≠ ∅ → processQueueFrom view now stamp s = s.
Proof.
  intros Hq. unfold processQueueFrom.
  by rewrite decide_True by by apply quota_halt_iff.
Qed.

Lemma processQueueFrom_running view now stamp s :
  quotaExceededProviders view = ∅ →
  processQueueFrom view now stamp s
  = forEachStart stamp 0 (jobsToStartFrom view now s)
      (set_timestamps (λ _, prune now (jobStartTimestamps s)) s).
Proof.
  intros Hq. unfold processQueueFrom.
  rewrite decide_False by (rewrite quota_halt_iff; tauto).
  assert (Hspec : jobsToStartFrom view now s
    = take (Z.to_nat (slotsToProcessFrom view now s))
           (filter (λ j, hasCredential (apiKeys view) j = true)
                   (pendingJobs view))).
  { unfold jobsToStartFrom. rewrite selectLoop_spec. simpl.
    by rewrite Nat.sub_0_r. }
  case_decide as Hslots.
  - rewrite Hspec. by replace (Z.to_nat _) with 0%nat by lia.
  - case_decide as Hlen; [|done].
    by apply length_zero_iff_nil in Hlen as ->.
Qed.

Lemma processQueueFrom_fields view now stamp s :
  jobs (processQueueFrom view now stamp s)
  = startAll (startedJobsFrom view now s) (jobs s)
  ∧ inFlight (processQueueFrom view now stamp s)
    = inFlight s ++ startedJobsFrom view now s
  ∧ apiKeys (processQueueFrom view now stamp s) = apiKeys s
  ∧ quotaExceededProviders (processQueueFrom view now stamp s)
    = quotaExceededProviders s
  ∧ cancelledJobIds (processQueueFrom view now stamp s) = cancelledJobIds s.
Proof.
  unfold startedJobsFrom. case_decide as Hq.
  - rewrite processQueueFrom_running by done.
    destruct (forEachStart_fields stamp 0 (jobsToStartFrom view now s)
      (set_timestamps (λ _, prune now (jobStartTimestamps s)) s))
      as (-> & _ & -> & -> & -> & ->). done.
  - rewrite processQueueFrom_halted by done. simpl. by rewrite app_nil_r.
Qed.


(** ** Renders are earlier versions of the latest values *)






(** ** Where results come from *)

Lemma result_kept_or_completed pe p k j' :
  pageAllowed pe p →
  jobs (current (pageHandle pe p)) !! k = Some j' → hasResult j' →
  status j' = Completed
  ∨ ∃ j, jobs (current p) !! k = Some j ∧ id j = id j'
      ∧ resultUrl j = resultUrl j' ∧ resultUrls j = resultUrls j'.
Proof.
  destruct pe as [e| |]; simpl; [|by eauto 10..].
  intros [Hen Hoff].
  destruct e as [now stamp|newJobs|provider newKey|jobId|jobId|i o];
    simpl in *.
  - destruct (processQueueFrom_fields (scheduled p) now stamp (current p))
      as (-> & _).
    rewrite startAll_lookup.
    destruct (jobs (current p) !! k) as [j|]; simpl; [|done].
    intros [= <-] _. right. exists j. by case_decide.
  - destruct (decide (k < length (jobs (current p)))%nat) as [Hk|Hk].
    + rewrite lookup_app_l by done. by eauto 10.
    + rewrite lookup_app_r by lia. rewrite list_lookup_fmap.
      destruct (newJobs !! _) as [x|] eqn:Hx; simpl; [|done].
      intros [= <-] Hres. exfalso.
      apply list_elem_of_lookup_2 in Hx.
      destruct (proj1 (Forall_forall _ _) Hoff x Hx) as [H1 H2].
      destruct x as [uuid t]. simpl in *. by destruct Hres.
  - unfold handleSaveApiKeyFrom. case_decide; simpl; by eauto 10.
  - rewrite updateJob_lookup.
    destruct (jobs (current p) !! k) as [j|]; simpl; [|done].
    intros [= <-] _. right. exists j. by case_decide.
  - rewrite updateJob_lookup.
    destruct (jobs (current p) !! k) as [j|]; simpl; [|done].
    intros [= <-] _. right. exists j. by case_decide.
  - destruct Hen as [d Hd].
    destruct (settle_fields i o (current p) d Hd) as (_ & _ & _ & _ & Hm & Hu).
    destruct (decide (id d ∈ cancelledJobIds (current p))) as [Hin|Hnin].
    + destruct (Hm Hin) as (-> & _). by eauto 10.
    + destruct (Hu Hnin) as (-> & _). rewrite updateJob_lookup.
      destruct (jobs (current p) !! k) as [j|]; simpl; [|done].
      intros [= <-] _. case_decide; [|by eauto 10].
      destruct (decide (status (settleJob d o j) = Completed)); [by left|].
      right. exists j. rewrite id_settleJob.
      by destruct (results_settleJob d o j).
Qed.

Lemma pageReachable_results past p :
  pageReachable past p →
  ∀ k j, jobs (current p) !! k = Some j → hasResult j →
    ∃ s j0, s ∈ past ∧ jobs s !! k = Some j0 ∧ id j0 = id j
      ∧ status j0 = Completed
      ∧ resultUrl j0 = resultUrl j ∧ resultUrls j0 = resultUrls j.
Proof.
  induction 1 as [storedKeys|past p pe _ IH Hok]; intros k j Hk Hres.
  - done.
  - destruct (result_kept_or_completed pe p k j Hok Hk Hres)
      as [Hst|(j1 & Hk1 & Hid & Hu & Hus)].
    + exists (current (pageHandle pe p)), j.
      split; [apply elem_of_cons; by left|done].
    + destruct (IH k j1 Hk1) as (s & j0 & Hs & Hk0 & Hid0 & Hst & Hu0 & Hus0).
      { unfold hasResult in *. by rewrite Hu, Hus. }
      exists s, j0. split; [apply elem_of_cons; by right|].
      repeat split; congruence.
Qed.

(** ** The halt *)










(** ** Reachability of concrete runs *)



(** ** Two scenarios of the specification, run on the model *)

(** A job fails twice with a provider error and succeeds on the third
    dispatch: it ends Completed with [retryCount = 2] and no error. *)
Example scenario_two_failures_then_success :
  (λ j, (status j, retryCount j, resultUrl j, error j))
    <$> jobs (run [ AddJobs [("j1", veo "one")];
                    Tick 1000 (clock 1000); Settle 0 (Rejected (OtherError "503"));
                    Tick 2000 (clock 2000); Settle 0 (Rejected (OtherError "503"));
                    Tick 3000 (clock 3000);
                    Settle 0 (Fulfilled (VideoResult "blob:video-1")) ]
                  (initial geminiKeys))
  = [ (Completed, 2, Some "blob:video-1", None) ].
Proof. vm_compute. reflexivity. Qed.

(** A job fails with a quota error: it is Failed with the quota message,
    its provider is flagged, and a tick of the render that follows starts
    none of the waiting jobs although three slots are free. *)
Example scenario_quota_error_halts :
  let s := run [ Settle 0 (Rejected (QuotaExceededError "quota")) ] fiveSubmitted in
  (λ j, (id j, status j, error j)) <$> jobs (processQueue 70000 (clock 70000) s)
  = [ ("j1", Failed, Some "quota"); ("j2", Processing, None);
      ("j3", Processing, None); ("j4", Processing, None);
      ("j5", Pending, None) ]
  ∧ elements (quotaExceededProviders s) = [gemini].
Proof. vm_compute. split; reflexivity. Qed.

(** * The claims *)



(** C2.  When the dispatch of a Processing job settles with an error that
    is not a [QuotaExceededError] and the job is not marked as cancelled:
    if [retryCount < MAX_RETRIES] (3) the job becomes Pending with
    [retryCount + 1] and the automatic-retry message; otherwise it becomes
    Failed with the error's message (the fallback text stands in for an
    empty message).  Hence [retryCount] stays within 0..3 at every reachable
    state, and of four consecutive transient failures of a fresh job the
    first three give Pending and the fourth gives Failed. *)
Theorem C2_transient_failure_bounded_retry :
  (∀ s i d msg k j,
      inFlight s !! i = Some d → id d ∉ cancelledJobIds s →
      jobs s !! k = Some j → id j = id d → status j = Processing →
      ∃ j', jobs (settle i (Rejected (OtherError msg)) s) !! k = Some j'
        ∧ id j' = id j
        ∧ (retryCount j < MAX_RETRIES →
             status j' = Pending ∧ retryCount j' = retryCount j + 1
             ∧ error j' = Some MSG_AUTO_RETRY)
        ∧ (¬ retryCount j < MAX_RETRIES →
             status j' = Failed ∧ retryCount j' = retryCount j
             ∧ error j' = Some (messageOrUnknown msg)
             ∧ (msg ≠ "" → error j' = Some msg)))
  ∧ (∀ s, reachable s → ∀ j, j ∈ jobs s → 0 ≤ retryCount j ≤ MAX_RETRIES)
  ∧ (∀ j m1 m2 m3 m4,
      retryCount j = 0 →
      let failed m j := retryOrFail m (markProcessing j j) in
      let j3 := failed m3 (failed m2 (failed m1 j)) in
      status (failed m1 j) = Pending
      ∧ status (failed m2 (failed m1 j)) = Pending
      ∧ status j3 = Pending ∧ retryCount j3 = MAX_RETRIES
      ∧ status (failed m4 j3) = Failed ∧ retryCount (failed m4 j3) = MAX_RETRIES).
Proof.
  split; [|split].
  - intros s i d msg k j Hd Hnin Hk Hid Hst.
    destruct (settle_fields i (Rejected (OtherError msg)) s d Hd)
      as (_ & _ & _ & _ & _ & Hu).
    destruct (Hu Hnin) as [-> _].
    rewrite updateJob_lookup, Hk. simpl. rewrite decide_True by done.
    eexists. split; [reflexivity|]. rewrite id_retryOrFail.
    split; [done|]. unfold retryOrFail. split; intros Hrc.
    + by rewrite decide_True.
    + rewrite decide_False by done. simpl. repeat split.
      intros Hmsg. unfold messageOrUnknown. by rewrite decide_False.
  - intros s Hs j Hj. apply reachable_invariant in Hs as [_ _ _ Hrc _].
    by apply (proj1 (Forall_forall _ _) Hrc).
  - intros j m1 m2 m3 m4 Hrc. simpl.
    rewrite !markProcessing_eq by done.
    unfold retryOrFail, MAX_RETRIES. simpl. rewrite Hrc. simpl. done.
Qed.

Lemma C2_witness :
  ∃ j', jobs (settle 0 (Rejected (OtherError "503")) thriceFailed) !! 0%nat
        = Some j'
    ∧ status j' = Failed ∧ retryCount j' = 3 ∧ error j' = Some "503".
Proof.
  destruct C2_transient_failure_bounded_retry as [Hstep _].
  destruct (Hstep thriceFailed 0%nat
              (spread (formatJob ("j1", veo "one")) Pending 3 None None
                      (Some MSG_AUTO_RETRY))
              "503" 0%nat
              (spread (formatJob ("j1", veo "one")) Processing 3 None None
                      (Some MSG_AUTO_RETRY)))
    as (j' & Hj' & _ & _ & Hfail).
  - vm_compute. reflexivity.
  - vm_compute. intros H. discriminate H.
  - vm_compute. reflexivity.
  - reflexivity.
  - reflexivity.
  - exists j'. split; [exact Hj'|].
    destruct Hfail as (Hst & Hrc & _ & Hmsg).
    + vm_compute. intros H. discriminate H.
    + repeat split; [exact Hst|exact Hrc|]. apply Hmsg. discriminate.
Defined.




(** C4.  When a dispatch settles while the identifier of its job is in the
    cancelled set, whatever the outcome (fulfilled, quota error, other
    error), the job list is left as it is, so a job that is Failed with the
    cancellation message stays so and keeps the result fields it had; the
    identifier is removed from the set.  In particular this is what happens
    to a dispatch that settles right after its job was cancelled. *)
Theorem C4_cancelled_outcome_discarded :
  (∀ s i d o,
      inFlight s !! i = Some d → id d ∈ cancelledJobIds s →
      jobs (settle i o s) = jobs s
      ∧ quotaExceededProviders (settle i o s) = quotaExceededProviders s
      ∧ cancelledJobIds (settle i o s) = cancelledJobIds s ∖ {[ id d ]}
      ∧ (id d ∉ cancelledJobIds (settle i o s))
      ∧ ∀ k j, jobs s !! k = Some j → id j = id d →
          status j = Failed → error j = Some MSG_CANCELLED →
          ∃ j', jobs (settle i o s) !! k = Some j'
                ∧ status j' = Failed ∧ error j' = Some MSG_CANCELLED
                ∧ resultUrl j' = resultUrl j ∧ resultUrls j' = resultUrls j)
  ∧ (∀ s i d o,
      inFlight s !! i = Some d →
      let s1 := handleCancelJob (id d) s in
      let s2 := settle i o s1 in
      id d ∈ cancelledJobIds s1
      ∧ jobs s2 = jobs s1
      ∧ (id d ∉ cancelledJobIds s2)
      ∧ ∀ j, j ∈ jobs s2 → id j = id d →
          status j = Failed ∧ error j = Some MSG_CANCELLED).
Proof.
  assert (Hgen : ∀ s i d o,
      inFlight s !! i = Some d → id d ∈ cancelledJobIds s →
      jobs (settle i o s) = jobs s
      ∧ quotaExceededProviders (settle i o s) = quotaExceededProviders s
      ∧ cancelledJobIds (settle i o s) = cancelledJobIds s ∖ {[ id d ]}).
  { intros s i d o Hd Hin.
    destruct (settle_fields i o s d Hd) as (_ & _ & _ & _ & Hm & _). auto. }
  split.
  - intros s i d o Hd Hin. destruct (Hgen s i d o Hd Hin) as (Hj & Hq & Hc).
    rewrite Hj, Hq, Hc. repeat split; [set_solver|].
    intros k j Hk _ Hst Herr. exists j. done.
  - intros s i d o Hd s1 s2.
    assert (Hin : id d ∈ cancelledJobIds s1) by (simpl; set_solver).
    destruct (Hgen s1 i d o Hd Hin) as (Hj & _ & Hc).
    fold s2 in Hj, Hc. rewrite Hj, Hc.
    repeat split; [done|set_solver|..];
      simpl in H; unfold updateJob in H;
      apply list_elem_of_fmap_1 in H as (j0 & -> & _);
      destruct (decide (id j0 = id d)); done.
Qed.

Lemma C4_witness :
  jobs (settle 0 (Fulfilled (VideoResult "blob:late"))
          (handleCancelJob "j1" twoInFlight))
  = jobs (handleCancelJob "j1" twoInFlight)
  ∧ "j1" ∉ cancelledJobIds
             (settle 0 (Fulfilled (VideoResult "blob:late"))
                (handleCancelJob "j1" twoInFlight)).
Proof.
  destruct C4_cancelled_outcome_discarded as [Hgen _].
  destruct (Hgen (handleCancelJob "j1" twoInFlight) 0%nat
              (formatJob ("j1", veo "one"))
              (Fulfilled (VideoResult "blob:late")))
    as (Hj & _ & _ & Hc & _).
  - vm_compute. reflexivity.
  - refine (bool_decide_unpack _ _). vm_compute. exact I.
  - split; [exact Hj|exact Hc].
Defined.

(** C8.  [handleCancelJob] looks at no status: it always adds the
    identifier to the cancelled set, every job with that identifier becomes
    Failed with the fixed cancellation message whatever its status was
    (a Completed job too), and every other job is left as it is. *)
Theorem C8_cancel_unconditional (s : State) (jobId : string) :
  jobId ∈ cancelledJobIds (handleCancelJob jobId s)
  ∧ length (jobs (handleCancelJob jobId s)) = length (jobs s)
  ∧ ∀ k j, jobs s !! k = Some j →
      (id j = jobId →
         ∃ j', jobs (handleCancelJob jobId s) !! k = Some j'
               ∧ id j' = jobId ∧ status j' = Failed
               ∧ error j' = Some MSG_CANCELLED)
      ∧ (id j ≠ jobId → jobs (handleCancelJob jobId s) !! k = Some j).
Proof.
  split; [simpl; set_solver|]. split.
  - simpl. unfold updateJob. by rewrite length_map.
  - intros k j Hk. simpl. rewrite updateJob_lookup, Hk. simpl. split; intros H.
    + rewrite decide_True by done. eauto.
    + by rewrite decide_False.
Qed.

Lemma C8_witness :
  ∃ j', jobs (handleCancelJob "j1"
                (settle 0 (Fulfilled (VideoResult "blob:video-1")) twoInFlight))
          !! 0%nat = Some j'
        ∧ id j' = "j1" ∧ status j' = Failed ∧ error j' = Some MSG_CANCELLED.
Proof.
  destruct (C8_cancel_unconditional
              (settle 0 (Fulfilled (VideoResult "blob:video-1")) twoInFlight)
              "j1")
    as (_ & _ & Hjobs).
  destruct (Hjobs 0%nat
              (spread (formatJob ("j1", veo "one")) Completed 0
                      (Some "blob:video-1") None None)) as [Hcancel _].
  - vm_compute. reflexivity.
  - apply Hcancel. reflexivity.
Defined.

(** C10.  When a dispatch settles with a [QuotaExceededError] while the
    identifier of its job is in the cancelled set, no provider is added to
    [quotaExceededProviders] and the job list is left as it is: the
    cancellation test comes first.  If the set was empty the next tick is
    not halted: it starts exactly the jobs its selection picks. *)
Theorem C10_cancelled_quota_error_no_halt (s : State) (i : nat) (d : Job)
    (msg : string) :
  inFlight s !! i = Some d → id d ∈ cancelledJobIds s →
  let s' := settle i (Rejected (QuotaExceededError msg)) s in
  quotaExceededProviders s' = quotaExceededProviders s
  ∧ jobs s' = jobs s
  ∧ (quotaExceededProviders s = ∅ →
       ∀ now stamp,
         inFlight (processQueue now stamp s') = inFlight s' ++ jobsToStart now s'
         ∧ jobs (processQueue now stamp s') = startAll (jobsToStart now s') (jobs s')).
Proof.
  intros Hd Hin s'.
  destruct (settle_fields i (Rejected (QuotaExceededError msg)) s d Hd)
    as (_ & _ & _ & _ & Hm & _).
  destruct (Hm Hin) as (Hj & Hq & _). fold s' in Hj, Hq.
  split; [done|]. split; [done|].
  intros Hempty now stamp.
  destruct (processQueue_fields now stamp s') as (Hj' & Hf' & _).
  unfold startedJobs in Hj', Hf'.
  rewrite decide_True in Hj', Hf' by congruence. done.
Qed.

Lemma C10_witness :
  let s := handleCancelJob "j1" fiveSubmitted in
  let s' := settle 0 (Rejected (QuotaExceededError "quota")) s in
  quotaExceededProviders s' = ∅
  ∧ ids (inFlight (processQueue 70000 (clock 70000) s'))
    = ["j2"; "j3"; "j4"; "j5"].
Proof.
  intros s s'.
  destruct (C10_cancelled_quota_error_no_halt s 0%nat
              (formatJob ("j1", veo "one")) "quota")
    as (Hq & _ & Hgo).
  - vm_compute. reflexivity.
  - refine (bool_decide_unpack _ _). vm_compute. exact I.
  - fold s' in Hq, Hgo. split.
    + rewrite Hq. vm_compute. reflexivity.
    + destruct (Hgo ltac:(vm_compute; reflexivity) 70000 (clock 70000))
        as [-> _].
      vm_compute. reflexivity.
Defined.



(** C6.  On a tick, a Pending job whose provider has no configured
    credential (the key is absent or null) is not among the started jobs and
    gets no dispatch, it stays in the list exactly as it was, and it uses no
    slot: the selection is the one the tick would make if the job were not
    in the list, so later Pending jobs with a credential are picked as if it
    were absent. *)
Theorem C6_no_credential_skipped (s : State) (now : Z) (stamp : nat → Z)
    (k : nat) (j : Job) :
  NoDup (ids (jobs s)) →
  jobs s !! k = Some j → status j = Pending →
  (∀ provider, providerOf j = Some provider →
     apiKeys s !! provider = None ∨ apiKeys s !! provider = Some None) →
  let s' := processQueue now stamp s in
  (j ∉ jobsToStart now s)
  ∧ inFlight s' = inFlight s ++ startedJobs now s
  ∧ (id j ∉ ids (startedJobs now s))
  ∧ jobs s' !! k = Some j
  ∧ slotsToProcess now (set_jobs (delete k) s) = slotsToProcess now s
  ∧ jobsToStart now (set_jobs (delete k) s) = jobsToStart now s
  ∧ startedJobs now (set_jobs (delete k) s) = startedJobs now s.
Proof.
  intros Hnd Hk Hst Hkey s'.
  pose proof (hasCredential_absent (apiKeys s) j Hkey) as Hc.
  assert (Hj : j ∈ jobs s) by (by eapply list_elem_of_lookup_2).
  assert (Hnot : j ∉ jobsToStart now s).
  { intros (_ & _ & Hc')%jobsToStart_elem. congruence. }
  assert (Hnot' : j ∉ startedJobs now s).
  { intros (_ & _ & Hc')%startedJobs_elem. congruence. }
  pose proof (not_started_id now s j Hnd Hj Hnot') as Hid.
  split; [done|]. split.
  { unfold s'. by destruct (processQueue_fields now stamp s) as (_ & -> & _). }
  split; [done|]. split.
  { unfold s'. rewrite (processQueue_lookup now stamp s k j Hk).
    by rewrite decide_False. }
  split; [apply (slotsToProcess_delete now s k j Hk); by rewrite Hst|].
  split; [by apply (jobsToStart_delete now s k j)|].
  unfold startedJobs. simpl. by rewrite (jobsToStart_delete now s k j).
Qed.

Lemma C6_witness :
  ids (startedJobs 2000 mixedQueue) = ["j4"]
  ∧ (status <$> jobs (processQueue 2000 (clock 2000) mixedQueue) !! 3%nat)
    = Some Pending
  ∧ (status <$> jobs (processQueue 2000 (clock 2000) mixedQueue) !! 4%nat)
    = Some Processing.
Proof.
  destruct (C6_no_credential_skipped mixedQueue 2000 (clock 2000) 3%nat
              (formatJob ("k1", kling1 "k")))
    as (_ & _ & _ & Hsame & _ & _ & Hsel).
  - apply (bool_decide_unpack _). vm_compute. exact I.
  - vm_compute. reflexivity.
  - reflexivity.
  - intros provider Hp. vm_compute in Hp. injection Hp as <-. left.
    vm_compute. reflexivity.
  - split; [|split].
    + rewrite <- Hsel. vm_compute. reflexivity.
    + rewrite Hsame. reflexivity.
    + vm_compute. reflexivity.
Defined.

(** C9.  Cancelling a Pending job that has no dispatch in flight leaves its
    identifier in the cancelled set, and no event removes it while no
    dispatch of the job exists.  If the job is then put back to Pending by
    the manual retry and a tick starts it, the first settlement of the new
    dispatch, whatever its outcome, only removes the identifier from the
    set: the job list is left as it is and the job stays Processing. *)
Theorem C9_stale_mark_swallows_next_outcome (s : State) (k : nat) (j : Job)
    (now : Z) (stamp : nat → Z) :
  jobs s !! k = Some j → status j = Pending → id j ∉ ids (inFlight s) →
  let s1 := handleCancelJob (id j) s in
  let s2 := handleRetryJob (id j) s1 in
  let s3 := processQueue now stamp s2 in
  id j ∈ cancelledJobIds s1
  ∧ inFlight s1 = inFlight s
  ∧ (∀ e, id j ∈ cancelledJobIds (handle e s1))
  ∧ ∃ jr, jobs s2 !! k = Some jr ∧ id jr = id j ∧ status jr = Pending
      ∧ id j ∈ cancelledJobIds s2
      ∧ (jr ∈ startedJobs now s2 →
           ∃ i jp, inFlight s3 !! i = Some jr
             ∧ jobs s3 !! k = Some jp ∧ id jp = id j ∧ status jp = Processing
             ∧ id j ∈ cancelledJobIds s3
             ∧ ∀ o, jobs (settle i o s3) = jobs s3
                    ∧ jobs (settle i o s3) !! k = Some jp
                    ∧ quotaExceededProviders (settle i o s3)
                      = quotaExceededProviders s3
                    ∧ id j ∉ cancelledJobIds (settle i o s3)).
Proof.
  intros Hk Hst Hnf s1 s2 s3.
  assert (Hm1 : id j ∈ cancelledJobIds s1).
  { simpl. apply elem_of_union. right. by apply elem_of_singleton. }
  split; [done|]. split; [done|]. split.
  { intros e. by apply mark_persists. }
  assert (Hk2 : jobs s2 !! k
                = Some (spread (failWith MSG_CANCELLED j) Pending 0
                          (resultUrl j) (resultUrls j) None)).
  { unfold s2, s1. simpl. rewrite !updateJob_lookup, Hk. simpl.
    destruct (decide (id j = id j)) as [_|Hne]; [|by destruct Hne].
    simpl. by destruct (decide (id j = id j)) as [_|Hne]. }
  eexists. split; [exact Hk2|]. split; [done|]. split; [done|].
  split; [done|]. intros Hstarted.
  set (jr := spread (failWith MSG_CANCELLED j) Pending 0
               (resultUrl j) (resultUrls j) None) in *.
  destruct (processQueue_fields now stamp s2) as (_ & Hf & _ & _ & _ & Hc).
  fold s3 in Hf, Hc.
  assert (∃ i, inFlight s3 !! i = Some jr) as [i Hi].
  { apply list_elem_of_lookup_1. rewrite Hf. apply elem_of_app. by right. }
  exists i, (toProcessing jr).
  split; [done|]. split.
  { unfold s3. rewrite (processQueue_lookup now stamp s2 k jr Hk2).
    by rewrite decide_True by (by apply elem_of_ids). }
  split; [done|]. split; [done|]. split; [by rewrite Hc|].
  intros o.
  destruct (settle_fields i o s3 jr Hi) as (_ & _ & _ & _ & Hm & _).
  destruct Hm as (Hj & Hq & Hc'); [by rewrite Hc|].
  rewrite Hj, Hq, Hc'. split; [done|]. split.
  { unfold s3. rewrite (processQueue_lookup now stamp s2 k jr Hk2).
    by rewrite decide_True by (by apply elem_of_ids). }
  split; [done|].
  intros [_ Hn]%elem_of_difference. apply Hn. by apply elem_of_singleton.
Qed.

Lemma C9_witness :
  let s3 := processQueue 1000 (clock 1000)
              (handleRetryJob "j1" (handleCancelJob "j1" oneWaiting)) in
  let s4 := settle 0 (Fulfilled (VideoResult "blob:video-1")) s3 in
  (status <$> jobs s4 !! 0%nat) = Some Processing
  ∧ "j1" ∉ cancelledJobIds s4.
Proof.
  intros s3 s4.
  destruct (C9_stale_mark_swallows_next_outcome oneWaiting 0%nat
              (formatJob ("j1", veo "one")) 1000 (clock 1000))
    as (_ & _ & _ & jr & Hjr & _ & _ & _ & Hgo).
  - reflexivity.
  - reflexivity.
  - vm_compute. intros H. inversion H.
  - vm_compute in Hjr. injection Hjr as <-.
    destruct Hgo as (i & jp & Hi & Hjp & _ & Hst & _ & Hsettle).
    + apply (bool_decide_unpack _). vm_compute. exact I.
    + assert (i = 0%nat) as ->.
      { apply lookup_lt_Some in Hi. vm_compute in Hi. lia. }
      destruct (Hsettle (Fulfilled (VideoResult "blob:video-1")))
        as (_ & Hk & _ & Hmark).
      split; [|exact Hmark].
      refine (eq_trans (f_equal (fmap status) Hk) _). simpl. by rewrite Hst.
Defined.


(** C7, as stated: at every reachable state a job that is not Completed
    has no result.  This fails when the cancel button of a render that
    shows the job as Processing is clicked after the dispatch was
    fulfilled: [handleCancelJob] keeps the result fields, so the job is
    Failed and still has its [resultUrl]. *)
Lemma C7_counterexample :
  ¬ (∀ past p, pageReachable past p →
       ∀ j, j ∈ jobs (current p) → status j ≠ Completed →
         resultUrl j = None ∧ resultUrls j = None).
Proof.
  intros H.
  destruct (pageSteps lateCancel [initial geminiKeys]
              (synced (initial geminiKeys))) as [[past p]|] eqn:Hsteps;
    [|vm_compute in Hsteps; discriminate Hsteps].
  pose proof (pageSteps_reachable _ _ _ _ _
                (pageReachable_initial geminiKeys) Hsteps) as Hp.
  apply pageSteps_pageRun in Hsteps. subst p.
  destruct (H past _ Hp
              (failWith MSG_CANCELLED
                 (completeWith (VideoResult "blob:video-1")
                    (formatJob ("j1", veo "one"))))) as [Hu _].
  - apply (bool_decide_unpack _). vm_compute. exact I.
  - discriminate.
  - vm_compute in Hu. discriminate Hu.
Qed.

(** C7.  While every tick and click acts on a render that is up to date,
    every job whose status is not Completed has no result, and the states
    reached that way are states of the page.  Whatever the renders, a job
    has a result only if, now or at an earlier state, it was Completed with
    the same result fields: a job that has never been Completed has no
    result. *)
Theorem C7_result_only_after_completion :
  (∀ s, reachableFromPage s →
     (∃ past, pageReachable past (synced s))
     ∧ ∀ j, j ∈ jobs s → status j ≠ Completed →
         resultUrl j = None ∧ resultUrls j = None)
  ∧ (∀ past p, pageReachable past p →
       ∀ k j, jobs (current p) !! k = Some j → hasResult j →
         ∃ s j0, s ∈ past ∧ jobs s !! k = Some j0 ∧ id j0 = id j
           ∧ status j0 = Completed
           ∧ resultUrl j0 = resultUrl j ∧ resultUrls j0 = resultUrls j).
Proof.
  split.
  - intros s Hs. split; [by apply reachableFromPage_pageReachable|].
    by apply reachableFromPage_invariant in Hs as [_ _ _ Hres].
  - apply pageReachable_results.
Qed.

Lemma C7_witness :
  let pp := default ([], synced (initial geminiKeys))
              (pageSteps lateCancel [initial geminiKeys]
                 (synced (initial geminiKeys))) in
  ∃ s j0, s ∈ pp.1 ∧ jobs s !! 0%nat = Some j0 ∧ id j0 = "j1"
    ∧ status j0 = Completed ∧ resultUrl j0 = Some "blob:video-1".
Proof.
  intros pp.
  destruct C7_result_only_after_completion as [_ Hres].
  assert (Hp : pageReachable pp.1 pp.2).
  { apply (pageSteps_reachable lateCancel [initial geminiKeys]
             (synced (initial geminiKeys)));
      [apply pageReachable_initial|]. vm_compute. reflexivity. }
  destruct (Hres pp.1 pp.2 Hp 0%nat
              (failWith MSG_CANCELLED
                 (completeWith (VideoResult "blob:video-1")
                    (formatJob ("j1", veo "one")))))
    as (s & j0 & Hs & Hk & Hid & Hst & Hu & _).
  - vm_compute. reflexivity.
  - left. discriminate.
  - exists s, j0. repeat split; done.
Defined.

(** * Further properties of the scheduler *)

(** X1.  When a dispatch is fulfilled and its job is not marked as
    cancelled, the job with that identifier becomes Completed whatever its
    status was, its error is cleared, its retry count is kept and the result
    is stored in the field of its kind (the other result field is kept);
    every other job, the quota set, the marks and the timestamps are left
    as they are, and the dispatch is no longer pending. *)
Theorem X1_fulfilled_completes (s : State) (i : nat) (d : Job) (r : Result)
    (k : nat) (j : Job) :
  inFlight s !! i = Some d → id d ∉ cancelledJobIds s →
  jobs s !! k = Some j →
  let s' := settle i (Fulfilled r) s in
  (id j = id d →
     ∃ j', jobs s' !! k = Some j' ∧ id j' = id j ∧ status j' = Completed
       ∧ error j' = None ∧ retryCount j' = retryCount j
       ∧ match r with
         | VideoResult url =>
             resultUrl j' = Some url ∧ resultUrls j' = resultUrls j
         | ImagesResult urls =>
             resultUrls j' = Some urls ∧ resultUrl j' = resultUrl j
         end)
  ∧ (id j ≠ id d → jobs s' !! k = Some j)
  ∧ quotaExceededProviders s' = quotaExceededProviders s
  ∧ cancelledJobIds s' = cancelledJobIds s
  ∧ jobStartTimestamps s' = jobStartTimestamps s
  ∧ inFlight s' = delete i (inFlight s).
Proof.
  intros Hd Hnin Hk s'.
  assert (Hs' : s' = set_jobs (updateJob (id d) (completeWith r))
                       (set_inFlight (delete i) s)).
  { unfold s', settle. rewrite Hd. simpl. unfold onFulfilled. simpl.
    by rewrite decide_False. }
  rewrite Hs'. simpl. rewrite updateJob_lookup, Hk. simpl.
  split; [|split; [|done]].
  - intros Hid. rewrite decide_True by done. eexists. split; [done|].
    by destruct r.
  - intros Hne. by rewrite decide_False.
Qed.

Lemma X1_witness :
  (status <$> jobs (settle 1 (Fulfilled (VideoResult "blob:2")) twoInFlight)
              !! 1%nat) = Some Completed
  ∧ (status <$> jobs (settle 1 (Fulfilled (VideoResult "blob:2")) twoInFlight)
                !! 0%nat) = Some Processing.
Proof.
  split.
  - destruct (X1_fulfilled_completes twoInFlight 1%nat
                (formatJob ("j2", veo "two")) (VideoResult "blob:2") 1%nat
                (toProcessing (formatJob ("j2", veo "two"))))
      as [Hhit _].
    + vm_compute. reflexivity.
    + vm_compute. intros H. discriminate H.
    + vm_compute. reflexivity.
    + destruct (Hhit eq_refl) as (j' & -> & _ & Hst & _). simpl. by rewrite Hst.
  - destruct (X1_fulfilled_completes twoInFlight 1%nat
                (formatJob ("j2", veo "two")) (VideoResult "blob:2") 0%nat
                (toProcessing (formatJob ("j1", veo "one"))))
      as (_ & Hmiss & _).
    + vm_compute. reflexivity.
    + vm_compute. intros H. discriminate H.
    + vm_compute. reflexivity.
    + rewrite Hmiss; [reflexivity|]. vm_compute. intros H. discriminate H.
Defined.

(** X2.  [handleRetryJob] looks at no status: every job with the
    identifier becomes Pending with [retryCount = 0] and no error, keeping
    its result fields; every other job is left as it is, and neither the
    cancelled set, nor the pending dispatches, nor the quota set, nor the
    timestamps change (a mark left by an earlier cancel stays). *)
Theorem X2_retry_unconditional (s : State) (jobId : string) :
  cancelledJobIds (handleRetryJob jobId s) = cancelledJobIds s
  ∧ inFlight (handleRetryJob jobId s) = inFlight s
  ∧ quotaExceededProviders (handleRetryJob jobId s) = quotaExceededProviders s
  ∧ jobStartTimestamps (handleRetryJob jobId s) = jobStartTimestamps s
  ∧ length (jobs (handleRetryJob jobId s)) = length (jobs s)
  ∧ ∀ k j, jobs s !! k = Some j →
      (id j = jobId →
         ∃ j', jobs (handleRetryJob jobId s) !! k = Some j'
           ∧ id j' = jobId ∧ status j' = Pending ∧ retryCount j' = 0
           ∧ error j' = None
           ∧ resultUrl j' = resultUrl j ∧ resultUrls j' = resultUrls j)
      ∧ (id j ≠ jobId → jobs (handleRetryJob jobId s) !! k = Some j).
Proof.
  repeat split; try done.
  - simpl. unfold updateJob. by rewrite length_map.
  - intros Hid. simpl. rewrite updateJob_lookup, H. simpl.
    rewrite decide_True by done. eauto 10.
  - intros Hne. simpl. rewrite updateJob_lookup, H. simpl.
    by rewrite decide_False.
Qed.

Lemma X2_witness :
  ∃ j', jobs (handleRetryJob "j1" cancelledAfterCompletion) !! 0%nat = Some j'
    ∧ status j' = Pending ∧ resultUrl j' = Some "blob:video-1"
    ∧ "j1" ∈ cancelledJobIds (handleRetryJob "j1" cancelledAfterCompletion).
Proof.
  destruct (X2_retry_unconditional cancelledAfterCompletion "j1")
    as (Hc & _ & _ & _ & _ & Hjobs).
  destruct (Hjobs 0%nat
              (spread (formatJob ("j1", veo "one")) Failed 0
                      (Some "blob:video-1") None (Some MSG_CANCELLED)))
    as [Hhit _].
  - vm_compute. reflexivity.
  - destruct (Hhit eq_refl) as (j' & Hj' & _ & Hst & _ & _ & Hurl & _).
    exists j'. split; [exact Hj'|]. split; [exact Hst|]. split; [exact Hurl|].
    rewrite Hc. apply (bool_decide_unpack _). vm_compute. exact I.
Defined.

(** ** Adding jobs and the order of service *)

Lemma filter_Processing_formatJob newJobs :
  filter (λ j, status j = Processing) (map formatJob newJobs) = [].
Proof.
  apply length_zero_iff_nil. apply (nProcessing_formatJob newJobs).
Qed.

Lemma slotsToProcess_handleAddJobs now newJobs s :
  slotsToProcess now (handleAddJobs newJobs s) = slotsToProcess now s.
Proof.
  unfold slotsToProcess, availableConcurrencySlots, availableRateLimitSlots,
    processingJobs. simpl.
  by rewrite filter_app, filter_Processing_formatJob, app_nil_r.
Qed.

(** X3.  [handleAddJobs] appends the new jobs, Pending with
    [retryCount = 0], behind the jobs already in the list, which it leaves
    as they are.  The slots of a tick are unchanged, and the jobs a tick
    would have started before the addition are still started first, in the
    same order: new jobs only take the slots the waiting ones leave over. *)
Theorem X3_added_jobs_wait_behind (s : State)
    (newJobs : list (string * JobTemplate.t)) (now : Z) :
  let s' := handleAddJobs newJobs s in
  let eligible := filter (λ j, hasCredential (apiKeys s) j = true)
                         (pendingJobs s) in
  slotsToProcess now s' = slotsToProcess now s
  ∧ jobsToStart now s `prefix_of` jobsToStart now s'
  ∧ ((Z.to_nat (slotsToProcess now s) ≤ length eligible)%nat →
       jobsToStart now s' = jobsToStart now s)
  ∧ (∀ k j, jobs s !! k = Some j → jobs s' !! k = Some j)
  ∧ length (jobs s') = (length (jobs s) + length newJobs)%nat
  ∧ Forall (λ j, status j = Pending ∧ retryCount j = 0)
           (drop (length (jobs s)) (jobs s')).
Proof.
  intros s' eligible.
  assert (Hsel : jobsToStart now s'
                 = take (Z.to_nat (slotsToProcess now s))
                     (eligible
                      ++ filter (λ j, hasCredential (apiKeys s) j = true)
                           (filter (λ j, status j = Pending)
                                   (map formatJob newJobs)))).
  { rewrite jobsToStart_spec. unfold s'.
    rewrite slotsToProcess_handleAddJobs. unfold pendingJobs. simpl.
    by rewrite !filter_app. }
  split; [apply slotsToProcess_handleAddJobs|]. split; [|split].
  - rewrite Hsel, jobsToStart_spec, take_app. fold eligible.
    by apply prefix_app_r.
  - intros Hfull. rewrite Hsel, jobsToStart_spec. fold eligible.
    by rewrite take_app_le.
  - split; [|split].
    + intros k j Hk. simpl. by apply lookup_app_l_Some.
    + simpl. by rewrite length_app, length_map.
    + simpl. rewrite drop_app_length. apply Forall_fmap, Forall_forall.
      by intros [uuid t] _.
Qed.

Lemma X3_witness :
  jobsToStart 2000 (handleAddJobs [("j6", veo "six")] mixedQueue)
  = jobsToStart 2000 mixedQueue.
Proof.
  destruct (X3_added_jobs_wait_behind mixedQueue [("j6", veo "six")] 2000)
    as (_ & _ & Hfull & _).
  apply Hfull. vm_compute. lia.
Defined.

(** ** Progress of a tick *)



(** ** Ticks the interval effect leaves out *)

Lemma prune_prune now now' ts :
  now ≤ now' → prune now' (prune now ts) = prune now' ts.
Proof.
  intros Hle. unfold prune. apply list_filter_filter_l. intros t. lia.
Qed.

Lemma pendingJobs_none s : hasPendingJobs s = false → pendingJobs s = [].
Proof.
  unfold hasPendingJobs. intros Hnone%bool_decide_eq_false.
  destruct (pendingJobs s) as [|j l] eqn:Hp; [done|]. exfalso. apply Hnone.
  assert (Hj : j ∈ pendingJobs s) by (rewrite Hp; apply elem_of_cons; by left).
  apply list_elem_of_filter in Hj as [Hst Hj].
  apply Exists_exists. eauto.
Qed.

Lemma processQueue_pruned_first now now' stamp t :
  quotaExceededProviders t = ∅ → now ≤ now' →
  processQueue now' stamp (set_timestamps (λ ts, prune now ts) t)
  = processQueue now' stamp t.
Proof.
  intros Hq Hle. rewrite !processQueue_running by done.
  assert (Hsel : jobsToStart now' (set_timestamps (λ ts, prune now ts) t)
                 = jobsToStart now' t).
  { unfold jobsToStart, slotsToProcess, availableConcurrencySlots,
      availableRateLimitSlots, processingJobs, pendingJobs. simpl.
    by rewrite prune_prune. }
  rewrite Hsel. f_equal. unfold set_timestamps. simpl.
  by rewrite prune_prune.
Qed.

Lemma handle_set_timestamps f e t :
  (∀ now stamp, e ≠ Tick now stamp) →
  handle e (set_timestamps f t) = set_timestamps f (handle e t).
Proof.
  intros Hne.
  destruct e as [now stamp|newJobs|provider newKey|jobId|jobId|i o]; simpl;
    try done.
  - by destruct (Hne now stamp).
  - unfold handleSaveApiKey. by case_decide.
  - unfold settle. simpl. destruct (inFlight t !! i) as [d|]; [|done].
    destruct o as [r|e]; simpl; unfold onFulfilled, onRejected; simpl;
      case_decide; try done.
    by destruct (isQuotaExceeded e), (providerOf d).
Qed.

(** X5.  While the interval effect has no interval installed (no job is
    Pending, or a provider is flagged), a call of [processQueue] would at
    most prune the timestamps.  Such a prune is absorbed by the prune of any
    later tick that is not halted, and every other handler commutes with it,
    so leaving those ticks out changes nothing that follows. *)
Theorem X5_idle_tick_only_prunes (s : State) (now : Z) (stamp : nat → Z) :
  intervalRuns s = false →
  (processQueue now stamp s = s
   ∨ processQueue now stamp s = set_timestamps (λ ts, prune now ts) s)
  ∧ (∀ t now' stamp',
       quotaExceededProviders t = ∅ → now ≤ now' →
       processQueue now' stamp' (set_timestamps (λ ts, prune now ts) t)
       = processQueue now' stamp' t)
  ∧ (∀ t e, (∀ n st, e ≠ Tick n st) →
       handle e (set_timestamps (λ ts, prune now ts) t)
       = set_timestamps (λ ts, prune now ts) (handle e t)).
Proof.
  intros Hidle. split; [|split].
  - destruct (decide (quotaExceededProviders s = ∅)) as [Hq|Hq];
      [|left; by apply processQueue_halted].
    right. rewrite processQueue_running by done.
    unfold intervalRuns in Hidle.
    apply andb_false_iff in Hidle as [Hnone|Hflag].
    + unfold jobsToStart. by rewrite (pendingJobs_none s Hnone).
    + apply bool_decide_eq_false in Hflag. destruct Hflag.
      rewrite Hq. apply size_empty.
  - intros t now' stamp'. apply processQueue_pruned_first.
  - intros t e. apply handle_set_timestamps.
Qed.

Lemma X5_witness :
  processQueue 5000 (clock 5000) cancelledAfterCompletion
  = set_timestamps (λ ts, prune 5000 ts) cancelledAfterCompletion
  ∧ jobs (processQueue 5000 (clock 5000) cancelledAfterCompletion)
    = jobs cancelledAfterCompletion.
Proof.
  destruct (X5_idle_tick_only_prunes cancelledAfterCompletion 5000 (clock 5000))
    as ([Hsame|Hprune] & _ & _).
  - vm_compute. reflexivity.
  - rewrite Hsame. split; [|reflexivity]. vm_compute. reflexivity.
  - rewrite Hprune. split; reflexivity.
Defined.

(** ** What only a tick can do *)

Lemma processingJobs_updateJob_le jobId f s :
  (∀ j, status (f j) ≠ Processing) →
  processingJobs (set_jobs (updateJob jobId f) s) ≤ processingJobs s.
Proof.
  intros Hf. unfold processingJobs. simpl.
  pose proof (nProcessing_updateJob_le jobId f (jobs s) Hf) as Hle.
  unfold nProcessing in Hle. lia.
Qed.

(** X6.  An event other than a tick never records a timestamp, never
    creates a dispatch and never raises the number of Processing jobs:
    completing, failing, cancelling or retrying a job can free a concurrency
    slot but leaves the rate budget of the window as it is. *)
Theorem X6_only_ticks_start_work (e : Event) (s : State) :
  (∀ now stamp, e ≠ Tick now stamp) →
  jobStartTimestamps (handle e s) = jobStartTimestamps s
  ∧ (∀ now, availableRateLimitSlots now (handle e s)
            = availableRateLimitSlots now s)
  ∧ processingJobs (handle e s) ≤ processingJobs s
  ∧ inFlight (handle e s) `sublist_of` inFlight s.
Proof.
  intros Hne.
  assert (Hts : jobStartTimestamps (handle e s) = jobStartTimestamps s
                ∧ processingJobs (handle e s) ≤ processingJobs s
                ∧ inFlight (handle e s) `sublist_of` inFlight s).
  { destruct e as [now stamp|newJobs|provider newKey|jobId|jobId|i o]; simpl.
    - by destruct (Hne now stamp).
    - split; [done|]. split; [|done]. unfold processingJobs. simpl.
      rewrite filter_app, filter_Processing_formatJob, app_nil_r. lia.
    - unfold handleSaveApiKey. case_decide; simpl; repeat split; done || lia.
    - split; [done|]. split; [|done]. by apply processingJobs_updateJob_le.
    - split; [done|]. split; [|done].
      by apply (processingJobs_updateJob_le jobId (failWith MSG_CANCELLED)
                  (set_cancelled (λ c, c ∪ {[ jobId ]}) s)).
    - destruct (inFlight s !! i) as [d|] eqn:Hd;
        [|unfold settle; rewrite Hd; repeat split; done || lia].
      destruct (settle_fields i o s d Hd) as (-> & -> & _ & _ & Hm & Hu).
      split; [done|]. split; [|apply sublist_delete].
      destruct (decide (id d ∈ cancelledJobIds s)) as [Hin|Hnin].
      + destruct (Hm Hin) as (Hj & _). unfold processingJobs. rewrite Hj. lia.
      + destruct (Hu Hnin) as (Hj & _). unfold processingJobs. rewrite Hj.
        pose proof (nProcessing_updateJob_le (id d) (settleJob d o) (jobs s)
                      (status_settleJob d o)) as Hle.
        unfold nProcessing in Hle. lia. }
  destruct Hts as (Hts & Hp & Hf). repeat split; try done.
  intros now. unfold availableRateLimitSlots. by rewrite Hts.
Qed.

Lemma X6_witness :
  jobStartTimestamps (handle (CancelJob "j1") fiveSubmitted)
  = [1000; 1001; 1002; 1003]
  ∧ processingJobs (handle (CancelJob "j1") fiveSubmitted) ≤ 4.
Proof.
  destruct (X6_only_ticks_start_work (CancelJob "j1") fiveSubmitted)
    as (Hts & _ & Hp & _).
  - intros now stamp H. discriminate H.
  - split; [rewrite Hts; vm_compute; reflexivity|].
    etrans; [exact Hp|]. vm_compute. intros H. discriminate H.
Defined.

(** ** Saving an API key *)

(** X7.  [handleSaveApiKey] ignores an empty key.  A non-empty key is
    stored for its provider and only for it, the provider and only it is
    removed from the quota set, and jobs, dispatches, marks and timestamps
    are left alone.  Afterwards every job of that provider passes the
    credential test of the tick, no job loses its credential, and if no
    other provider is flagged the next tick is not halted. *)
Theorem X7_save_key (s : State) (provider : Provider) (newKey : string) :
  (newKey = "" → handleSaveApiKey provider newKey s = s)
  ∧ (newKey ≠ "" →
       let s' := handleSaveApiKey provider newKey s in
       apiKeys s' !! provider = Some (Some newKey)
       ∧ (∀ p, p ≠ provider → apiKeys s' !! p = apiKeys s !! p)
       ∧ quotaExceededProviders s' = quotaExceededProviders s ∖ {[ provider ]}
       ∧ jobs s' = jobs s ∧ inFlight s' = inFlight s
       ∧ cancelledJobIds s' = cancelledJobIds s
       ∧ jobStartTimestamps s' = jobStartTimestamps s
       ∧ (∀ j, providerOf j = Some provider →
               hasCredential (apiKeys s') j = true)
       ∧ (∀ j, hasCredential (apiKeys s) j = true →
               hasCredential (apiKeys s') j = true)
       ∧ (quotaExceededProviders s ⊆ {[ provider ]} →
            ∀ now, startedJobs now s' = jobsToStart now s')).
Proof.
  unfold handleSaveApiKey. split; intros Hkey.
  - by rewrite decide_True.
  - rewrite decide_False by done. simpl.
    split; [apply lookup_insert_eq|].
    split; [intros p Hp; by apply lookup_insert_ne|].
    repeat split; try done.
    + intros j Hp. unfold hasCredential, providerOf in *.
      destruct (findModel j) as [m|]; [|done]. simpl in Hp.
      injection Hp as ->. rewrite lookup_insert_eq. simpl.
      by rewrite bool_decide_eq_false_2.
    + intros j. unfold hasCredential. destruct (findModel j) as [m|]; [|done].
      destruct (decide (ModelInfo.provider m = provider)) as [->|Hne].
      * intros _. rewrite lookup_insert_eq. simpl.
        by rewrite bool_decide_eq_false_2.
      * by rewrite lookup_insert_ne.
    + intros Hsub now. unfold startedJobs. simpl.
      rewrite decide_True; [done|]. set_solver.
Qed.

Lemma X7_witness :
  let flagged := settle 0 (Rejected (QuotaExceededError "quota")) twoInFlight in
  quotaExceededProviders (handleSaveApiKey gemini "fresh-key" flagged) = ∅
  ∧ apiKeys (handleSaveApiKey gemini "fresh-key" flagged) !! gemini
    = Some (Some "fresh-key")
  ∧ handleSaveApiKey gemini "" flagged = flagged.
Proof.
  intros flagged.
  destruct (X7_save_key flagged gemini "fresh-key") as [_ Hset].
  destruct (X7_save_key flagged gemini "") as [Hempty _].
  destruct Hset as (Hkey & _ & Hq & _); [discriminate|].
  split; [|split].
  - rewrite Hq. vm_compute. reflexivity.
  - exact Hkey.
  - apply Hempty. reflexivity.
Defined.

(** ** Dispatches and marks under the events the page offers *)















(** * The dispatcher *)

Lemma orElse_nonempty a b : b ≠ "" → orElse a b ≠ "".
Proof. intros Hb. unfold orElse. destruct a as [s|]; [by case_decide|done]. Qed.

Lemma messageOrUnknown_nonempty msg : msg ≠ "" → messageOrUnknown msg = msg.
Proof. intros. unfold messageOrUnknown. by rewrite decide_False. Qed.

Lemma generateVideoWithGemini_message net job apiKey e :
  generateVideoWithGemini net job apiKey = Threw e → message e ≠ "".
Proof.
  unfold generateVideoWithGemini.
  destruct net; simpl;
    repeat match goal with
      | |- context [if ?b then _ else _] => destruct b
      end;
    intros [= <-]; simpl; try done; by repeat apply orElse_nonempty.
Qed.

Lemma generateVideoWithDeepAI_message net job apiKey e :
  generateVideoWithDeepAI net job apiKey = Threw e → message e ≠ "".
Proof.
  unfold generateVideoWithDeepAI. case_decide; [by intros [= <-]|].
  destruct net; simpl; try case_decide; intros [= <-]; simpl; try done;
    by apply orElse_nonempty.
Qed.

Lemma generateImagesWithGemini_message net job apiKey e :
  generateImagesWithGemini net job apiKey = Threw e → message e ≠ "".
Proof.
  unfold generateImagesWithGemini.
  destruct net; simpl; [|done].
  match goal with |- context [if ?b then _ else _] => destruct b end;
    intros [= <-]; simpl; try done; by repeat apply orElse_nonempty.
Qed.

Lemma generateVideo_message net job apiKeys e :
  generateVideo net job apiKeys = Threw e → message e ≠ "".
Proof.
  unfold generateVideo.
  destruct (List.find _ VIDEO_MODELS) as [m|]; [|by intros [= <-]].
  destruct (apiKeys !! ModelInfo.provider m) as [[apiKey|]|];
    [|by intros [= <-]; destruct (ModelInfo.provider m)..].
  case_decide; [by intros [= <-]; destruct (ModelInfo.provider m)|].
  destruct (ModelInfo.provider m);
    eauto using generateVideoWithGemini_message,
      generateVideoWithDeepAI_message;
    by intros [= <-].
Qed.

Lemma generateImages_message net job apiKeys e :
  generateImages net job apiKeys = Threw e → message e ≠ "".
Proof.
  unfold generateImages.
  destruct (List.find _ IMAGE_MODELS) as [m|]; [|by intros [= <-]].
  destruct (apiKeys !! ModelInfo.provider m) as [[apiKey|]|];
    [|by intros [= <-]; destruct (ModelInfo.provider m)..].
  repeat case_decide;
    eauto using generateImagesWithGemini_message;
    intros [= <-]; simpl; try done; by destruct (ModelInfo.provider m).
Qed.

(** X10.  Every error [processJob] rejects with has a non-empty message:
    the provider functions wrap what they catch with a fallback text and
    throw fixed or prefixed messages themselves.  So the scheduler's own
    fallback text is never what a Failed job shows for a rejection by
    [processJob]. *)
Theorem X10_rejections_carry_a_message (net : Network) (job : Job)
    (apiKeys : gmap Provider (option string)) (e : DispatchError) :
  processJob net job apiKeys = Rejected e →
  message e ≠ "" ∧ messageOrUnknown (message e) = message e.
Proof.
  intros Hp. assert (message e ≠ "") as Hne.
  { unfold processJob in Hp. case_decide.
    - destruct (generateImages net job apiKeys) eqn:Hg; [done|].
      injection Hp as <-. by eapply generateImages_message.
    - destruct (generateVideo net job apiKeys) eqn:Hg; [done|].
      injection Hp as <-. by eapply generateVideo_message. }
  split; [done|by apply messageOrUnknown_nonempty].
Qed.

Lemma X10_witness :
  messageOrUnknown "Lỗi không xác định khi tạo video."
  = "Lỗi không xác định khi tạo video.".
Proof.
  refine (proj2 (X10_rejections_carry_a_message
    {| geminiVideo := GeminiVideoThrew
         {| errorErrorMessage := None; errorMessage := Some "";
            errorErrorStatus := None |};
       deepaiVideo := DeepAINoUrl;
       geminiImages := GeminiImagesReturned [] |}
    (formatJob ("j1", veo "one")) geminiKeys
    (OtherError "Lỗi không xác định khi tạo video.") _)).
  vm_compute. reflexivity.
Defined.

Lemma truthy_key key : key ≠ "" → truthy (Some (Some key)) = true.
Proof. intros. simpl. by rewrite bool_decide_eq_false_2. Qed.

(** An outcome other than a plain error needs a job some provider function
    can serve and a key for its provider. *)
Lemma processJob_not_other net job apiKeys :
  (∀ msg, processJob net job apiKeys ≠ Rejected (OtherError msg)) →
  servable job ∧ hasCredential apiKeys job = true.
Proof.
  unfold processJob, servable, hasCredential, providerOf, findModel,
    modelListOf.
  intros Hno. destruct (decide (inputType job = TextToImage)) as [Hit|Hit].
  - unfold generateImages in Hno.
    destruct (List.find _ IMAGE_MODELS) as [m|] eqn:Hfind;
      [|exfalso; eapply Hno; reflexivity].
    apply find_some in Hfind as [Hin _].
    destruct Hin as [<-|[<-|[]]]; simpl in *.
    + destruct (apiKeys !! gemini) as [[apiKey|]|];
        [|exfalso; eapply Hno; reflexivity..].
      destruct (decide (apiKey = "")); [exfalso; eapply Hno; reflexivity|].
      split; [by left|by apply truthy_key].
    + destruct (apiKeys !! sora) as [[apiKey|]|];
        [|exfalso; eapply Hno; reflexivity..].
      destruct (decide (apiKey = "")); exfalso; eapply Hno; reflexivity.
  - unfold generateVideo in Hno.
    destruct (List.find _ VIDEO_MODELS) as [m|] eqn:Hfind;
      [|exfalso; eapply Hno; reflexivity].
    apply find_some in Hfind as [Hin _].
    destruct Hin as [<-|[<-|[<-|[<-|[<-|[<-|[]]]]]]]; simpl in *;
      match goal with
      | |- context [apiKeys !! ?p] =>
          destruct (apiKeys !! p) as [[apiKey|]|];
            [|exfalso; eapply Hno; reflexivity..]
      end;
      (destruct (decide (apiKey = "")); [exfalso; eapply Hno; reflexivity|]);
      try (exfalso; eapply Hno; reflexivity).
    + split; [by left|by apply truthy_key].
    + unfold generateVideoWithDeepAI in Hno.
      destruct (decide (inputType job = ImageToVideo));
        [exfalso; eapply Hno; reflexivity|].
      split; [|by apply truthy_key]. right. split; [done|].
      by destruct (inputType job).
Qed.

Lemma processJob_fulfilled (net : Network) (job : Job)
    (apiKeys : gmap Provider (option string)) (r : Result) :
  processJob net job apiKeys = Fulfilled r →
  servable job ∧ hasCredential apiKeys job = true
  ∧ match r with
    | VideoResult _ => inputType job ≠ TextToImage
    | ImagesResult _ => inputType job = TextToImage
    end.
Proof.
  intros Hp. split; [|split].
  - apply (processJob_not_other net job apiKeys). intros msg. by rewrite Hp.
  - apply (processJob_not_other net job apiKeys). intros msg. by rewrite Hp.
  - unfold processJob in Hp. case_decide.
    + destruct (generateImages net job apiKeys); [|done]. by injection Hp as <-.
    + destruct (generateVideo net job apiKeys); [|done]. by injection Hp as <-.
Qed.

(** X11.  [processJob] is fulfilled only for a job a provider function can
    serve (a Gemini model, or the DeepAI video model with a text prompt) and
    only with a key for its provider; an image job is fulfilled with a
    sequence of URLs and any other job with one URL. *)
Theorem X11_fulfilment_needs_capable_provider (net : Network) (job : Job)
    (apiKeys : gmap Provider (option string)) (r : Result) :
  processJob net job apiKeys = Fulfilled r →
  servable job ∧ hasCredential apiKeys job = true
  ∧ match r with
    | VideoResult _ => inputType job ≠ TextToImage
    | ImagesResult _ => inputType job = TextToImage
    end.
Proof. apply processJob_fulfilled. Qed.

Lemma X11_witness :
  servable (formatJob ("j1", veo "one"))
  ∧ hasCredential geminiKeys (formatJob ("j1", veo "one")) = true.
Proof.
  destruct (X11_fulfilment_needs_capable_provider
    {| geminiVideo := GeminiVideoSaved "blob:video-1";
       deepaiVideo := DeepAINoUrl;
       geminiImages := GeminiImagesReturned [] |}
    (formatJob ("j1", veo "one")) geminiKeys (VideoResult "blob:video-1"))
    as (Hs & Hc & _).
  - vm_compute. reflexivity.
  - split; [exact Hs|exact Hc].
Defined.

Lemma processJob_quota (net : Network) (job : Job)
    (apiKeys : gmap Provider (option string)) (msg : string) :
  processJob net job apiKeys = Rejected (QuotaExceededError msg) →
  hasCredential apiKeys job = true
  ∧ ((providerOf job = Some gemini ∧ msg = "Hạn ngạch API Gemini đã hết.")
     ∨ (providerOf job = Some deepai ∧ inputType job = TextToVideo
        ∧ msg = "Hạn ngạch API DeepAI đã hết hoặc bạn đang gửi yêu cầu quá nhanh.")).
Proof.
  intros Hp.
  destruct (processJob_not_other net job apiKeys) as [Hs Hc];
    [intros m; by rewrite Hp|].
  split; [done|].
  unfold hasCredential in Hc. unfold servable, providerOf in Hs.
  unfold providerOf. unfold processJob in Hp. unfold findModel, modelListOf in *.
  destruct (decide (inputType job = TextToImage)) as [Hit|Hit].
  - unfold generateImages in Hp.
    destruct (List.find _ IMAGE_MODELS) as [m|]; [|done]. simpl in Hs. simpl.
    destruct (apiKeys !! ModelInfo.provider m) as [[apiKey|]|]; try done.
    destruct (decide (apiKey = "")) as [->|]; [done|].
    destruct Hs as [[= Hg]|[[= Hd] Htv]]; [|congruence]. left.
    split; [by rewrite Hg|].
    assert (Hgem : generateImagesWithGemini (geminiImages net) job apiKey
                   = Threw (QuotaExceededError msg)).
    { repeat case_decide; try done;
        destruct (generateImagesWithGemini (geminiImages net) job apiKey);
        congruence. }
    unfold generateImagesWithGemini in Hgem.
    destruct (geminiImages net); [|done].
    match type of Hgem with context [if ?b then _ else _] => destruct b end;
      congruence.
  - unfold generateVideo in Hp.
    destruct (List.find _ VIDEO_MODELS) as [m|]; [|done]. simpl in Hs. simpl.
    destruct (apiKeys !! ModelInfo.provider m) as [[apiKey|]|]; try done.
    destruct (decide (apiKey = "")) as [->|]; [done|].
    destruct Hs as [[= Hg]|[[= Hd] Htv]].
    all: try (left; split; [by rewrite Hg|]; rewrite Hg in Hp;
              unfold generateVideoWithGemini in Hp;
              destruct (geminiVideo net); simpl in Hp;
              repeat match type of Hp with
                | context [if ?b then _ else _] => destruct b
                end; congruence).
    all: right; split; [by rewrite Hd|]; split; [done|]; rewrite Hd in Hp;
      unfold generateVideoWithDeepAI in Hp;
      destruct (decide (inputType job = ImageToVideo)); [done|];
      destruct (deepaiVideo net); simpl in Hp;
      repeat match type of Hp with
        | context [if ?b then _ else _] => destruct b
        end; congruence.
Qed.

(** X12.  [processJob] rejects with a [QuotaExceededError] only for a job of
    Gemini or of DeepAI that has a key, and the error carries the fixed
    quota message of that provider. *)
Theorem X12_quota_errors_come_from_two_providers (net : Network) (job : Job)
    (apiKeys : gmap Provider (option string)) (msg : string) :
  processJob net job apiKeys = Rejected (QuotaExceededError msg) →
  hasCredential apiKeys job = true
  ∧ ((providerOf job = Some gemini ∧ msg = "Hạn ngạch API Gemini đã hết.")
     ∨ (providerOf job = Some deepai ∧ inputType job = TextToVideo
        ∧ msg = "Hạn ngạch API DeepAI đã hết hoặc bạn đang gửi yêu cầu quá nhanh.")).
Proof. apply processJob_quota. Qed.

Lemma X12_witness :
  hasCredential {[ deepai := Some "deepai-key" ]}
                (formatJob ("j1", deepaiText "one")) = true
  ∧ providerOf (formatJob ("j1", deepaiText "one")) = Some deepai.
Proof.
  destruct (X12_quota_errors_come_from_two_providers busyNetwork
              (formatJob ("j1", deepaiText "one"))
              {[ deepai := Some "deepai-key" ]}
              "Hạn ngạch API DeepAI đã hết hoặc bạn đang gửi yêu cầu quá nhanh.")
    as [Hc [[Hg _]|[Hd _]]].
  - vm_compute. reflexivity.
  - vm_compute in Hg. discriminate Hg.
  - split; [exact Hc|exact Hd].
Defined.

(** X13.  For a job that fails the credential test of the tick (no model
    of that name in the list of its input type, or no non-empty key for the
    provider), [processJob] rejects without calling any provider: the
    outcome is the same on every network, the missing-model error or the
    missing-key error naming the provider in upper case. *)
Theorem X13_no_credential_rejected_without_network (job : Job)
    (apiKeys : gmap Provider (option string)) :
  hasCredential apiKeys job = false →
  ∃ e, (e = missingModel job
        ∨ ∃ provider, providerOf job = Some provider ∧ e = missingKey provider)
     ∧ ∀ net, processJob net job apiKeys = Rejected e.
Proof.
  unfold hasCredential, providerOf, findModel, modelListOf, processJob,
    generateImages, generateVideo.
  destruct (decide (inputType job = TextToImage)) as [Hit|Hit];
    (destruct (List.find _ _) as [m|];
       [|intros _; exists (missingModel job); split; [by left|done]]);
    simpl; intros Hkey; exists (missingKey (ModelInfo.provider m));
    (split; [right; eauto|]); intros net;
    destruct (apiKeys !! ModelInfo.provider m) as [[apiKey|]|]; try done;
    simpl in Hkey; apply negb_false_iff, bool_decide_eq_true in Hkey;
    by rewrite decide_True.
Qed.

Lemma X13_witness :
  processJob busyNetwork (formatJob ("k1", kling1 "k")) geminiKeys
  = Rejected (OtherError "Vui lòng cung cấp khóa API cho KLING.").
Proof.
  destruct (X13_no_credential_rejected_without_network
              (formatJob ("k1", kling1 "k")) geminiKeys)
    as (e & _ & Hall).
  - vm_compute. reflexivity.
  - pose proof (Hall busyNetwork) as H. vm_compute in H.
    injection H as <-. vm_compute. reflexivity.
Defined.

(** ** The scheduler with [processJob] as its dispatcher *)

Lemma reachableWithService_reachable s : reachableWithService s → reachable s.
Proof. induction 1; by constructor. Qed.

Lemma quota_settle_cases i o s d :
  inFlight s !! i = Some d →
  quotaExceededProviders (settle i o s) = quotaExceededProviders s
  ∨ ∃ msg provider,
      o = Rejected (QuotaExceededError msg) ∧ providerOf d = Some provider
      ∧ quotaExceededProviders (settle i o s)
        = quotaExceededProviders s ∪ {[ provider ]}.
Proof.
  intros Hd. unfold settle. rewrite Hd.
  destruct o as [r|[msg|msg]]; simpl; unfold onFulfilled, onRejected; simpl;
    case_decide; simpl; try by left.
  destruct (providerOf d) as [provider|]; [|by left]. right. eauto.
Qed.

(** X14.  With [processJob] as the dispatcher, only [gemini] and [deepai]
    are ever in [quotaExceededProviders]: the other provider functions never
    throw a [QuotaExceededError]. *)
Theorem X14_only_two_providers_flagged (s : State) :
  reachableWithService s →
  quotaExceededProviders s ⊆ {[ gemini; deepai ]}.
Proof.
  induction 1 as [keys|e s Hs IH He Hv]; [simpl; set_solver|].
  destruct e as [now stamp|newJobs|provider newKey|jobId|jobId|i o]; simpl;
    try done.
  - by destruct (processQueue_fields now stamp s) as (_ & _ & _ & _ & -> & _).
  - unfold handleSaveApiKey. case_decide; [done|]. simpl. set_solver.
  - destruct Hv as (d & net & apiKeys & Hd & ->).
    destruct (quota_settle_cases i (processJob net d apiKeys) s d Hd)
      as [->|(msg & provider & Hq & Hp & ->)]; [done|].
    apply processJob_quota in Hq
      as [_ [[Hg _]|[Hg _]]]; rewrite Hp in Hg; injection Hg as ->; set_solver.
Qed.

Lemma reachableWithService_run es s :
  reachableWithService s → enabledAll es s →
  Forall (λ e, ∀ i o, e ≠ Settle i o) es →
  reachableWithService (run es s).
Proof.
  intros Hs Hen Hes. revert s Hs Hen.
  induction Hes as [|e es He _ IH]; intros s Hs Hen; [done|].
  destruct Hen as [Hen1 Hen2]. apply IH; [|done].
  apply service_handle; [done..|]. destruct e; try done. by destruct (He i o).
Qed.

Lemma reachableWithService_run_settle es s i d net apiKeys :
  reachableWithService s → enabledAll es s →
  Forall (λ e, ∀ i o, e ≠ Settle i o) es →
  inFlight (run es s) !! i = Some d →
  reachableWithService (settle i (processJob net d apiKeys) (run es s)).
Proof.
  intros Hs Hen Hes Hd.
  apply (service_handle (Settle i (processJob net d apiKeys))).
  - by apply reachableWithService_run.
  - simpl. eauto.
  - simpl. eauto.
Qed.

Lemma X14_witness :
  quotaExceededProviders
    (settle 0 (processJob busyNetwork (formatJob ("j1", deepaiText "one"))
                          {[ deepai := Some "deepai-key" ]})
       (run [ AddJobs [("j1", deepaiText "one")]; Tick 1000 (clock 1000) ]
            (initial {[ deepai := Some "deepai-key" ]})))
  ⊆ {[ gemini; deepai ]}.
Proof.
  apply X14_only_two_providers_flagged.
  apply reachableWithService_run_settle.
  - constructor.
  - apply (bool_decide_unpack _). vm_compute. exact I.
  - repeat constructor; intros i o H; discriminate H.
  - vm_compute. reflexivity.
Defined.

Lemma servable_ext j d :
  model j = model d → inputType j = inputType d → servable d → servable j.
Proof.
  unfold servable, providerOf, findModel. by intros -> ->.
Qed.

Lemma request_settleJob d o j :
  model (settleJob d o j) = model j ∧ inputType (settleJob d o j) = inputType j.
Proof.
  destruct o as [[]|e]; simpl; [done..|].
  destruct (isQuotaExceeded e), (providerOf d); simpl; try done;
    unfold retryOrFail; by case_decide.
Qed.

Lemma serviceInvariant_initial storedKeys : serviceInvariant (initial storedKeys).
Proof. split; simpl; [intros d j ?%elem_of_nil|intros j ?%elem_of_nil]; done. Qed.

Lemma serviceInvariant_updateJob jobId f s :
  (∀ j, id (f j) = id j ∧ model (f j) = model j ∧ inputType (f j) = inputType j) →
  (∀ j, status (f j) ≠ Completed) →
  serviceInvariant s → serviceInvariant (set_jobs (updateJob jobId f) s).
Proof.
  intros Hf Hst [Hsnap Hdone]. split; simpl.
  - intros d j' Hd (j & Hj & ->)%elem_of_updateJob.
    destruct (decide (id j = jobId)); [|by apply Hsnap].
    destruct (Hf j) as (-> & -> & ->). by apply Hsnap.
  - intros j' (j & Hj & ->)%elem_of_updateJob.
    destruct (decide (id j = jobId)); [|by apply Hdone].
    intros Hc. by destruct (Hst j).
Qed.

Lemma serviceInvariant_processQueue now stamp s :
  NoDup (ids (jobs s)) →
  serviceInvariant s → serviceInvariant (processQueue now stamp s).
Proof.
  intros Hnd [Hsnap Hdone].
  destruct (processQueue_fields now stamp s) as (Hj & Hf & _).
  split.
  - intros d j'. rewrite Hj, Hf, startAll_map.
    intros Hd (j & -> & Hjin)%list_elem_of_fmap_1.
    assert (Hreq : id j = id d →
                   model j = model d ∧ inputType j = inputType d).
    { intros Hid'.
      apply elem_of_app in Hd as [Hd|Hd]; [by apply Hsnap|].
      destruct (startedJobs_elem now s d Hd) as (Hdin & _).
      by rewrite (NoDup_ids_inj (jobs s) j d Hnd Hjin Hdin Hid'). }
    destruct (decide (id j ∈ ids (startedJobs now s))); exact Hreq.
  - intros j'. rewrite Hj, startAll_map.
    intros (j & -> & Hjin)%list_elem_of_fmap_1.
    destruct (decide (id j ∈ ids (startedJobs now s))); [done|].
    by apply Hdone.
Qed.

Lemma serviceInvariant_handleAddJobs newJobs s :
  enabled (AddJobs newJobs) s → invariant s →
  serviceInvariant s → serviceInvariant (handleAddJobs newJobs s).
Proof.
  simpl. intros Hfresh [_ _ _ _ Hfl] [Hsnap Hdone].
  apply NoDup_app in Hfresh as (_ & Hdisj & _). split; simpl.
  - intros d j Hd [Hj|Hj]%elem_of_app Hid; [by apply Hsnap|].
    apply list_elem_of_fmap_1 in Hj as ([uuid t] & -> & Hp). simpl in Hid.
    destruct (proj1 (Forall_forall _ _) Hfl d Hd) as [Hin _].
    destruct (Hdisj (id d) Hin). rewrite <- Hid.
    by apply (list_elem_of_fmap_2 fst) in Hp.
  - intros j [Hj|Hj]%elem_of_app; [by apply Hdone|].
    by apply list_elem_of_fmap_1 in Hj as ([uuid t] & -> & Hp).
Qed.

Lemma serviceInvariant_settle i d net apiKeys s :
  inFlight s !! i = Some d →
  serviceInvariant s →
  serviceInvariant (settle i (processJob net d apiKeys) s).
Proof.
  intros Hd [Hsnap Hdone]. set (o := processJob net d apiKeys).
  destruct (settle_fields i o s d Hd) as (Hf & _ & _ & _ & Hm & Hu).
  apply list_elem_of_lookup_2 in Hd as Hdin.
  destruct (decide (id d ∈ cancelledJobIds s)) as [Hin|Hnin].
  - destruct (Hm Hin) as (Hj & _). split.
    + intros d' j. rewrite Hf, Hj. intros Hd'%list_elem_of_delete_inv.
      by apply Hsnap.
    + intros j. rewrite Hj. apply Hdone.
  - destruct (Hu Hnin) as (Hj & _). split.
    + intros d' j'. rewrite Hf, Hj.
      intros Hd'%list_elem_of_delete_inv (j & Hjin & ->)%elem_of_updateJob.
      destruct (decide (id j = id d)); [|by apply Hsnap].
      destruct (request_settleJob d o j) as [-> ->].
      rewrite id_settleJob. by apply Hsnap.
    + intros j'. rewrite Hj. intros (j & Hjin & ->)%elem_of_updateJob.
      destruct (decide (id j = id d)) as [Hid|Hne]; [|by apply Hdone].
      destruct (Hsnap d j Hdin Hjin Hid) as [Hmod Hit].
      destruct o as [r|e] eqn:Ho.
      * intros _. apply processJob_fulfilled in Ho as (Hs & _ & Hkind).
        split; [by apply (servable_ext _ d); destruct r|].
        destruct r; simpl; rewrite Hit; split; done.
      * simpl. destruct (isQuotaExceeded e), (providerOf d); simpl; try done;
          unfold retryOrFail; by case_decide.
Qed.

Lemma reachableWithService_invariant s :
  reachableWithService s → serviceInvariant s.
Proof.
  induction 1 as [keys|e s Hs IH He Hv]; [apply serviceInvariant_initial|].
  pose proof (reachable_invariant s (reachableWithService_reachable s Hs))
    as Hinv.
  destruct e as [now stamp|newJobs|provider newKey|jobId|jobId|i o]; simpl.
  - apply serviceInvariant_processQueue; [apply Hinv|done].
  - by apply serviceInvariant_handleAddJobs.
  - unfold handleSaveApiKey. case_decide; [done|]. by destruct IH.
  - by apply serviceInvariant_updateJob.
  - apply (serviceInvariant_updateJob jobId (failWith MSG_CANCELLED)
             (set_cancelled (λ c, c ∪ {[ jobId ]}) s)); try done.
    by destruct IH.
  - destruct Hv as (d & net & apiKeys & Hd & ->).
    by apply serviceInvariant_settle.
Qed.

(** X15.  With [processJob] as the dispatcher, a Completed job is always
    one a provider function can serve (a job of Sora, Kling, Minimax, Azure
    or DALL-E never completes), and it has the result field of its kind:
    [resultUrls] for an image job, [resultUrl] for any other. *)
Theorem X15_completed_jobs_were_served (s : State) :
  reachableWithService s →
  ∀ j, j ∈ jobs s → status j = Completed →
    servable j
    ∧ (inputType j = TextToImage → resultUrls j ≠ None)
    ∧ (inputType j ≠ TextToImage → resultUrl j ≠ None).
Proof. intros Hs. apply reachableWithService_invariant in Hs. apply Hs. Qed.

Lemma X15_witness :
  Forall (λ j, status j = Completed →
               servable j
               ∧ (inputType j = TextToImage → resultUrls j ≠ None)
               ∧ (inputType j ≠ TextToImage → resultUrl j ≠ None))
    (jobs (settle 0 (processJob busyNetwork (formatJob ("j1", veo "one"))
                                geminiKeys)
             (run [ AddJobs [("j1", veo "one")]; Tick 1000 (clock 1000) ]
                  (initial geminiKeys)))).
Proof.
  apply Forall_forall. apply X15_completed_jobs_were_served.
  apply reachableWithService_run_settle.
  - constructor.
  - apply (bool_decide_unpack _). vm_compute. exact I.
  - repeat constructor; intros i o H; discriminate H.
  - vm_compute. reflexivity.
Defined.

(** * The form, the downloads and the key display *)

(** ** Models the form offers and the credential test of the tick *)

Lemma elem_of_availableProviders provider apiKeys :
  provider ∈ availableProviders apiKeys ↔ truthy (apiKeys !! provider) = true.
Proof.
  unfold availableProviders. split.
  - intros ([p key] & -> & Hin)%list_elem_of_fmap_1.
    apply list_elem_of_filter in Hin as [Ht Hin].
    apply elem_of_map_to_list in Hin. simpl in *. by rewrite Hin.
  - intros Ht. destruct (apiKeys !! provider) as [key|] eqn:Hk; [|done].
    apply (list_elem_of_fmap_2' fst _ (provider, key)); [|done].
    apply list_elem_of_filter. split; [done|]. by apply elem_of_map_to_list.
Qed.

(** The identifiers of each model table are distinct: looking a model up by
    its identifier finds that model. *)
Lemma modelListOf_find inputType m :
  m ∈ modelListOf inputType →
  List.find (λ m', bool_decide (ModelInfo.id m' = ModelInfo.id m))
            (modelListOf inputType) = Some m.
Proof.
  unfold modelListOf. case_decide; intros Hin;
    repeat (apply elem_of_cons in Hin as [->|Hin]; [vm_compute; reflexivity|]);
    by apply elem_of_nil in Hin.
Qed.

Lemma offered_model_has_credential apiKeys job m :
  m ∈ getAvailableModels (availableProviders apiKeys) (inputType job) →
  ModelInfo.id m = model job →
  findModel job = Some m ∧ hasCredential apiKeys job = true.
Proof.
  unfold getAvailableModels. case_decide; [by intros ?%elem_of_nil|].
  intros [Hp Hin]%list_elem_of_filter Hid.
  assert (Hfind : findModel job = Some m).
  { unfold findModel. rewrite <- Hid. by apply modelListOf_find. }
  split; [done|]. unfold hasCredential. rewrite Hfind.
  by apply elem_of_availableProviders.
Qed.

(** X16.  The models [JobInputForm] offers for an input type are exactly
    the models that pass the credential test of the tick: a job has a
    credential if and only if its model is one [getAvailableModels] returns
    for its input type under the current keys. *)
Theorem X16_offered_models_are_dispatchable
    (apiKeys : gmap Provider (option string)) (job : Job) :
  hasCredential apiKeys job = true
  ↔ ∃ m, m ∈ getAvailableModels (availableProviders apiKeys) (inputType job)
         ∧ ModelInfo.id m = model job.
Proof.
  split.
  - unfold hasCredential, findModel.
    destruct (List.find _ _) as [m|] eqn:Hfind; [|done]. intros Ht.
    apply find_some in Hfind as [Hin Hid].
    apply bool_decide_eq_true in Hid. apply list_elem_of_In in Hin.
    apply elem_of_availableProviders in Ht.
    exists m. split; [|done]. unfold getAvailableModels.
    rewrite decide_False.
    + apply list_elem_of_filter. done.
    + intros Hz%length_zero_iff_nil. rewrite Hz in Ht.
      by apply elem_of_nil in Ht.
  - intros (m & Hin & Hid). by eapply offered_model_has_credential.
Qed.

Lemma every_provider_has_a_video_model provider :
  ∃ m, m ∈ VIDEO_MODELS ∧ ModelInfo.provider m = provider.
Proof.
  apply Exists_exists.
  destruct provider; apply (bool_decide_unpack _); vm_compute; exact I.
Qed.

Lemma hasAnyKey_availableProviders apiKeys :
  hasAnyKey apiKeys = true ↔ availableProviders apiKeys ≠ [].
Proof.
  unfold hasAnyKey, availableProviders.
  rewrite bool_decide_eq_true, Exists_exists. split.
  - intros (entry & Hin & Ht) Hnil.
    apply fmap_nil_inv in Hnil.
    assert (entry ∈ filter (λ entry, truthy (Some entry.2) = true)
                           (map_to_list apiKeys))
      by (by apply list_elem_of_filter).
    rewrite Hnil in H. by apply elem_of_nil in H.
  - intros Hne.
    destruct (filter _ (map_to_list apiKeys)) as [|entry l] eqn:Hf; [done|].
    assert (Hin : entry ∈ filter (λ entry, truthy (Some entry.2) = true)
                                 (map_to_list apiKeys))
      by (rewrite Hf; apply elem_of_cons; by left).
    apply list_elem_of_filter in Hin as [Ht Hin]. eauto.
Qed.

(** X17.  The form is enabled exactly when some provider has a key, and
    then its default template names a model: the first video model of a
    provider with a key, which the tick will dispatch.  Without any key the
    default template has the empty model and no model is offered for any
    input type. *)
Theorem X17_default_template_dispatchable
    (apiKeys : gmap Provider (option string)) (uuid : string) :
  (hasAnyKey apiKeys = true ↔ availableProviders apiKeys ≠ [])
  ∧ (hasAnyKey apiKeys = true →
       JobTemplate.model (createDefaultJob (availableProviders apiKeys)) ≠ ""
       ∧ hasCredential apiKeys
           (formatJob (uuid, createDefaultJob (availableProviders apiKeys)))
         = true)
  ∧ (hasAnyKey apiKeys = false →
       JobTemplate.model (createDefaultJob (availableProviders apiKeys)) = ""
       ∧ ∀ inputType,
           getAvailableModels (availableProviders apiKeys) inputType = []).
Proof.
  split; [apply hasAnyKey_availableProviders|]. split.
  - intros Hany%hasAnyKey_availableProviders.
    destruct (availableProviders apiKeys) as [|p ps] eqn:Hap; [done|].
    destruct (every_provider_has_a_video_model p) as (m0 & Hm0 & Hp0).
    assert (Hm0' : m0 ∈ getAvailableModels (p :: ps) TextToVideo).
    { unfold getAvailableModels. rewrite decide_False by done.
      apply list_elem_of_filter. split; [|done].
      rewrite Hp0. apply elem_of_cons. by left. }
    destruct (getAvailableModels (p :: ps) TextToVideo) as [|m ms] eqn:Hg;
      [by apply elem_of_nil in Hm0'|].
    assert (Hm : m ∈ getAvailableModels (p :: ps)
                       (inputType (formatJob (uuid,
                          createDefaultJob (p :: ps))))).
    { simpl. rewrite Hg. apply elem_of_cons. by left. }
    assert (Hid : ModelInfo.id m = JobTemplate.model (createDefaultJob (p :: ps))).
    { unfold createDefaultJob. simpl. by rewrite Hg. }
    split.
    + rewrite <- Hid.
      assert (Hin : m ∈ VIDEO_MODELS).
      { assert (Hmm : m ∈ getAvailableModels (p :: ps) TextToVideo)
          by (rewrite Hg; apply elem_of_cons; by left).
        unfold getAvailableModels in Hmm. rewrite decide_False in Hmm by done.
        by apply list_elem_of_filter in Hmm as [_ Hmm]. }
      repeat (apply elem_of_cons in Hin as [->|Hin]; [done|]).
      by apply elem_of_nil in Hin.
    + pose proof (offered_model_has_credential apiKeys
                    (formatJob (uuid, createDefaultJob (p :: ps))) m) as Hoff.
      rewrite Hap in Hoff. by apply Hoff.
  - intros Hnone.
    assert (Hap : availableProviders apiKeys = []).
    { destruct (availableProviders apiKeys) eqn:Hap; [done|].
      assert (hasAnyKey apiKeys = true)
        by (apply hasAnyKey_availableProviders; by rewrite Hap).
      congruence. }
    rewrite Hap. split; [reflexivity|]. intros inputType. reflexivity.
Qed.

Lemma X17_witness :
  JobTemplate.model (createDefaultJob (availableProviders geminiKeys))
  = "veo-2.0-generate-001"
  ∧ hasCredential geminiKeys
      (formatJob ("j1", createDefaultJob (availableProviders geminiKeys)))
    = true.
Proof.
  destruct (X17_default_template_dispatchable geminiKeys "j1")
    as (_ & Hyes & _).
  destruct Hyes as [_ Hc]; [vm_compute; reflexivity|].
  split; [vm_compute; reflexivity|exact Hc].
Defined.

Lemma X16_witness :
  ∃ m, m ∈ getAvailableModels (availableProviders geminiKeys) TextToVideo
       ∧ ModelInfo.id m = "veo-2.0-generate-001".
Proof.
  apply (proj1 (X16_offered_models_are_dispatchable geminiKeys
                  (formatJob ("j1", veo "one")))).
  vm_compute. reflexivity.
Defined.

(** ** Downloads *)

Lemma list_ascii_app a b :
  String.list_ascii_of_string (a +:+ b)
  = String.list_ascii_of_string a ++ String.list_ascii_of_string b.
Proof. induction a as [|c a IH]; simpl; [done|]. by rewrite IH. Qed.

Lemma list_ascii_inj a b :
  String.list_ascii_of_string a = String.list_ascii_of_string b → a = b.
Proof.
  intros H. rewrite <- (String.string_of_list_ascii_of_string a),
    <- (String.string_of_list_ascii_of_string b). by rewrite H.
Qed.

Lemma append_inv_head a b c : a +:+ b = a +:+ c → b = c.
Proof. induction a as [|x a IH]; simpl; [done|]. intros [= H]. by apply IH. Qed.

Lemma append_inv_tail a b c : a +:+ c = b +:+ c → a = b.
Proof.
  intros H%(f_equal String.list_ascii_of_string).
  rewrite !list_ascii_app in H. apply app_inv_tail in H.
  by apply list_ascii_inj.
Qed.

Lemma imageDownloads_lookup gap job urls i :
  imageDownloads gap job urls !! i
  = (λ url, {| href := url;
               download := "image_" +:+ idPrefix job +:+ "_"
                           +:+ pretty.pretty (i + 1)%nat +:+ ".jpeg";
               after := Some (Z.of_nat i * gap) |}) <$> urls !! i.
Proof. unfold imageDownloads. apply list_lookup_imap. Qed.

Lemma imageDownloads_names gap job urls :
  NoDup (download <$> imageDownloads gap job urls).
Proof.
  apply NoDup_alt. intros i k name.
  rewrite !list_lookup_fmap, !imageDownloads_lookup.
  destruct (urls !! i) as [ui|]; [|done].
  destruct (urls !! k) as [uk|]; [|done]. simpl.
  intros [= <-] [= Heq].
  apply append_inv_head, append_inv_head, append_inv_head in Heq.
  apply append_inv_tail in Heq.
  apply (inj pretty.pretty) in Heq. lia.
Qed.

(** X18.  [handleDownloadAll] downloads results of Completed jobs only, so
    a result kept by a job that is no longer Completed is not downloaded.
    For one job, a non-empty [resultUrl] gives the single video download,
    whatever [resultUrls] holds; otherwise each URL of [resultUrls] gives
    one download, in order, started [index * gap] ms later; and the file
    names of one job are pairwise distinct. *)
Theorem X18_downloads :
  (∀ s dl, dl ∈ handleDownloadAll s →
     ∃ j, j ∈ jobs s ∧ status j = Completed ∧ dl ∈ downloadJob 300 j
       ∧ (resultUrl j = Some (href dl)
          ∨ ∃ urls, resultUrls j = Some urls ∧ href dl ∈ urls))
  ∧ (∀ gap j, NoDup (download <$> downloadJob gap j))
  ∧ (∀ gap j url, resultUrl j = Some url → url ≠ "" →
       downloadJob gap j
       = [ {| href := url; download := "video_" +:+ idPrefix j +:+ ".mp4";
              after := None |} ])
  ∧ (∀ gap j urls, resultUrl j = None → resultUrls j = Some urls →
       length (downloadJob gap j) = length urls
       ∧ ∀ i url, urls !! i = Some url →
           ∃ dl, downloadJob gap j !! i = Some dl ∧ href dl = url
                 ∧ after dl = Some (Z.of_nat i * gap)).
Proof.
  assert (Hhref : ∀ gap j dl, dl ∈ downloadJob gap j →
            resultUrl j = Some (href dl)
            ∨ ∃ urls, resultUrls j = Some urls ∧ href dl ∈ urls).
  { intros gap j dl. unfold downloadJob.
    assert (Himg : ∀ urls, resultUrls j = Some urls →
              dl ∈ imageDownloads gap j urls →
              ∃ urls, resultUrls j = Some urls ∧ href dl ∈ urls).
    { intros urls Hu (i & Hi)%list_elem_of_lookup_1.
      rewrite imageDownloads_lookup in Hi.
      destruct (urls !! i) as [url|] eqn:Hurl; [|done].
      injection Hi as <-. exists urls. split; [done|].
      by eapply list_elem_of_lookup_2. }
    destruct (resultUrl j) as [url|]; [case_decide|];
      try (destruct (resultUrls j) as [urls|];
           [intros Hdl; right; by eapply Himg|by intros ?%elem_of_nil]).
    intros ->%list_elem_of_singleton. by left. }
  split; [|split; [|split]].
  - intros s dl. unfold handleDownloadAll.
    intros Hin%list_elem_of_In. apply in_flat_map in Hin as (j & Hj & Hdl).
    apply list_elem_of_In in Hj, Hdl.
    apply list_elem_of_filter in Hj as [Hst Hj].
    exists j. eauto using Hhref.
  - intros gap j. unfold downloadJob.
    destruct (resultUrl j) as [url|]; [case_decide|];
      try (destruct (resultUrls j);
           [apply imageDownloads_names|apply NoDup_nil_2]).
    apply NoDup_singleton.
  - intros gap j url Hu Hne. unfold downloadJob. rewrite Hu.
    by rewrite decide_False.
  - intros gap j urls Hu Hus. unfold downloadJob. rewrite Hu, Hus.
    split; [apply length_imap|].
    intros i url Hi. rewrite imageDownloads_lookup, Hi. simpl. eauto.
Qed.

Lemma X18_witness :
  handleDownloadAll cancelledAfterCompletion = []
  ∧ downloadJob 300 (spread (formatJob ("0123456789", veo "one")) Completed 0
                            (Some "blob:video-1") (Some ["data:1"]) None)
    = [ {| href := "blob:video-1"; download := "video_01234567.mp4";
           after := None |} ].
Proof.
  destruct X18_downloads as (Hall & _ & Hvideo & _). split.
  - destruct (handleDownloadAll cancelledAfterCompletion) as [|dl l] eqn:Hd;
      [reflexivity|].
    destruct (Hall cancelledAfterCompletion dl) as (j & Hj & Hst & _).
    + rewrite Hd. apply elem_of_cons. by left.
    + vm_compute in Hj. apply elem_of_cons in Hj as [->|Hj];
        [discriminate Hst|by apply elem_of_nil in Hj].
  - rewrite (Hvideo 300 _ "blob:video-1"); [vm_compute; reflexivity|..].
    + reflexivity.
    + discriminate.
Defined.

(** ** The key display *)



(** ** The form *)

Lemma plain_createDefaultJob available : plain (createDefaultJob available).
Proof. by repeat split. Qed.

Lemma plain_withModel m t : plain t → plain (withModel m t).
Proof. by intros (? & ? & ?). Qed.


Lemma plain_assign available c t : plain t → plain (assign available c t).
Proof. intros (? & ? & ?). by destruct c. Qed.

Lemma allocate_spec t store :
  plain t → map_Forall (λ _ t, plain t) store →
  (allocate t store).1 ∈ dom (allocate t store).2
  ∧ ((allocate t store).1 ∉ dom store)
  ∧ dom store ⊆ dom (allocate t store).2
  ∧ (allocate t store).2 !! (allocate t store).1 = Some t
  ∧ map_Forall (λ _ t, plain t) (allocate t store).2.
Proof.
  intros Ht Hstore. unfold allocate. simpl.
  split; [|split; [|split; [|split]]].
  - rewrite dom_insert_L. set_solver.
  - apply is_fresh.
  - apply dom_insert_subseteq.
  - apply lookup_insert_eq.
  - by apply map_Forall_insert_2.
Qed.

Lemma normalise_plain available t copy :
  plain t → normalise available t = Some copy → plain copy.
Proof.
  unfold normalise. intros Ht.
  repeat case_decide; try case_bool_decide; intros [= <-];
    by apply plain_withModel.
Qed.

Lemma normaliseAll_spec available refs store :
  map_Forall (λ _ t, plain t) store →
  Forall (λ r, r ∈ dom store) refs →
  dom store ⊆ dom (normaliseAll available refs store).2
  ∧ map_Forall (λ _ t, plain t) (normaliseAll available refs store).2
  ∧ Forall (λ r, r ∈ dom (normaliseAll available refs store).2)
           (normaliseAll available refs store).1
  ∧ length (normaliseAll available refs store).1 = length refs.
Proof.
  revert store. induction refs as [|r rest IH]; intros store Hplain Hrefs.
  - simpl. split; [done|]. split; [done|]. split; [constructor|done].
  - apply Forall_cons in Hrefs as [Hr Hrest]. cbn [normaliseAll].
    destruct (store !! r) as [t|] eqn:Ht.
    + destruct (normalise available t) as [copy|] eqn:Hn.
      * pose proof (normalise_plain available t copy
                      (map_Forall_lookup_1 _ _ _ _ Hplain Ht) Hn) as Hcopy.
        destruct (allocate_spec copy store Hcopy Hplain)
          as (Hin & _ & Hsub & _ & Hplain').
        destruct (allocate copy store) as [r' store1]. cbn [fst snd] in *.
        destruct (IH store1 Hplain') as (Hsub2 & Hplain2 & Hall2 & Hlen2).
        { eapply Forall_impl; [exact Hrest|]. intros x Hx. by apply Hsub. }
        destruct (normaliseAll available rest store1) as [rest' store2].
        cbn [fst snd length] in *. split; [|split; [done|split]].
        -- by etrans.
        -- constructor; [by apply Hsub2|done].
        -- by rewrite Hlen2.
      * destruct (IH store Hplain Hrest) as (Hsub2 & Hplain2 & Hall2 & Hlen2).
        destruct (normaliseAll available rest store) as [rest' store2].
        cbn [fst snd length] in *. split; [done|split; [done|split]].
        -- constructor; [by apply Hsub2|done].
        -- by rewrite Hlen2.
    + destruct (IH store Hplain Hrest) as (Hsub2 & Hplain2 & Hall2 & Hlen2).
      destruct (normaliseAll available rest store) as [rest' store2].
      cbn [fst snd length] in *. split; [done|split; [done|split]].
      -- constructor; [by apply Hsub2|done].
      -- by rewrite Hlen2.
Qed.

Lemma formInvariant_grow past f refs store disabled available bulk :
  formInvariant past f →
  dom (objects f) ⊆ dom store →
  map_Forall (λ _ t, plain t) store →
  refs ≠ [] → Forall (λ r, r ∈ dom store) refs →
  formInvariant (refs :: past)
    {| isDisabled := disabled; providers := available; objects := store;
       jobTemplates := refs; bulkPrompts := bulk |}.
Proof.
  intros [Hcur Hne Hall Hplain] Hsub Hplain' Hrefs Hin. split; simpl.
  - apply elem_of_cons. by left.
  - by constructor.
  - constructor; [done|]. eapply Forall_impl; [exact Hall|].
    intros l Hl. eapply Forall_impl; [exact Hl|]. intros r Hr. by apply Hsub.
  - done.
Qed.

Lemma formInvariant_current past f :
  formInvariant past f →
  jobTemplates f ≠ [] ∧ Forall (λ r, r ∈ dom (objects f)) (jobTemplates f).
Proof.
  intros [Hcur Hne Hall _]. split.
  - by apply (proj1 (Forall_forall _ _) Hne).
  - by apply (proj1 (Forall_forall _ _) Hall).
Qed.

Lemma formInvariant_same past f :
  formInvariant past f → formInvariant (jobTemplates f :: past) f.
Proof.
  intros Hinv. destruct (formInvariant_current past f Hinv) as [Hne Hin].
  pose proof (form_plain past f Hinv) as Hplain.
  destruct f as [disabled available store refs bulk]. simpl in *.
  by apply (formInvariant_grow past _ refs store disabled available bulk Hinv).
Qed.

Lemma formInvariant_handleTemplateChange past f captured index c :
  captured ∈ past → formInvariant past f →
  formInvariant (jobTemplates (handleTemplateChange captured index c f) :: past)
                (handleTemplateChange captured index c f).
Proof.
  intros Hcap Hinv. unfold handleTemplateChange.
  destruct (captured !! index) as [r|]; [|by apply formInvariant_same].
  pose proof Hinv as [Hcur Hne Hall Hplain].
  apply (formInvariant_grow past f captured _ _ _ _ Hinv).
  - by rewrite dom_alter_L.
  - intros k t'. rewrite lookup_alter. case_decide as Hk.
    + subst k. destruct (objects f !! r) as [t|] eqn:Ht; simpl; [|by intros [=]].
      intros [= <-]. apply plain_assign.
      by apply (map_Forall_lookup_1 _ _ _ _ Hplain Ht).
    + apply Hplain.
  - by apply (proj1 (Forall_forall _ _) Hne).
  - rewrite dom_alter_L. by apply (proj1 (Forall_forall _ _) Hall).
Qed.

Lemma length_delete_lower {A} (i : nat) (l : list A) :
  (length l ≤ S (length (delete i l)))%nat.
Proof.
  revert i. induction l as [|x l IH]; intros [|i]; simpl; try lia.
  specialize (IH i). lia.
Qed.

Lemma formInvariant_formHandle past f e :
  (∀ captured index image,
     e = FileLoaded captured index image → captured ∈ past) →
  formInvariant past f →
  formInvariant (jobTemplates (formHandle e f) :: past) (formHandle e f).
Proof.
  intros Hcap Hinv.
  destruct (formInvariant_current past f Hinv) as [Hne Hin].
  pose proof (form_plain past f Hinv) as Hplain.
  destruct e as [index c|captured index image| |index|value|disabled available|];
    simpl.
  - apply formInvariant_handleTemplateChange; [apply Hinv|done].
  - apply formInvariant_handleTemplateChange; [by eapply Hcap|done].
  - unfold addJobTemplate.
    destruct (isDisabled f); [by apply formInvariant_same|].
    destruct (allocate_spec (createDefaultJob (providers f)) (objects f)
                (plain_createDefaultJob _) Hplain)
      as (Hr & _ & Hsub & _ & Hplain').
    destruct (allocate (createDefaultJob (providers f)) (objects f))
      as [r store]. simpl in *.
    apply (formInvariant_grow past f); try done.
    + by destruct (jobTemplates f).
    + apply Forall_app. split; [|by constructor].
      eapply Forall_impl; [exact Hin|]. intros x Hx. by apply Hsub.
  - unfold removeJobTemplate. case_decide as Hlen;
      [|by apply formInvariant_same].
    apply (formInvariant_grow past f); try done.
    + intros Hnil%(f_equal length).
      pose proof (length_delete_lower index (jobTemplates f)) as Hlow.
      rewrite Hnil in Hlow. simpl in Hlow. lia.
    + by apply Forall_delete.
  - unfold setBulkPrompts. by apply (formInvariant_grow past f).
  - unfold rerender.
    destruct (normaliseAll_spec available (jobTemplates f) (objects f)
                Hplain Hin) as (Hsub & Hplain' & Hall' & Hlen').
    destruct (normaliseAll available (jobTemplates f) (objects f))
      as [refs store]. simpl in *.
    apply (formInvariant_grow past f); try done.
    intros ->. simpl in Hlen'. by destruct (jobTemplates f).
  - unfold handleSubmit.
    destruct (isDisabled f); [by apply formInvariant_same|].
    case_decide; [|by apply formInvariant_same].
    destruct (allocate_spec (createDefaultJob (providers f)) (objects f)
                (plain_createDefaultJob _) Hplain)
      as (Hr & _ & Hsub & _ & Hplain').
    destruct (allocate (createDefaultJob (providers f)) (objects f))
      as [r store]. simpl in *.
    apply (formInvariant_grow past f); try done. by constructor.
Qed.

Lemma formReachable_invariant past f : formReachable past f → formInvariant past f.
Proof.
  induction 1 as [disabled available|past f e _ IH Hcap].
  - unfold initialForm.
    destruct (allocate_spec (createDefaultJob available) ∅
                (plain_createDefaultJob _) (map_Forall_empty _))
      as (Hr & _ & _ & _ & Hplain').
    destruct (allocate (createDefaultJob available) ∅) as [r store].
    simpl in *. split; simpl.
    + apply elem_of_cons. by left.
    + by repeat constructor.
    + by repeat constructor.
    + done.
  - by apply formInvariant_formHandle.
Qed.

Lemma deref_allocated f refs :
  Forall (λ r, r ∈ dom (objects f)) refs →
  length (deref f refs) = length refs.
Proof.
  unfold deref. induction 1 as [|r refs Hr _ IH]; [done|].
  apply elem_of_dom in Hr as [t Ht]. cbn [omap list_omap length].
  rewrite Ht. cbn [length]. by rewrite IH.
Qed.

Lemma deref_plain f refs :
  map_Forall (λ _ t, plain t) (objects f) → Forall plain (deref f refs).
Proof.
  intros Hplain. apply Forall_forall. unfold deref.
  intros t (r & _ & Hr)%list_elem_of_omap.
  by apply (map_Forall_lookup_1 _ _ _ _ Hplain Hr).
Qed.

(** X20.  The form always holds at least one template, every reference of
    its array points to an object, and no template carries a result field or
    an error, whatever was edited, added, removed or re-rendered, and also
    after a [FileReader] callback has put back the array of an earlier
    render. *)
Theorem X20_form_templates_are_plain (past : list (list nat)) (f : Form) :
  formReachable past f →
  jobTemplates f ≠ []
  ∧ length (deref f (jobTemplates f)) = length (jobTemplates f)
  ∧ Forall plain (deref f (jobTemplates f)).
Proof.
  intros Hinv%formReachable_invariant.
  destruct (formInvariant_current past f Hinv) as [Hne Hin].
  split; [done|]. split; [by apply deref_allocated|].
  apply deref_plain, Hinv.
Qed.

(** ** White space: [trim] applied twice *)

Lemma string_prefix_app_iff w s :
  String.prefix w s = true ↔ ∃ t, s = w +:+ t.
Proof.
  revert s. induction w as [|a w IH]; intros s.
  - split; [intros _; by exists s|by destruct s].
  - destruct s as [|b s]; simpl.
    + split; [done|]. by intros [t [=]].
    + destruct (Ascii.ascii_dec a b) as [->|Hne].
      * rewrite IH. split; intros [t Ht]; exists t.
        -- by rewrite Ht.
        -- by injection Ht.
      * split; [done|]. intros [t [=]]. congruence.
Qed.

Lemma string_substring_app_drop w t :
  String.substring (String.length w)
    (String.length (w +:+ t) - String.length w) (w +:+ t) = t.
Proof.
  induction w as [|a w IH]; simpl.
  - rewrite Nat.sub_0_r. induction t as [|b t IHt]; [done|]. simpl. by f_equal.
  - apply IH.
Qed.

Lemma string_app_cons c (a b : string) : String c a +:+ b = String c (a +:+ b).
Proof. done. Qed.

Lemma string_length_app (a b : string) :
  String.length (a +:+ b) = (String.length a + String.length b)%nat.
Proof.
  induction a as [|c a IH]; [done|]. rewrite string_app_cons. simpl. by f_equal.
Qed.

Lemma string_app_nil_r (a : string) : a +:+ "" = a.
Proof. induction a as [|c a IH]; [done|]. by rewrite string_app_cons, IH. Qed.

Lemma string_app_assoc (a b c : string) : (a +:+ b) +:+ c = a +:+ (b +:+ c).
Proof. induction a as [|x a IH]; [done|]. by rewrite !string_app_cons, IH. Qed.

Lemma string_rev_app_spec (a b : string) : String.rev_app a b = String.rev a +:+ b.
Proof.
  unfold String.rev. revert b.
  induction a as [|c a IH]; intros b; simpl; [done|].
  rewrite (IH (String c "")), IH. by rewrite string_app_assoc.
Qed.

Lemma string_rev_cons c (a : string) : String.rev (String c a) = String.rev a +:+ String c "".
Proof. unfold String.rev at 1. simpl. apply string_rev_app_spec. Qed.

Lemma string_rev_app_distr (a b : string) :
  String.rev (a +:+ b) = String.rev b +:+ String.rev a.
Proof.
  induction a as [|c a IH].
  - change (String.rev "") with "". by rewrite string_app_nil_r.
  - by rewrite string_app_cons, !string_rev_cons, IH, string_app_assoc.
Qed.

Lemma string_rev_involutive (a : string) : String.rev (String.rev a) = a.
Proof.
  induction a as [|c a IH]; [done|].
  by rewrite string_rev_cons, string_rev_app_distr, IH.
Qed.

Lemma string_rev_length (a : string) : String.length (String.rev a) = String.length a.
Proof.
  induction a as [|c a IH]; [done|].
  rewrite string_rev_cons, string_length_app, IH. simpl. lia.
Qed.

Lemma stripLeading_suffix spaces fuel s :
  ∃ u, s = u +:+ stripLeading spaces fuel s.
Proof.
  revert s. induction fuel as [|fuel IH]; intros s; simpl; [by exists ""|].
  destruct (List.find _ spaces) as [w|] eqn:Hw; [|by exists ""].
  apply List.find_some in Hw as [_ [t ->]%string_prefix_app_iff].
  rewrite string_substring_app_drop. destruct (IH t) as [u Hu].
  exists (w +:+ u). by rewrite string_app_assoc, <-Hu.
Qed.

Lemma stripLeading_stable spaces fuel s :
  List.find (λ w, String.prefix w s) spaces = None →
  stripLeading spaces fuel s = s.
Proof. intros Hs. destruct fuel; simpl; [done|]. by rewrite Hs. Qed.

Lemma stripLeading_stripped spaces fuel s :
  Forall (λ w, w ≠ "") spaces → (String.length s ≤ fuel)%nat →
  List.find (λ w, String.prefix w (stripLeading spaces fuel s)) spaces = None.
Proof.
  intros Hsp. revert s. induction fuel as [|fuel IH]; intros s Hlen; simpl.
  - destruct s; [|simpl in Hlen; lia].
    destruct (List.find _ spaces) as [w|] eqn:Hw; [|done].
    apply List.find_some in Hw as [Hin Hpre].
    apply list_elem_of_In in Hin.
    pose proof (proj1 (Forall_forall _ _) Hsp w Hin). by destruct w.
  - destruct (List.find (λ w, String.prefix w s) spaces) as [w|] eqn:Hw;
      [|done].
    apply List.find_some in Hw as [Hin [t ->]%string_prefix_app_iff].
    apply list_elem_of_In in Hin.
    pose proof (proj1 (Forall_forall _ _) Hsp w Hin) as Hne.
    rewrite string_substring_app_drop. apply IH.
    rewrite string_length_app in Hlen. destruct w; [done|]. simpl in Hlen. lia.
Qed.

Lemma find_prefix_none_app spaces (a b : string) :
  List.find (λ w, String.prefix w (a +:+ b)) spaces = None →
  List.find (λ w, String.prefix w a) spaces = None.
Proof.
  intros Hnone.
  destruct (List.find (λ w, String.prefix w a) spaces) as [w|] eqn:Hw; [|done].
  apply List.find_some in Hw as [Hin [t Ht]%string_prefix_app_iff].
  eapply List.find_none in Hnone; [|exact Hin]. simpl in Hnone.
  assert (String.prefix w (a +:+ b) = true) as Hp; [|by rewrite Hp in Hnone].
  apply string_prefix_app_iff. exists (t +:+ b). by rewrite Ht, string_app_assoc.
Qed.

Lemma whiteSpace_nonempty : Forall (λ w, w ≠ "") whiteSpace.
Proof. apply (bool_decide_unpack _). vm_compute. exact I. Qed.

Lemma whiteSpace_rev_nonempty : Forall (λ w, w ≠ "") (String.rev <$> whiteSpace).
Proof. apply (bool_decide_unpack _). vm_compute. exact I. Qed.

Lemma trim_trim s : trim (trim s) = trim s.
Proof.
  unfold trim at 2.
  set (s1 := stripLeading whiteSpace (String.length s) s).
  set (r := stripLeading (String.rev <$> whiteSpace) (String.length s1)
                         (String.rev s1)).
  assert (List.find (λ w, String.prefix w s1) whiteSpace = None) as Hs1.
  { by apply stripLeading_stripped; [apply whiteSpace_nonempty|]. }
  assert (List.find (λ w, String.prefix w r) (String.rev <$> whiteSpace) = None)
    as Hr.
  { apply stripLeading_stripped; [apply whiteSpace_rev_nonempty|].
    by rewrite string_rev_length. }
  destruct (stripLeading_suffix (String.rev <$> whiteSpace) (String.length s1)
              (String.rev s1)) as [u Hu].
  fold r in Hu.
  assert (s1 = String.rev r +:+ String.rev u) as Hs.
  { by rewrite <-string_rev_app_distr, <-Hu, string_rev_involutive. }
  rewrite Hs in Hs1. apply find_prefix_none_app in Hs1.
  unfold trim. rewrite (stripLeading_stable _ _ _ Hs1), string_rev_involutive.
  by rewrite (stripLeading_stable _ _ _ Hr).
Qed.

(** ** What the form submits *)



Lemma formSteps_reachable es : ∀ past f past' f',
  formReachable past f → formSteps es past f = Some (past', f') →
  formReachable past' f'.
Proof.
  induction es as [|e es IH]; intros past f past' f' Hr; simpl.
  - by intros [= <- <-].
  - case_decide as Hcap; [|done]. apply IH. apply form_handle; [done|].
    intros captured index image ->. exact Hcap.
Qed.

Lemma X20_witness :
  let f := default (initialForm false [])
             (snd <$> formSteps formEvents
                        [jobTemplates (initialForm false [gemini])]
                        (initialForm false [gemini])) in
  jobTemplates f = [0; 1]%nat
  ∧ length (deref f (jobTemplates f)) = 2%nat
  ∧ Forall plain (deref f (jobTemplates f)).
Proof.
  intros f.
  assert (formReachable [[0; 1]; [2; 3]; [0; 1]; [0; 1]; [0; 1]; [0; 1]; [0]; [0]]%nat f)
    as Hr.
  { apply (formSteps_reachable formEvents
             [jobTemplates (initialForm false [gemini])]
             (initialForm false [gemini])); [apply form_initial|].
    vm_compute. reflexivity. }
  destruct (X20_form_templates_are_plain _ f Hr) as (_ & Hlen & Hplain).
  split; [vm_compute; reflexivity|]. split; [|exact Hplain].
  rewrite Hlen. vm_compute. reflexivity.
Defined.



(** ** The effect on the available providers *)

Lemma normalised_modelOffered available t :
  modelOffered available (normalised available t).
Proof.
  unfold normalised, normalise, modelOffered.
  case_decide as Hlen; simpl.
  - right. unfold getAvailableModels. by rewrite decide_True.
  - case_bool_decide as Hex; simpl; [by left|].
    destruct (getAvailableModels available (JobTemplate.inputType t))
      as [|m ms]; [by right|].
    left. by apply Exists_cons_hd.
Qed.

Lemma omap_lookup_weaken (store store' : gmap nat JobTemplate.t) refs :
  store ⊆ store' → Forall (λ r, r ∈ dom store) refs →
  omap (λ r, store' !! r) refs = omap (λ r, store !! r) refs.
Proof.
  intros Hsub. induction 1 as [|r refs Hr _ IH]; [done|].
  apply elem_of_dom in Hr as [t Ht]. cbn [omap list_omap].
  by rewrite Ht, (lookup_weaken _ _ _ _ Ht Hsub), IH.
Qed.

Lemma allocate_subseteq t (store : gmap nat JobTemplate.t) :
  store ⊆ (allocate t store).2.
Proof.
  unfold allocate. simpl. apply insert_subseteq, not_elem_of_dom, is_fresh.
Qed.

Lemma normaliseAll_deref available refs : ∀ store,
  Forall (λ r, r ∈ dom store) refs →
  store ⊆ (normaliseAll available refs store).2
  ∧ omap (λ r, (normaliseAll available refs store).2 !! r)
         (normaliseAll available refs store).1
    = normalised available <$> omap (λ r, store !! r) refs.
Proof.
  induction refs as [|r refs IH]; intros store Hall; [done|].
  apply Forall_cons in Hall as [Hr Hall].
  apply elem_of_dom in Hr as [t Ht].
  cbn [normaliseAll omap list_omap]. rewrite Ht.
  unfold normalised at 1.
  destruct (normalise available t) as [copy|] eqn:Hn.
  - pose proof (allocate_subseteq copy store) as Hsub.
    assert ((allocate copy store).2 !! (allocate copy store).1 = Some copy)
      as Hcopy by apply lookup_insert_eq.
    destruct (allocate copy store) as [r' store1]. cbn [fst snd] in *.
    destruct (IH store1) as [Hsub2 Heq].
    { eapply Forall_impl; [exact Hall|]. intros x Hx.
      by apply (subseteq_dom _ _ Hsub). }
    destruct (normaliseAll available refs store1) as [rest' store2].
    cbn [fst snd omap list_omap fmap list_fmap] in *.
    split; [by etrans|].
    rewrite (lookup_weaken _ _ _ _ Hcopy Hsub2), Heq.
    rewrite (omap_lookup_weaken store store1 refs Hsub Hall).
    by rewrite Hn.
  - destruct (IH store Hall) as [Hsub2 Heq].
    destruct (normaliseAll available refs store) as [rest' store2].
    cbn [fst snd omap list_omap fmap list_fmap] in *.
    split; [done|].
    by rewrite (lookup_weaken _ _ _ _ Ht Hsub2), Heq, Hn.
Qed.

(** X22.  After a render with new providers the effect leaves every
    template with a model offered for its input type, or with none when
    nothing is offered: each template is replaced by its normalised copy,
    in the same order, and the objects of the earlier renders are not
    written to. *)
Theorem X22_effect_normalises_models (past : list (list nat)) (f : Form)
    (disabled : bool) (available : list Provider) :
  formReachable past f →
  let f' := rerender disabled available f in
  deref f' (jobTemplates f') = normalised available <$> deref f (jobTemplates f)
  ∧ Forall (modelOffered available) (deref f' (jobTemplates f'))
  ∧ (∀ r t, objects f !! r = Some t → objects f' !! r = Some t).
Proof.
  intros Hinv%formReachable_invariant.
  destruct (formInvariant_current past f Hinv) as [_ Hin].
  destruct (normaliseAll_deref available (jobTemplates f) (objects f) Hin)
    as [Hsub Heq].
  unfold rerender, deref.
  destruct (normaliseAll available (jobTemplates f) (objects f))
    as [refs store].
  cbn [fst snd objects jobTemplates] in *.
  split; [done|]. split.
  - rewrite Heq. apply Forall_fmap, Forall_forall. intros t _.
    apply normalised_modelOffered.
  - intros r t Ht. by apply (lookup_weaken _ _ _ _ Ht Hsub).
Qed.

Lemma X22_witness :
  let f := default (initialForm false [])
             (snd <$> formSteps (take 5 formEvents)
                        [jobTemplates (initialForm false [gemini])]
                        (initialForm false [gemini])) in
  let f' := rerender false [deepai] f in
  JobTemplate.model <$> deref f' (jobTemplates f') = ["deepai-video"; ""]
  ∧ Forall (modelOffered [deepai]) (deref f' (jobTemplates f'))
  ∧ JobTemplate.model <$> objects f' !! 0%nat = Some "veo-2.0-generate-001".
Proof.
  intros f f'.
  assert (formReachable [[0; 1]; [0; 1]; [0; 1]; [0; 1]; [0]; [0]]%nat f) as Hr.
  { apply (formSteps_reachable (take 5 formEvents)
             [jobTemplates (initialForm false [gemini])]
             (initialForm false [gemini])); [apply form_initial|].
    vm_compute. reflexivity. }
  destruct (X22_effect_normalises_models _ f false [deepai] Hr)
    as (Heq & Hall & Hold).
  split; [|split].
  - fold f' in Heq. rewrite Heq. vm_compute. reflexivity.
  - exact Hall.
  - vm_compute. reflexivity.
Defined.

(** ** Saving a key through the manager *)

(** X23.  The save button of [ApiKeysManager] does nothing when the input
    is blank: no key is stored, no quota flag is cleared and the input stays.
    Otherwise the key stored for the provider is the input without its
    surrounding white space, it is not empty and trimming it again changes
    nothing; the provider is no longer flagged, its input is emptied, and the
    manager shows a saved key for exactly the providers that have one. *)
Theorem X23_manager_saves_trimmed_keys (provider : Provider) (m : Manager)
    (s : State) :
  let key := trim (apiKeysInput m provider) in
  (key = "" → saveButton provider (m, s) = (m, s))
  ∧ (key ≠ "" →
       let m' := (saveButton provider (m, s)).1 in
       let s' := (saveButton provider (m, s)).2 in
       apiKeys s' !! provider = Some (Some key)
       ∧ trim key = key
       ∧ (∀ p, p ≠ provider → apiKeys s' !! p = apiKeys s !! p)
       ∧ (provider ∉ quotaExceededProviders s')
       ∧ apiKeysInput m' provider = ""
       ∧ (∀ p, p ≠ provider → apiKeysInput m' p = apiKeysInput m p)
       ∧ (∀ p, showsSavedKey p m' s' = truthy (apiKeys s' !! p))
       ∧ showsSavedKey provider m' s' = true).
Proof.
  intros key. unfold saveButton, handleSave. cbn [fst snd]. fold key.
  split; intros Hkey.
  - by rewrite decide_True.
  - rewrite decide_False by done. rewrite decide_False by done.
    unfold handleSaveApiKey. rewrite decide_False by done.
    cbn -[trim]. split; [apply lookup_insert_eq|].
    split; [apply trim_trim|].
    split; [intros p Hp; by apply lookup_insert_ne|].
    split; [set_solver|].
    split; [apply functions.fn_lookup_insert|].
    split; [intros p Hp; by apply functions.fn_lookup_insert_ne|].
    assert (∀ p, showsSavedKey p
              (syncEditing (<[provider:=Some key]> (apiKeys s))
                 {| activeTab := activeTab m;
                    apiKeysInput := <[provider:=""]> (apiKeysInput m);
                    isEditing := <[provider:=false]> (isEditing m);
                    isKeyVisible := isKeyVisible m |})
              (set_quota (λ prev, prev ∖ {[provider]})
                 (set_apiKeys (λ keys, <[provider:=Some key]> keys) s))
            = truthy (<[provider:=Some key]> (apiKeys s) !! p)) as Hshow.
    { intros p. unfold showsSavedKey, syncEditing, editingFor. cbn -[trim].
      by destruct (truthy _). }
    split; [exact Hshow|].
    rewrite Hshow, lookup_insert_eq. simpl.
    by rewrite bool_decide_eq_false_2.
Qed.

Lemma X23_witness :
  let m := handleInput gemini "  fresh-key " (initialManager geminiKeys) in
  let flagged := settle 0 (Rejected (QuotaExceededError "quota")) twoInFlight in
  apiKeys (saveButton gemini (m, flagged)).2 !! gemini = Some (Some "fresh-key")
  ∧ quotaExceededProviders (saveButton gemini (m, flagged)).2 = ∅
  ∧ saveButton sora (m, flagged) = (m, flagged).
Proof.
  intros m flagged.
  destruct (X23_manager_saves_trimmed_keys gemini m flagged) as [_ Hsave].
  destruct (X23_manager_saves_trimmed_keys sora m flagged) as [Hblank _].
  destruct Hsave as (Hkey & _); [vm_compute; discriminate|].
  split; [|split].
  - rewrite Hkey. vm_compute. reflexivity.
  - vm_compute. reflexivity.
  - apply Hblank. vm_compute. reflexivity.
Defined.
